(** * The npmx local connector: operation store, wave scheduler and error
      classification

    A shallow embedding of [cli/src/npm-client.ts] and [cli/src/server.ts].

    Conventions of the embedding.
    - JavaScript strings are modelled as Rocq [string]s holding ASCII text;
      [toLowerCase] and [trim] are the ASCII restrictions of the JavaScript
      methods (they agree with them on ASCII input).
    - Objects of the operation store are addressed by their position in
      [state.operations]; a list of positions stands for a JavaScript array
      that aliases objects of the store.
    - [Set<string>] is a [gset string].
    - The outside world (the child process started by [execAsync], the clock,
      the random id generator, [JSON.parse]) is a family of functions indexed
      by a counter that every use advances.
    - Logging ([logCommand], [logSuccess], [logError]) only writes to the
      console and is left out. *)

From Stdlib Require Import ZArith Ascii String List Bool Lia.
From stdpp Require Import base option list sorting gmap strings.

Set Default Proof Using "Type".

Local Open Scope string_scope.
Local Open Scope list_scope.

(** ** JavaScript string methods used by the connector *)

Module JsString.

Definition LF : ascii := "010"%char.

Definition nl : string := String LF EmptyString.

Definition lowerChar (c : ascii) : ascii :=
  let n := nat_of_ascii c in
  if (65 <=? n)%nat && (n <=? 90)%nat then ascii_of_nat (n + 32) else c.

(** [s.toLowerCase()] *)
Fixpoint toLowerCase (s : string) : string :=
  match s with
  | EmptyString => EmptyString
  | String c s' => String (lowerChar c) (toLowerCase s')
  end.

(** [s.startsWith(p)] *)
Fixpoint startsWith (s p : string) {struct p} : bool :=
  match p with
  | EmptyString => true
  | String b p' =>
      match s with
      | EmptyString => false
      | String a s' => if Ascii.eqb a b then startsWith s' p' else false
      end
  end.

(** [s.includes(p)] *)
Fixpoint includes (s p : string) : bool :=
  startsWith s p ||
  match s with
  | EmptyString => false
  | String _ s' => includes s' p
  end.

(** [s.split('\n')] *)
Fixpoint splitLines (s : string) : list string :=
  match s with
  | EmptyString => [EmptyString]
  | String c s' =>
      if Ascii.eqb c LF then EmptyString :: splitLines s'
      else match splitLines s' with
           | l :: ls => String c l :: ls
           | [] => [String c EmptyString]
           end
  end.

(** [parts.join(sep)] *)
Fixpoint join (sep : string) (parts : list string) : string :=
  match parts with
  | [] => EmptyString
  | [p] => p
  | p :: rest => p +:+ sep +:+ join sep rest
  end.

(** White space and line terminators that [trim] strips (ASCII range). *)
Definition isWhiteSpace (c : ascii) : bool :=
  let n := nat_of_ascii c in
  ((9 <=? n)%nat && (n <=? 13)%nat) || (n =? 32)%nat.

Fixpoint trimStart (s : string) : string :=
  match s with
  | EmptyString => EmptyString
  | String c s' => if isWhiteSpace c then trimStart s' else s
  end.

Fixpoint trimEnd (s : string) : string :=
  match s with
  | EmptyString => EmptyString
  | String c s' =>
      match trimEnd s' with
      | EmptyString => if isWhiteSpace c then EmptyString else String c EmptyString
      | t => String c t
      end
  end.

(** [s.trim()] *)
Definition trim (s : string) : string := trimEnd (trimStart s).

(** [if (s)] on a value of type [string | undefined]: [undefined] and the
    empty string are falsy. *)
Definition truthy (s : option string) : bool :=
  match s with
  | None => false
  | Some EmptyString => false
  | Some _ => true
  end.

Fixpoint dropChars (n : nat) (s : string) : string :=
  match n, s with
  | O, _ => s
  | S _, EmptyString => EmptyString
  | S n', String _ s' => dropChars n' s'
  end.

(** [s.replace(pattern, '')] for a non-empty string pattern: the first
    occurrence is removed. *)
Fixpoint removeFirst (pattern s : string) : string :=
  if startsWith s pattern then dropChars (String.length pattern) s
  else match s with
       | EmptyString => EmptyString
       | String c s' => String c (removeFirst pattern s')
       end.

(** [p] occurs in [s]. *)
Definition occursIn (p s : string) : Prop :=
  exists u t : string, s = u +:+ p +:+ t.

Lemma startsWith_spec (s p : string) :
  startsWith s p = true <-> exists t : string, s = p +:+ t.
Proof.
  revert s. induction p as [|b p IH]; intros s; simpl.
  - split; [intros _; exists s; reflexivity | reflexivity].
  - destruct s as [|a s].
    + split; [discriminate | intros [t Ht]; discriminate].
    + destruct (Ascii.eqb_spec a b) as [->|Hne].
      * rewrite IH. split; intros [t Ht]; exists t.
        -- now rewrite Ht.
        -- now injection Ht.
      * split; [discriminate | intros [t Ht]; injection Ht; intros; contradiction].
Qed.

Lemma includes_spec (s p : string) :
  includes s p = true <-> occursIn p s.
Proof.
  unfold occursIn. induction s as [|a s IH]; simpl.
  - rewrite orb_false_r, startsWith_spec. split.
    + intros [t Ht]. exists EmptyString, t. exact Ht.
    + intros [u [t Ht]]. destruct u; [exists t; exact Ht | discriminate].
  - rewrite orb_true_iff, IH, startsWith_spec. split.
    + intros [[t Ht] | [u [t Ht]]].
      * exists EmptyString, t. exact Ht.
      * exists (String a u), t. simpl. now rewrite Ht.
    + intros [u [t Ht]]. destruct u as [|c u].
      * left. exists t. exact Ht.
      * right. exists u, t. simpl in Ht. now injection Ht.
Qed.

Lemma removeFirst_prefix (pattern s : string) :
  removeFirst pattern (pattern +:+ s) = s.
Proof.
  assert (Hdrop : dropChars (String.length pattern) (pattern +:+ s) = s).
  { induction pattern as [|c p IH]; simpl; [by destruct s | done]. }
  assert (Hstarts : startsWith (pattern +:+ s) pattern = true).
  { apply startsWith_spec. by exists s. }
  destruct pattern as [|c p]; simpl in *.
  - by destruct s.
  - by rewrite Hstarts.
Qed.

(** *** Round trip of [split] and [join], and [trim] *)

Lemma splitLines_nonempty (s : string) : splitLines s <> [].
Proof.
  destruct s as [|c s]; simpl; [discriminate|].
  destruct (Ascii.eqb c LF); [discriminate|].
  destruct (splitLines s); discriminate.
Qed.

Lemma join_cons (sep p : string) (rest : list string) :
  rest <> [] -> join sep (p :: rest) = p +:+ sep +:+ join sep rest.
Proof. destruct rest; [congruence | reflexivity]. Qed.

(** [s.split('\n').join('\n')] is [s]. *)
Lemma join_splitLines (s : string) : join nl (splitLines s) = s.
Proof.
  induction s as [|c s IH]; simpl; [reflexivity|].
  destruct (Ascii.eqb_spec c LF) as [->|Hne].
  - rewrite join_cons by apply splitLines_nonempty. simpl. now rewrite IH.
  - pose proof (splitLines_nonempty s) as Hs.
    destruct (splitLines s) as [|l ls]; [congruence|].
    destruct ls as [|l' ls]; simpl in *; now rewrite <- IH.
Qed.

(** The text is empty or starts with a character that [trim] keeps. *)
Definition headKept (s : string) : Prop :=
  match s with
  | EmptyString => True
  | String c _ => isWhiteSpace c = false
  end.

Lemma trimStart_headKept (s : string) : headKept (trimStart s).
Proof.
  induction s as [|c s IH]; simpl; [exact I|].
  destruct (isWhiteSpace c) eqn:Hc; [exact IH | exact Hc].
Qed.

Lemma trimStart_fixed (s : string) : headKept s -> trimStart s = s.
Proof. destruct s as [|c s]; simpl; [reflexivity|]. now intros ->. Qed.

Lemma trimEnd_headKept (s : string) : headKept s -> headKept (trimEnd s).
Proof.
  destruct s as [|c s]; simpl; [trivial|]. intros Hc.
  destruct (trimEnd s); simpl; [now rewrite Hc | exact Hc].
Qed.

Lemma trimEnd_idempotent (s : string) : trimEnd (trimEnd s) = trimEnd s.
Proof.
  induction s as [|c s IH]; simpl; [reflexivity|].
  destruct (trimEnd s) as [|d t] eqn:Ht.
  - destruct (isWhiteSpace c) eqn:Hc; simpl; [reflexivity | now rewrite Hc].
  - simpl in *. now rewrite IH.
Qed.

Lemma trim_idempotent (s : string) : trim (trim s) = trim s.
Proof.
  unfold trim.
  rewrite (trimStart_fixed (trimEnd (trimStart s))).
  - apply trimEnd_idempotent.
  - apply trimEnd_headKept, trimStart_headKept.
Qed.

(** A trimmed text neither starts nor ends with white space. *)
Lemma trimEnd_last (s : string) (c : ascii) (t : string) :
  trimEnd s = t +:+ String c EmptyString -> isWhiteSpace c = false.
Proof.
  revert t. induction s as [|a s IH]; intros t; simpl.
  - destruct t; discriminate.
  - destruct (trimEnd s) as [|d u] eqn:Hu.
    + destruct (isWhiteSpace a) eqn:Ha.
      * destruct t; discriminate.
      * destruct t as [|b t]; simpl; intros H.
        -- now injection H as <-.
        -- injection H as _ H. destruct t; discriminate.
    + destruct t as [|b t]; simpl; intros H.
      * discriminate.
      * injection H as _ H. now apply (IH t).
Qed.




End JsString.

(** ** npm-client.ts: running npm and classifying its failures *)

Module NpmClient.
Import JsString.

Record NpmExecResult := {
  stdout : string;
  stderr : string;
  exitCode : Z;
  (* True if the operation failed due to missing/invalid OTP *)
  requiresOtp : option bool;
  (* True if the operation failed due to authentication failure *)
  authFailure : option bool
}.

(** Truthiness of an optional boolean field ([undefined] is falsy). *)
Definition flag (b : option bool) : bool :=
  match b with
  | Some true => true
  | _ => false
  end.

Definition otpPatterns : list string :=
  [ "EOTP";
    "one-time password";
    "This operation requires a one-time password";
    "--otp=<code>" ].

Definition detectOtpRequired (text : string) : bool :=
  let lowerStderr := toLowerCase text in
  existsb (fun pattern => includes lowerStderr (toLowerCase pattern)) otpPatterns.

Definition authPatterns : list string :=
  [ "ENEEDAUTH";
    "You must be logged in";
    "authentication error";
    "Unable to authenticate";
    "code E401";
    "code E403";
    "401 Unauthorized";
    "403 Forbidden";
    "not logged in";
    "npm login";
    "npm adduser" ].

Definition detectAuthFailure (text : string) : bool :=
  let lowerStderr := toLowerCase text in
  existsb (fun pattern => includes lowerStderr (toLowerCase pattern)) authPatterns.

Definition filterNpmWarnings (text : string) : string :=
  trim (join nl (List.filter (fun line => negb (startsWith line "npm warn"))
                             (splitLines text))).

(** What the promise of [execAsync] settles to.  A rejection carries the error
    object: its optional [stdout], [stderr] and [code] fields, and the text
    that [String(error)] gives. *)
Record ExecError := {
  errStdout : option string;
  errStderr : option string;
  errCode : option Z;
  errText : string
}.

Inductive ExecOutcome :=
| Resolved (out err : string)
| Rejected (error : ExecError).

Definition otpMessage : string :=
  "This operation requires a one-time password (OTP).".

Definition doubleQuote : string := String "034"%char EmptyString.

Definition authMessage : string :=
  "Authentication failed. Please run " +:+ doubleQuote +:+ "npm login"
  +:+ doubleQuote +:+ " and restart the connector.".

(** The command line [cmd.join(' ')]. *)
Definition commandLine (args : list string) (otp : option string) : string :=
  let cmd := "npm" :: args in
  let cmd := if truthy otp then cmd ++ ["--otp"; default EmptyString otp] else cmd in
  join " " cmd.

(** [const stderr = err.stderr?.trim() ?? String(error)] *)
Definition failureText (err : ExecError) : string :=
  match errStderr err with
  | Some text => trim text
  | None => errText err
  end.

Definition execNpm (execAsync : string -> ExecOutcome)
    (args : list string) (otp : option string) : NpmExecResult :=
  match execAsync (commandLine args otp) with
  | Resolved out err =>
      {| stdout := trim out;
         stderr := filterNpmWarnings err;
         exitCode := 0;
         requiresOtp := None;
         authFailure := None |}
  | Rejected err =>
      let text := failureText err in
      let otpNeeded := detectOtpRequired text in
      let authFailed := detectAuthFailure text in
      {| stdout := match errStdout err with Some out => trim out | None => EmptyString end;
         stderr := if otpNeeded then otpMessage
                   else if authFailed then authMessage
                   else filterNpmWarnings text;
         exitCode := match errCode err with Some code => code | None => 1%Z end;
         requiresOtp := Some otpNeeded;
         authFailure := Some authFailed |}
  end.

(** *** The classification in the words of the specification *)

(** Some pattern of the list occurs in the text, letter case ignored. *)
Definition mentions (patterns : list string) (text : string) : Prop :=
  exists pattern : string,
    In pattern patterns /\ occursIn (toLowerCase pattern) (toLowerCase text).

(** The text with the lines that start with [npm warn] removed. *)
Definition withoutWarnLines (text : string) : string :=
  join nl (List.filter (fun line => negb (startsWith line "npm warn"))
                       (splitLines text)).

(** The diagnostic of a failed command as the specification words it: the
    fixed sentences, or else the raw text with the warning lines removed. *)
Definition claimedFailureStderr (raw : string) : string :=
  if detectOtpRequired raw then otpMessage
  else if detectAuthFailure raw then authMessage
  else withoutWarnLines raw.

Lemma detectOtpRequired_spec (text : string) :
  detectOtpRequired text = true <-> mentions otpPatterns text.
Proof.
  unfold detectOtpRequired, mentions. rewrite existsb_exists.
  split; intros [p [Hin Hp]]; exists p; split; auto;
    now apply includes_spec.
Qed.

Lemma detectAuthFailure_spec (text : string) :
  detectAuthFailure text = true <-> mentions authPatterns text.
Proof.
  unfold detectAuthFailure, mentions. rewrite existsb_exists.
  split; intros [p [Hin Hp]]; exists p; split; auto;
    now apply includes_spec.
Qed.

Lemma filterNpmWarnings_trim (text : string) :
  filterNpmWarnings text = trim (withoutWarnLines text).
Proof. reflexivity. Qed.

(** A failed [npm] whose diagnostic names both an OTP challenge and a login
    problem. *)
Definition otpAndLoginFailure : ExecError :=
  {| errStdout := Some EmptyString;
     errStderr := Some ("npm error code EOTP" +:+ nl +:+
                        "npm error Try npm login, or pass --otp=<code>" +:+ nl);
     errCode := Some 1%Z;
     errText := "Error: Command failed: npm owner add alice left-pad" |}.

(** A failed [npm] whose diagnostic is a warning line followed by an indented
    message; no OTP or authentication phrase occurs in it. *)
Definition indentedDiagnostic : string :=
  "npm warn old lockfile" +:+ nl +:+ "  boom".

Definition indentedFailure : ExecError :=
  {| errStdout := None;
     errStderr := Some indentedDiagnostic;
     errCode := Some 1%Z;
     errText := "Error: Command failed: npm team create @acme:core" |}.

(** C6, as amended: for a failed command whose error carries the diagnostic
    [raw], the text is first trimmed.  If some OTP pattern occurs in it (letter
    case ignored) the result's stderr is the fixed OTP sentence, whether or
    not an authentication pattern occurs as well; otherwise, if some
    authentication pattern occurs, it is the fixed re-login sentence;
    otherwise it is the trimmed text with the lines starting with [npm warn]
    removed, and trimmed once more. *)
Theorem execNpm_failure_stderr
    (execAsync : string -> ExecOutcome) (args : list string)
    (otp : option string) (err : ExecError) (raw : string) :
  execAsync (commandLine args otp) = Rejected err ->
  errStderr err = Some raw ->
  let text := trim raw in
  let result := execNpm execAsync args otp in
  (mentions otpPatterns text -> stderr result = otpMessage) /\
  (~ mentions otpPatterns text -> mentions authPatterns text ->
     stderr result = authMessage) /\
  (~ mentions otpPatterns text -> ~ mentions authPatterns text ->
     stderr result = trim (withoutWarnLines text)).
Proof.
  intros Hrun Hraw text result.
  assert (Hres : stderr result =
                 if detectOtpRequired text then otpMessage
                 else if detectAuthFailure text then authMessage
                 else filterNpmWarnings text).
  { unfold result, execNpm. rewrite Hrun. simpl.
    unfold failureText. rewrite Hraw. reflexivity. }
  rewrite Hres. clear Hres.
  pose proof (detectOtpRequired_spec text) as Hotp.
  pose proof (detectAuthFailure_spec text) as Hauth.
  destruct (detectOtpRequired text), (detectAuthFailure text);
    repeat split; intros; try reflexivity;
    try (exfalso; intuition congruence).
Qed.

Lemma execNpm_failure_stderr_witness :
  stderr (execNpm (fun _ => Rejected otpAndLoginFailure)
                  ["owner"; "add"; "alice"; "left-pad"] None) = otpMessage
  /\ detectAuthFailure (failureText otpAndLoginFailure) = true.
Proof.
  split.
  - refine (proj1 (execNpm_failure_stderr (fun _ => Rejected otpAndLoginFailure)
                     ["owner"; "add"; "alice"; "left-pad"] None
                     otpAndLoginFailure _ eq_refl eq_refl) _).
    apply detectOtpRequired_spec. vm_compute. reflexivity.
  - vm_compute. reflexivity.
Defined.

(** C6, as stated, fails: the code trims the diagnostic, so the surfaced text
    is not the raw text with the warning lines removed. *)
Lemma execNpm_failure_stderr_is_trimmed :
  let result := execNpm (fun _ => Rejected indentedFailure)
                        ["team"; "create"; "@acme:core"] None in
  stderr result = "boom"
  /\ claimedFailureStderr indentedDiagnostic = "  boom"
  /\ stderr result <> claimedFailureStderr indentedDiagnostic.
Proof.
  vm_compute. repeat split. discriminate.
Qed.

(** *** More on [filterNpmWarnings] and the command line *)

Lemma filter_all_kept (f : string -> bool) (l : list string) :
  (forall x, In x l -> f x = true) -> List.filter f l = l.
Proof.
  induction l as [|x l IH]; simpl; intros H; [reflexivity|].
  rewrite (H x) by now left. f_equal. apply IH. intros y Hy. apply H. now right.
Qed.

(** X1: A diagnostic none of whose lines starts with [npm warn] is surfaced as
    it is, up to surrounding white space. *)
Theorem filterNpmWarnings_nothing_to_filter (text : string) :
  (forall line : string, In line (splitLines text) -> startsWith line "npm warn" = false) ->
  filterNpmWarnings text = trim text.
Proof.
  intros Hlines. unfold filterNpmWarnings.
  rewrite filter_all_kept.
  - now rewrite join_splitLines.
  - intros line Hin. now rewrite (Hlines line Hin).
Qed.

Lemma filterNpmWarnings_nothing_to_filter_witness :
  filterNpmWarnings ("  E404 not found" +:+ nl +:+ "in registry " +:+ nl)
  = "E404 not found" +:+ nl +:+ "in registry".
Proof.
  rewrite filterNpmWarnings_nothing_to_filter.
  - vm_compute. reflexivity.
  - intros line Hin. vm_compute in Hin.
    repeat (destruct Hin as [<-|Hin]; [vm_compute; reflexivity|]). destruct Hin.
Defined.

(** X2: What [filterNpmWarnings] returns neither starts nor ends with white
    space: trimming it again changes nothing. *)
Theorem filterNpmWarnings_is_trimmed (text : string) :
  trim (filterNpmWarnings text) = filterNpmWarnings text /\
  headKept (filterNpmWarnings text) /\
  forall (t : string) (c : ascii),
    filterNpmWarnings text = t +:+ String c EmptyString -> isWhiteSpace c = false.
Proof.
  unfold filterNpmWarnings. split; [apply trim_idempotent|]. split.
  - apply trimEnd_headKept, trimStart_headKept.
  - intros t c H. unfold trim in H. now apply trimEnd_last in H.
Qed.

Lemma append_assoc (a b c : string) : (a +:+ b) +:+ c = a +:+ (b +:+ c).
Proof.
  induction a as [|x a IH]; [reflexivity|].
  change (String x ((a +:+ b) +:+ c) = String x (a +:+ (b +:+ c))).
  now rewrite IH.
Qed.

Lemma join_snoc (sep x : string) (l : list string) :
  l <> [] -> join sep (l ++ [x]) = join sep l +:+ sep +:+ x.
Proof.
  induction l as [|p l IH]; intros Hl; [congruence|].
  destruct l as [|q l]; [reflexivity|].
  change ((p :: q :: l) ++ [x]) with (p :: ((q :: l) ++ [x])).
  rewrite join_cons by (simpl; discriminate).
  rewrite IH by discriminate.
  rewrite (join_cons sep p (q :: l)) by discriminate.
  now rewrite !append_assoc.
Qed.

(** X3: The OTP goes last on the command line, and only when it is not empty:
    an empty OTP runs the very command that no OTP runs. *)
Theorem commandLine_otp (args : list string) (otp : option string) :
  (truthy otp = false -> commandLine args otp = commandLine args None) /\
  (forall code : string, otp = Some code -> code <> EmptyString ->
     commandLine args otp = commandLine args None +:+ " --otp " +:+ code).
Proof.
  unfold commandLine. split.
  - now intros ->.
  - intros code -> Hcode.
    assert (Ht : truthy (Some code) = true) by (destruct code; [congruence | reflexivity]).
    rewrite Ht. simpl default.
    replace (("npm" :: args) ++ ["--otp"; code])
      with ((("npm" :: args) ++ ["--otp"]) ++ [code])
      by (now rewrite <- List.app_assoc).
    rewrite join_snoc by (simpl; discriminate).
    rewrite join_snoc by discriminate.
    rewrite !append_assoc. reflexivity.
Qed.

Lemma commandLine_otp_witness :
  commandLine ["owner"; "add"; "alice"; "left-pad"] (Some EmptyString)
  = "npm owner add alice left-pad" /\
  commandLine ["owner"; "add"; "alice"; "left-pad"] (Some "123456")
  = "npm owner add alice left-pad --otp 123456".
Proof.
  split.
  - rewrite (proj1 (commandLine_otp _ (Some EmptyString))); reflexivity.
  - rewrite (proj2 (commandLine_otp _ (Some "123456")) "123456" eq_refl);
      [reflexivity | discriminate].
Defined.

End NpmClient.

(** ** server.ts: the operation store and the execution scheduler *)

Module Server.
Import JsString NpmClient.

Inductive OperationStatus :=
| pending
| approved
| running
| completed
| failed.

#[export] Instance OperationStatus_eq_dec : EqDecision OperationStatus.
Proof. solve_decision. Defined.

(** [PendingOperation] of [types.ts], as the handlers of [server.ts] use it.
    [type] is a string: the request body is cast, not validated, and
    [executeOperation] has a [default] branch for unknown verbs.  [params]
    is the object of the declared type [Record<string, string>]; an
    operation created from a body without [params] is outside this model
    (see [executeOperation]). *)
Record PendingOperation := {
  id : string;
  type : string;
  params : gmap string string;
  description : string;
  command : string;
  status : OperationStatus;
  createdAt : Z;
  dependsOn : option string;
  result : option NpmExecResult
}.

(** [op.status = s] *)
Definition setStatus (s : OperationStatus) (op : PendingOperation) : PendingOperation :=
  {| id := id op; type := type op; params := params op;
     description := description op; command := command op;
     status := s; createdAt := createdAt op;
     dependsOn := dependsOn op; result := result op |}.

(** [op.result = r] *)
Definition setResult (r : option NpmExecResult) (op : PendingOperation) : PendingOperation :=
  {| id := id op; type := type op; params := params op;
     description := description op; command := command op;
     status := status op; createdAt := createdAt op;
     dependsOn := dependsOn op; result := r |}.

(** One assignment to the [status] field of an operation: whose it is, what
    the field held and what it holds afterwards.  The model keeps a journal of
    these assignments; the journal is not part of the program's state. *)
Record StatusWrite := {
  writeId : string;
  before : OperationStatus;
  after : OperationStatus
}.

(** [params.key!]: a missing key gives [undefined], which [Array.join] prints
    as the empty string. *)
Definition param (op : PendingOperation) (key : string) : string :=
  default EmptyString (params op !! key).

Definition unknownType (op : PendingOperation) : NpmExecResult :=
  {| stdout := EmptyString;
     stderr := "Unknown operation type: " +:+ type op;
     exitCode := 1;
     requiresOtp := None;
     authFailure := None |}.

(** [executeOperation], for an operation that has its [params].  (Where
    [params] is [undefined], reading a parameter of a known verb throws: the
    promise of the wave rejects and [/execute] answers 500 instead of a
    result list.  The statements about [/execute] below are about calls
    that answer with a result list.) *)
Definition executeOperation (execAsync : string -> ExecOutcome)
    (op : PendingOperation) (otp : option string) : NpmExecResult :=
  let p := param op in
  let ty := type op in
  if String.eqb ty "org:add-user" then
    execNpm execAsync ["org"; "set"; p "org"; p "user"; p "role"] otp
  else if String.eqb ty "org:rm-user" then
    execNpm execAsync ["org"; "rm"; p "org"; p "user"] otp
  else if String.eqb ty "team:create" then
    execNpm execAsync ["team"; "create"; p "scopeTeam"] otp
  else if String.eqb ty "team:destroy" then
    execNpm execAsync ["team"; "destroy"; p "scopeTeam"] otp
  else if String.eqb ty "team:add-user" then
    execNpm execAsync ["team"; "add"; p "scopeTeam"; p "user"] otp
  else if String.eqb ty "team:rm-user" then
    execNpm execAsync ["team"; "rm"; p "scopeTeam"; p "user"] otp
  else if String.eqb ty "access:grant" then
    execNpm execAsync ["access"; "grant"; p "permission"; p "scopeTeam"; p "pkg"] otp
  else if String.eqb ty "access:revoke" then
    execNpm execAsync ["access"; "revoke"; p "scopeTeam"; p "pkg"] otp
  else if String.eqb ty "owner:add" then
    execNpm execAsync ["owner"; "add"; p "user"; p "pkg"] otp
  else if String.eqb ty "owner:rm" then
    execNpm execAsync ["owner"; "rm"; p "user"; p "pkg"] otp
  else unknownType op.

(** [state.operations.filter(op => op.status === s)], as positions of the
    store counted from [from]. *)
Fixpoint positionsWithStatus (s : OperationStatus) (from : nat)
    (operations : list PendingOperation) : list nat :=
  match operations with
  | [] => []
  | op :: rest =>
      if decide (status op = s) then from :: positionsWithStatus s (S from) rest
      else positionsWithStatus s (S from) rest
  end.

Definition has (ids : gset string) (x : string) : bool := bool_decide (x ∈ ids).

(** The result recorded for an operation whose predecessor failed. *)
Definition skippedResult : NpmExecResult :=
  {| stdout := EmptyString;
     stderr := "Skipped: dependency failed";
     exitCode := 1;
     requiresOtp := None;
     authFailure := None |}.

(** The variables of one [/execute] call.  [ops] are the objects of
    [state.operations]; [calls] is the counter of uses of the
    outside world, advanced by each invocation of the Command Executor.  [invoked] and [journal] are kept
    by the model only: the positions handed to the Command Executor with the
    result each call gave, and the assignments to [status]. *)
Record Run := {
  ops : list PendingOperation;
  results : list (string * NpmExecResult);
  otpRequired : bool;
  completedIds : gset string;
  failedIds : gset string;
  calls : nat;
  invoked : list (nat * NpmExecResult);
  journal : list StatusWrite
}.

Definition finalStatus (res : NpmExecResult) : OperationStatus :=
  if (exitCode res =? 0)%Z then completed else failed.

Section Scheduler.

(** The Command Executor: what the [n]-th invocation returns for an operation
    and an optional OTP. *)
Variable executor : nat -> PendingOperation -> option string -> NpmExecResult.

(** The callback of [approvedOps.filter(...)], applied to the object at
    position [i]. *)
Definition readyCallback (i : nat) (r : Run) : bool * Run :=
  match ops r !! i with
  | None => (false, r)
  | Some op =>
      (* Already processed *)
      if has (completedIds r) (id op) || has (failedIds r) (id op) then (false, r)
      (* No dependency - ready *)
      else if negb (truthy (dependsOn op)) then (true, r)
      (* Dependency completed successfully - ready *)
      else if has (completedIds r) (default EmptyString (dependsOn op)) then (true, r)
      (* Dependency failed - skip this one too *)
      else if has (failedIds r) (default EmptyString (dependsOn op)) then
        (false,
         {| ops := <[i := setResult (Some skippedResult) (setStatus failed op)]> (ops r);
            results := results r ++ [(id op, skippedResult)];
            otpRequired := otpRequired r;
            completedIds := completedIds r;
            failedIds := {[id op]} ∪ failedIds r;
            calls := calls r;
            invoked := invoked r;
            journal := journal r ++
              [{| writeId := id op; before := status op; after := failed |}] |})
      (* Dependency still pending - not ready *)
      else (false, r)
  end.

(** [approvedOps.filter(callback)]: the callback runs on each element in
    order, and its effects on the sets are seen by the later elements. *)
Fixpoint filterReady (approvedOps : list nat) (r : Run) : list nat * Run :=
  match approvedOps with
  | [] => ([], r)
  | i :: rest =>
      let '(keep, r1) := readyCallback i r in
      let '(readyOps, r2) := filterReady rest r1 in
      (if keep then i :: readyOps else readyOps, r2)
  end.

(** The part of the [map] callback that runs before its [await]: the
    operation is marked [running] and handed to the Command Executor.  The
    promise is kept with the result it will settle to. *)
Definition dispatch (otp : option string)
    (acc : list (nat * NpmExecResult) * Run) (i : nat)
    : list (nat * NpmExecResult) * Run :=
  let '(promises, r) := acc in
  match ops r !! i with
  | None => acc
  | Some op =>
      let op' := setStatus running op in
      let res := executor (calls r) op' otp in
      (promises ++ [(i, res)],
       {| ops := <[i := op']> (ops r);
          results := results r;
          otpRequired := otpRequired r;
          completedIds := completedIds r;
          failedIds := failedIds r;
          calls := S (calls r);
          invoked := invoked r ++ [(i, res)];
          journal := journal r ++
            [{| writeId := id op; before := status op; after := running |}] |})
  end.

(** The part of the [map] callback that runs after its [await]. *)
Definition settle (r : Run) (promise : nat * NpmExecResult) : Run :=
  let '(i, res) := promise in
  match ops r !! i with
  | None => r
  | Some op =>
      {| ops := <[i := setStatus (finalStatus res) (setResult (Some res) op)]> (ops r);
         results := results r ++ [(id op, res)];
         otpRequired := otpRequired r || flag (requiresOtp res);
         completedIds := if (exitCode res =? 0)%Z then {[id op]} ∪ completedIds r
                         else completedIds r;
         failedIds := if (exitCode res =? 0)%Z then failedIds r
                      else {[id op]} ∪ failedIds r;
         calls := calls r;
         invoked := invoked r;
         journal := journal r ++
           [{| writeId := id op; before := status op; after := finalStatus res |}] |}
  end.

(** One wave: [readyOps.map(async ...)] followed by [await Promise.all].
    All the operations of the wave are dispatched before the first promise
    settles; the promises are settled here in the order of dispatch (the
    order only shows in the order of [results]). *)
Definition runWave (otp : option string) (readyOps : list nat) (r : Run) : Run :=
  let '(promises, r1) := foldl (dispatch otp) ([], r) readyOps in
  foldl settle r1 promises.

(** What one turn of [while (true)] does: leave the loop, or run a wave. *)
Inductive Turn :=
| Break (r : Run)
| Continue (r : Run).

Definition turn (approvedOps : list nat) (otp : option string) (r : Run) : Turn :=
  let '(readyOps, r1) := filterReady approvedOps r in
  match readyOps with
  | [] => Break r1                       (* No more operations to run *)
  | _ :: _ =>
      if otpRequired r1 && negb (truthy otp) then Break r1
      else Continue (runWave otp readyOps r1)
  end.

(** [while (true) { ... }], with a bound on the number of turns: [None] when
    the bound is reached before the loop is left. *)
Fixpoint waveLoop (fuel : nat) (approvedOps : list nat) (otp : option string)
    (r : Run) : option Run :=
  match fuel with
  | O => None
  | S fuel' =>
      match turn approvedOps otp r with
      | Break r1 => Some r1
      | Continue r1 => waveLoop fuel' approvedOps otp r1
      end
  end.

Definition approvedOps (operations : list PendingOperation) : list nat :=
  positionsWithStatus approved 0 operations.

Definition startRun (operations : list PendingOperation) (calls0 : nat)
    (journal0 : list StatusWrite) : Run :=
  {| ops := operations;
     results := [];
     otpRequired := false;
     completedIds := ∅;
     failedIds := ∅;
     calls := calls0;
     invoked := [];
     journal := journal0 |}.

(** The body of the [/execute] handler after the token check, up to the end
    of the loop.  One more turn than there are approved operations is
    enough (see [schedule_returns]). *)
Definition schedule (operations : list PendingOperation) (otp : option string)
    (calls0 : nat) (journal0 : list StatusWrite) : option Run :=
  waveLoop (S (length (approvedOps operations))) (approvedOps operations) otp
           (startRun operations calls0 journal0).

End Scheduler.

(** *** The HTTP surface *)

Record Session := {
  token : string;
  connectedAt : Z;
  npmUser : option string
}.

Record ConnectorState := {
  session : Session;
  operations : list PendingOperation
}.

(** The connector between two requests: its state, the number of uses of the
    outside world so far, and the model's journal of status assignments. *)
Record World := {
  state : ConnectorState;
  tick : nat;
  written : list StatusWrite
}.

(** The body of [POST /operations], as the handler destructures it, with the
    fields of the type it is cast to. *)
Record OperationInput := {
  inputType : string;
  inputParams : gmap string string;
  inputDescription : string;
  inputCommand : string
}.

Inductive ResponseData :=
| DataConnect (user : option string) (connected : Z)
| DataState (user : option string) (operations : list PendingOperation)
| DataOperation (op : PendingOperation)
| DataCreated (created : list PendingOperation)
| DataApproved (count : nat)
| DataExecute (results : list (string * NpmExecResult)) (otpRequired authFailure : bool)
| DataRemoved (count : nat)
| DataJson (value : string)
| DataNone.

(** A response: the envelope [{success: true, data}], the envelope
    [{success: false, error}], or an error thrown with [createError] (or an
    uncaught exception, which h3 answers with status 500). *)
Inductive Response :=
| Success (data : ResponseData)
| Failure (error : string)
| HttpError (statusCode : nat) (message : string).

Inductive Request :=
| PostConnect (bodyToken : option string)
| GetState (auth : option string)
| PostOperations (auth : option string) (body : OperationInput)
| PostOperationsBatch (auth : option string) (body : list OperationInput)
| PostApprove (auth : option string) (queryId : option string)
| PostApproveAll (auth : option string)
| PostRetry (auth : option string) (queryId : option string)
| PostExecute (auth : option string) (otp : option string)
| DeleteOperations (auth : option string) (queryId : option string)
| DeleteOperationsAll (auth : option string)
| GetOrgUsers (auth : option string) (org : option string)
| GetOrgTeams (auth : option string) (org : option string)
| GetTeamUsers (auth : option string) (scopeTeam : option string)
| GetPackageCollaborators (auth : option string) (pkg : option string).

(** The [Authorization] header of a request to a protected endpoint; [None]
    for the handshake, which reads no header. *)
Definition authorization (req : Request) : option (option string) :=
  match req with
  | PostConnect _ => None
  | GetState auth | PostOperations auth _ | PostOperationsBatch auth _
  | PostApprove auth _ | PostApproveAll auth | PostRetry auth _
  | PostExecute auth _ | DeleteOperations auth _ | DeleteOperationsAll auth
  | GetOrgUsers auth _ | GetOrgTeams auth _ | GetTeamUsers auth _
  | GetPackageCollaborators auth _ => Some auth
  end.

(** [state.operations.findIndex(op => op.id === id)]; [id] is [undefined]
    when the query has no such parameter. *)
Fixpoint findIndex (queryId : option string) (operations : list PendingOperation)
    : option nat :=
  match operations with
  | [] => None
  | op :: rest =>
      if decide (Some (id op) = queryId) then Some 0
      else S <$> findIndex queryId rest
  end.

(** [for (const op of pendingOps) op.status = 'approved'], one step. *)
Definition approveAt (acc : list PendingOperation * list StatusWrite) (i : nat)
    : list PendingOperation * list StatusWrite :=
  let '(operations, log) := acc in
  match operations !! i with
  | None => acc
  | Some op =>
      (<[i := setStatus approved op]> operations,
       log ++ [{| writeId := id op; before := status op; after := approved |}])
  end.

Section Connector.

(** The token given to [createConnectorApp]. *)
Variable expectedToken : string.
(** [crypto.randomBytes(8).toString('hex')] *)
Variable randomHex : nat -> string.
(** [Date.now()] *)
Variable dateNow : nat -> Z.
(** The child process started by [execAsync]. *)
Variable execAsync : nat -> string -> ExecOutcome.
(** [JSON.parse]; [None] when it throws. *)
Variable jsonParse : string -> option string.
(** [decodeURIComponent]; [None] when it throws. *)
Variable decodeURIComponent : string -> option string.

Definition createConnectorApp : World :=
  {| state := {| session := {| token := expectedToken; connectedAt := 0; npmUser := None |};
                 operations := [] |};
     tick := 0;
     written := [] |}.

Definition validateToken (authHeader : option string) : bool :=
  if negb (truthy authHeader) then false
  else String.eqb (removeFirst "Bearer " (default EmptyString authHeader)) expectedToken.

Definition unauthorized : Response := HttpError 401 "Unauthorized".

Definition getNpmUser (n : nat) : option string :=
  let result := execNpm (execAsync n) ["whoami"] None in
  if (exitCode result =? 0)%Z && truthy (Some (stdout result))
  then Some (stdout result) else None.

Definition withOperations (w : World) (operations' : list PendingOperation)
    (tick' : nat) (written' : list StatusWrite) : World :=
  {| state := {| session := session (state w); operations := operations' |};
     tick := tick';
     written := written' |}.

Definition connect (bodyToken : option string) (w : World) : Response * World :=
  if decide (bodyToken = Some expectedToken) then
    let user := getNpmUser (tick w) in
    let connected := dateNow (S (tick w)) in
    (Success (DataConnect user connected),
     {| state := {| session := {| token := token (session (state w));
                                  connectedAt := connected;
                                  npmUser := user |};
                    operations := operations (state w) |};
        tick := S (S (tick w));
        written := written w |})
  else (HttpError 401 "Invalid token", w).

Definition getState (w : World) : Response * World :=
  (Success (DataState (npmUser (session (state w))) (operations (state w))), w).

Definition newOperation (n : nat) (input : OperationInput) : PendingOperation :=
  {| id := randomHex n;
     type := inputType input;
     params := inputParams input;
     description := inputDescription input;
     command := inputCommand input;
     status := pending;
     createdAt := dateNow (S n);
     dependsOn := None;
     result := None |}.

Definition postOperations (body : OperationInput) (w : World) : Response * World :=
  let operation := newOperation (tick w) body in
  (Success (DataOperation operation),
   withOperations w (operations (state w) ++ [operation]) (S (S (tick w))) (written w)).

(** The operations that the loop of [/operations/batch] creates, in order. *)
Fixpoint batch (n : nat) (body : list OperationInput) : list PendingOperation :=
  match body with
  | [] => []
  | op :: rest => newOperation n op :: batch (S (S n)) rest
  end.

Definition postOperationsBatch (body : list OperationInput) (w : World)
    : Response * World :=
  let created := batch (tick w) body in
  (Success (DataCreated created),
   withOperations w (operations (state w) ++ created)
                  (tick w + 2 * length body) (written w)).

Definition postApprove (queryId : option string) (w : World) : Response * World :=
  let operations := operations (state w) in
  match findIndex queryId operations with
  | None => (HttpError 404 "Operation not found", w)
  | Some i =>
      match operations !! i with
      | None => (HttpError 404 "Operation not found", w)
      | Some operation =>
          if negb (bool_decide (status operation = pending))
          then (HttpError 400 "Operation is not pending", w)
          else
            let operation' := setStatus approved operation in
            (Success (DataOperation operation'),
             withOperations w (<[i := operation']> operations) (tick w)
               (written w ++ [{| writeId := id operation;
                                 before := status operation;
                                 after := approved |}]))
      end
  end.

Definition postApproveAll (w : World) : Response * World :=
  let pendingOps := positionsWithStatus pending 0 (operations (state w)) in
  let '(operations', written') :=
    foldl approveAt (operations (state w), written w) pendingOps in
  (Success (DataApproved (length pendingOps)),
   withOperations w operations' (tick w) written').

Definition postRetry (queryId : option string) (w : World) : Response * World :=
  let operations := operations (state w) in
  match findIndex queryId operations with
  | None => (HttpError 404 "Operation not found", w)
  | Some i =>
      match operations !! i with
      | None => (HttpError 404 "Operation not found", w)
      | Some operation =>
          if negb (bool_decide (status operation = failed))
          then (HttpError 400 "Only failed operations can be retried", w)
          else
            (* Reset the operation for retry *)
            let operation' := setResult None (setStatus approved operation) in
            (Success (DataOperation operation'),
             withOperations w (<[i := operation']> operations) (tick w)
               (written w ++ [{| writeId := id operation;
                                 before := status operation;
                                 after := approved |}]))
      end
  end.

Definition postExecute (otp : option string) (w : World) : option (Response * World) :=
  match schedule (fun n => executeOperation (execAsync n))
                 (operations (state w)) otp (tick w) (written w) with
  | None => None
  | Some run =>
      (* Check if any operation had an auth failure *)
      let authFailed := existsb (fun r => flag (authFailure r.2)) (results run) in
      Some (Success (DataExecute (results run) (otpRequired run) authFailed),
            withOperations w (ops run) (calls run) (journal run))
  end.

Definition deleteOperations (queryId : option string) (w : World) : Response * World :=
  let operations := operations (state w) in
  match findIndex queryId operations with
  | None => (HttpError 404 "Operation not found", w)
  | Some index =>
      match operations !! index with
      | None => (HttpError 400 "Cannot cancel running operation", w)
      | Some operation =>
          if bool_decide (status operation = running)
          then (HttpError 400 "Cannot cancel running operation", w)
          else (Success DataNone,
                withOperations w (delete index operations) (tick w) (written w))
      end
  end.

Definition deleteOperationsAll (w : World) : Response * World :=
  let operations := operations (state w) in
  let removed := length (List.filter (fun op => negb (bool_decide (status op = running)))
                                     operations) in
  (Success (DataRemoved removed),
   withOperations w (List.filter (fun op => bool_decide (status op = running)) operations)
                  (tick w) (written w)).

(** The common part of the four read-only endpoints, after the route
    parameter has been read: run [npm ... --json] and parse its output. *)
Definition listing (args : list string) (failedMessage parseMessage : string)
    (w : World) : Response * World :=
  let result := execNpm (execAsync (tick w)) args None in
  let w' := withOperations w (operations (state w)) (S (tick w)) (written w) in
  if negb (exitCode result =? 0)%Z then
    (Failure (if truthy (Some (stderr result)) then stderr result else failedMessage), w')
  else match jsonParse (stdout result) with
       | Some value => (Success (DataJson value), w')
       | None => (Failure parseMessage, w')
       end.

Definition getOrgUsers (org : option string) (w : World) : Response * World :=
  if negb (truthy org) then (HttpError 400 "Org name required", w)
  else listing ["org"; "ls"; default EmptyString org; "--json"]
               "Failed to list org users" "Failed to parse org users" w.

Definition getOrgTeams (org : option string) (w : World) : Response * World :=
  if negb (truthy org) then (HttpError 400 "Org name required", w)
  else listing ["team"; "ls"; default EmptyString org; "--json"]
               "Failed to list teams" "Failed to parse teams" w.

Definition getTeamUsers (scopeTeamRaw : option string) (w : World) : Response * World :=
  if negb (truthy scopeTeamRaw) then (HttpError 400 "Team name required", w)
  else match decodeURIComponent (default EmptyString scopeTeamRaw) with
       | None => (HttpError 500 "URI malformed", w)
       | Some scopeTeam =>
           listing ["team"; "ls"; scopeTeam; "--json"]
                   "Failed to list team users" "Failed to parse team users" w
       end.

Definition getPackageCollaborators (pkg : option string) (w : World) : Response * World :=
  if negb (truthy pkg) then (HttpError 400 "Package name required", w)
  else match decodeURIComponent (default EmptyString pkg) with
       | None => (HttpError 500 "URI malformed", w)
       | Some decodedPkg =>
           listing ["access"; "list"; "collaborators"; decodedPkg; "--json"]
                   "Failed to list collaborators" "Failed to parse collaborators" w
       end.

(** Every protected handler starts with the same two lines:
    [const auth = getHeader(event, 'authorization')] and
    [if (!validateToken(auth)) throw createError({ statusCode: 401, ... })]. *)
Definition guarded (auth : option string) (w : World)
    (handler : World -> option (Response * World)) : option (Response * World) :=
  if negb (validateToken auth) then Some (unauthorized, w) else handler w.

(** The router.  [None] stands for a handler that does not return. *)
Definition handle (req : Request) (w : World) : option (Response * World) :=
  match req with
  | PostConnect bodyToken => Some (connect bodyToken w)
  | GetState auth => guarded auth w (fun w => Some (getState w))
  | PostOperations auth body => guarded auth w (fun w => Some (postOperations body w))
  | PostOperationsBatch auth body =>
      guarded auth w (fun w => Some (postOperationsBatch body w))
  | PostApprove auth queryId => guarded auth w (fun w => Some (postApprove queryId w))
  | PostApproveAll auth => guarded auth w (fun w => Some (postApproveAll w))
  | PostRetry auth queryId => guarded auth w (fun w => Some (postRetry queryId w))
  | PostExecute auth otp => guarded auth w (postExecute otp)
  | DeleteOperations auth queryId =>
      guarded auth w (fun w => Some (deleteOperations queryId w))
  | DeleteOperationsAll auth => guarded auth w (fun w => Some (deleteOperationsAll w))
  | GetOrgUsers auth org => guarded auth w (fun w => Some (getOrgUsers org w))
  | GetOrgTeams auth org => guarded auth w (fun w => Some (getOrgTeams org w))
  | GetTeamUsers auth scopeTeam => guarded auth w (fun w => Some (getTeamUsers scopeTeam w))
  | GetPackageCollaborators auth pkg =>
      guarded auth w (fun w => Some (getPackageCollaborators pkg w))
  end.

(** A sequence of requests, handled one after the other. *)
Fixpoint serve (reqs : list Request) (w : World) : option (list Response * World) :=
  match reqs with
  | [] => Some ([], w)
  | req :: rest =>
      match handle req w with
      | None => None
      | Some (response, w1) =>
          match serve rest w1 with
          | None => None
          | Some (responses, w2) => Some (response :: responses, w2)
          end
      end
  end.

End Connector.

(** *** Facts about the scheduler *)

Lemma foldl_step {A B : Type} (f : A -> B -> A) (a : A) (x : B) (l : list B) :
  foldl f a (x :: l) = foldl f (f a x) l.
Proof. reflexivity. Qed.

Lemma has_true (ids : gset string) (x : string) : has ids x = true <-> x ∈ ids.
Proof. unfold has. by rewrite bool_decide_eq_true. Qed.

Lemma has_false (ids : gset string) (x : string) : has ids x = false <-> x ∉ ids.
Proof. unfold has. by rewrite bool_decide_eq_false. Qed.

(** The id found at a position of the store. *)
Definition idAt (r : Run) (i : nat) : option string := id <$> (ops r !! i).

Definition resolved (r : Run) (x : string) : Prop :=
  x ∈ completedIds r ∨ x ∈ failedIds r.

(** A step that keeps the length of the store and the id at every position,
    and only adds to the two sets. *)
Record extends (r r' : Run) : Prop := {
  ext_length : length (ops r') = length (ops r);
  ext_id : forall i, idAt r' i = idAt r i;
  ext_completed : completedIds r ⊆ completedIds r';
  ext_failed : failedIds r ⊆ failedIds r'
}.

Lemma extends_refl (r : Run) : extends r r.
Proof. by split. Qed.

Lemma extends_trans (r1 r2 r3 : Run) : extends r1 r2 -> extends r2 r3 -> extends r1 r3.
Proof.
  intros [L1 I1 C1 F1] [L2 I2 C2 F2]. split.
  - congruence.
  - intros i. by rewrite I2.
  - set_solver.
  - set_solver.
Qed.

Lemma idAt_insert (r : Run) (i j : nat) (op op' : PendingOperation) :
  ops r !! i = Some op -> id op' = id op ->
  id <$> (<[i := op']> (ops r) !! j) = idAt r j.
Proof.
  intros Hi Hid. unfold idAt. destruct (decide (i = j)) as [->|Hne].
  - rewrite list_lookup_insert_eq by (by eapply lookup_lt_Some).
    rewrite Hi. simpl. by rewrite Hid.
  - by rewrite list_lookup_insert_ne.
Qed.

Lemma readyCallback_extends (i : nat) (r : Run) :
  extends r (readyCallback i r).2.
Proof.
  unfold readyCallback. destruct (ops r !! i) as [op|] eqn:Hop; [|apply extends_refl].
  repeat case_match; try apply extends_refl.
  split; simpl.
  - by rewrite length_insert.
  - intros j. by apply (idAt_insert r i j op).
  - done.
  - set_solver.
Qed.

Lemma filterReady_extends (idxs : list nat) (r : Run) :
  extends r (filterReady idxs r).2.
Proof.
  revert r. induction idxs as [|i idxs IH]; intros r; simpl.
  - apply extends_refl.
  - pose proof (readyCallback_extends i r) as H1.
    destruct (readyCallback i r) as [keep r1]. simpl in H1.
    pose proof (IH r1) as H2.
    destruct (filterReady idxs r1) as [readyOps r2]. simpl in *.
    by eapply extends_trans.
Qed.

Lemma settle_extends (r : Run) (promise : nat * NpmExecResult) :
  extends r (settle r promise).
Proof.
  destruct promise as [i res]. unfold settle.
  destruct (ops r !! i) as [op|] eqn:Hop; [|apply extends_refl].
  split; simpl; [by rewrite length_insert | | |].
  - intros j. by apply (idAt_insert r i j op).
  - case_match; set_solver.
  - case_match; set_solver.
Qed.

Lemma settles_extends (promises : list (nat * NpmExecResult)) (r : Run) :
  extends r (foldl settle r promises).
Proof.
  revert r. induction promises as [|p promises IH]; intros r; simpl.
  - apply extends_refl.
  - eapply extends_trans; [apply settle_extends | apply IH].
Qed.

Lemma idAt_Some_lt (r : Run) (i : nat) (x : string) :
  idAt r i = Some x -> i < length (ops r).
Proof.
  unfold idAt. destruct (ops r !! i) eqn:Hi; [|done].
  intros _. by eapply lookup_lt_Some.
Qed.

Lemma settle_resolves (r : Run) (i : nat) (res : NpmExecResult) (x : string) :
  idAt r i = Some x -> resolved (settle r (i, res)) x.
Proof.
  unfold idAt, settle, resolved. destruct (ops r !! i) as [op|]; [|done].
  simpl. intros [= <-]. case_match; set_solver.
Qed.

Lemma resolved_extends (r r' : Run) (x : string) :
  extends r r' -> resolved r x -> resolved r' x.
Proof. intros [_ _ HC HF] [H|H]; [left|right]; set_solver. Qed.

Lemma settles_resolve (promises : list (nat * NpmExecResult)) (r : Run)
    (i : nat) (x : string) :
  i ∈ (fst <$> promises) -> idAt r i = Some x -> resolved (foldl settle r promises) x.
Proof.
  revert r. induction promises as [|[j res] promises IH]; intros r Hin Hx; simpl in *.
  - by apply elem_of_nil in Hin.
  - apply elem_of_cons in Hin as [->|Hin].
    + eapply resolved_extends; [apply settles_extends|]. by apply settle_resolves.
    + apply IH; [done|]. by rewrite (ext_id _ _ (settle_extends r (j, res))).
Qed.

(** An operation that the filter keeps is stored and not yet in the sets. *)
Lemma readyCallback_keep (i : nat) (r : Run) :
  (readyCallback i r).1 = true ->
  exists x, idAt r i = Some x ∧ ¬ resolved r x.
Proof.
  unfold readyCallback, idAt, resolved. destruct (ops r !! i) as [op|]; [|done].
  destruct (has (completedIds r) (id op) || has (failedIds r) (id op)) eqn:Hin; [done|].
  intros _. exists (id op). split; [done|].
  apply orb_false_iff in Hin as [H1 H2].
  apply has_false in H1, H2. tauto.
Qed.

Lemma filterReady_keep (idxs : list nat) (r : Run) (i : nat) :
  i ∈ (filterReady idxs r).1 ->
  i ∈ idxs ∧ exists x, idAt r i = Some x ∧ ¬ resolved r x.
Proof.
  revert r. induction idxs as [|j idxs IH]; intros r; simpl.
  - intros H. by apply elem_of_nil in H.
  - pose proof (readyCallback_keep j r) as Hk.
    pose proof (readyCallback_extends j r) as Hext.
    destruct (readyCallback j r) as [keep r1]. simpl in Hk, Hext.
    specialize (IH r1).
    destruct (filterReady idxs r1) as [readyOps r2]. simpl in *.
    intros Hin.
    assert (Hrest : i ∈ readyOps -> i ∈ j :: idxs ∧
              exists x, idAt r i = Some x ∧ ¬ resolved r x).
    { intros H. destruct (IH H) as [Hi [x [Hx Hnr]]]. split; [by constructor|].
      exists x. rewrite <- (ext_id _ _ Hext). split; [done|].
      intros Hr. apply Hnr. by eapply resolved_extends. }
    destruct keep; [|by apply Hrest].
    apply elem_of_cons in Hin as [->|Hin]; [|by apply Hrest].
    split; [by constructor | by apply Hk].
Qed.

(** The approved operations not yet in the completed or failed set. *)
Definition unresolvedAt (r : Run) (i : nat) : bool :=
  match ops r !! i with
  | Some op => negb (has (completedIds r) (id op) || has (failedIds r) (id op))
  | None => false
  end.

Definition unresolved (idxs : list nat) (r : Run) : list nat :=
  List.filter (unresolvedAt r) idxs.

Lemma unresolvedAt_true (r : Run) (i : nat) :
  unresolvedAt r i = true <-> exists x, idAt r i = Some x ∧ ¬ resolved r x.
Proof.
  unfold unresolvedAt, idAt, resolved. destruct (ops r !! i) as [op|]; simpl.
  - rewrite negb_true_iff, orb_false_iff, !has_false. split.
    + intros [H1 H2]. exists (id op). tauto.
    + intros [x [[= <-] H]]. tauto.
  - split; [done | by intros [x [? _]]].
Qed.

Lemma unresolvedAt_extends (r r' : Run) (i : nat) :
  extends r r' -> unresolvedAt r' i = true -> unresolvedAt r i = true.
Proof.
  intros Hext. rewrite !unresolvedAt_true. intros [x [Hx Hnr]].
  exists x. rewrite <- (ext_id _ _ Hext). split; [done|].
  intros Hr. apply Hnr. by eapply resolved_extends.
Qed.

Lemma filter_length_lt (f g : nat -> bool) (l : list nat) (x : nat) :
  (forall y, g y = true -> f y = true) ->
  x ∈ l -> f x = true -> g x = false ->
  length (List.filter g l) < length (List.filter f l).
Proof.
  intros Himp. induction l as [|y l IH]; intros Hin Hf Hg.
  - by apply elem_of_nil in Hin.
  - assert (Hle : forall l', length (List.filter g l') <= length (List.filter f l')).
    { induction l' as [|z l' IH']; simpl; [lia|].
      specialize (Himp z). destruct (g z), (f z); simpl; try lia.
      all: by specialize (Himp eq_refl). }
    simpl. apply elem_of_cons in Hin as [<-|Hin].
    + rewrite Hf, Hg. simpl. specialize (Hle l). lia.
    + specialize (IH Hin Hf Hg). specialize (Himp y).
      destruct (g y), (f y); simpl; try lia.
      all: by specialize (Himp eq_refl).
Qed.

Section SchedulerFacts.

Variable executor : nat -> PendingOperation -> option string -> NpmExecResult.

Lemma dispatch_extends (otp : option string) (promises : list (nat * NpmExecResult))
    (r : Run) (i : nat) :
  extends r (dispatch executor otp (promises, r) i).2.
Proof.
  unfold dispatch. destruct (ops r !! i) as [op|] eqn:Hop; [|apply extends_refl].
  split; simpl; [by rewrite length_insert | | done | done].
  intros j. by apply (idAt_insert r i j op).
Qed.

Lemma dispatches_extends (otp : option string) (readyOps : list nat)
    (promises : list (nat * NpmExecResult)) (r : Run) :
  extends r (foldl (dispatch executor otp) (promises, r) readyOps).2.
Proof.
  revert promises r. induction readyOps as [|i readyOps IH]; intros promises r.
  - apply extends_refl.
  - rewrite foldl_step. pose proof (dispatch_extends otp promises r i) as H1.
    destruct (dispatch executor otp (promises, r) i) as [promises1 r1].
    eapply extends_trans; [exact H1 | apply IH].
Qed.

Lemma runWave_extends (otp : option string) (readyOps : list nat) (r : Run) :
  extends r (runWave executor otp readyOps r).
Proof.
  unfold runWave.
  pose proof (dispatches_extends otp readyOps [] r) as H1.
  destruct (foldl (dispatch executor otp) ([], r) readyOps) as [promises r1].
  eapply extends_trans; [exact H1 | apply settles_extends].
Qed.

(** Every valid position of the wave gets a promise. *)
Lemma dispatches_promises (otp : option string) (readyOps : list nat)
    (promises : list (nat * NpmExecResult)) (r : Run) (i : nat) :
  i ∈ (fst <$> promises) ∨ (i ∈ readyOps ∧ i < length (ops r)) ->
  i ∈ (fst <$> (foldl (dispatch executor otp) (promises, r) readyOps).1).
Proof.
  revert promises r. induction readyOps as [|j readyOps IH]; intros promises r.
  - intros [H|[H _]]; [done | by apply elem_of_nil in H].
  - rewrite foldl_step. intros H.
    pose proof (dispatch_extends otp promises r j) as Hext.
    assert (Hd : forall op, ops r !! j = Some op ->
              (fst <$> (dispatch executor otp (promises, r) j).1) = (fst <$> promises) ++ [j]).
    { intros op Hop. unfold dispatch. rewrite Hop. simpl. by rewrite fmap_app. }
    assert (Hn : ops r !! j = None -> dispatch executor otp (promises, r) j = (promises, r)).
    { intros Hop. unfold dispatch. by rewrite Hop. }
    destruct (dispatch executor otp (promises, r) j) as [promises1 r1] eqn:Hdisp.
    simpl in *. apply IH. rewrite (ext_length _ _ Hext).
    destruct H as [H|[H Hlt]].
    + left. destruct (ops r !! j) as [op|] eqn:Hop.
      * rewrite (Hd op eq_refl). apply elem_of_app. by left.
      * specialize (Hn eq_refl). by injection Hn as <- <-.
    + apply elem_of_cons in H as [->|H]; [|by right].
      left. destruct (lookup_lt_is_Some_2 (ops r) j Hlt) as [op Hop].
      rewrite (Hd op Hop). apply elem_of_app. right. by apply list_elem_of_singleton.
Qed.

(** After a wave, the id of each of its operations is in one of the sets. *)
Lemma runWave_resolves (otp : option string) (readyOps : list nat) (r : Run)
    (i : nat) (x : string) :
  i ∈ readyOps -> idAt r i = Some x -> resolved (runWave executor otp readyOps r) x.
Proof.
  intros Hin Hx. unfold runWave.
  pose proof (dispatches_extends otp readyOps [] r) as Hext.
  pose proof (dispatches_promises otp readyOps [] r i) as Hp.
  destruct (foldl (dispatch executor otp) ([], r) readyOps) as [promises r1].
  simpl in *. apply (settles_resolve promises r1 i x).
  - apply Hp. right. split; [done|]. by eapply idAt_Some_lt.
  - by rewrite (ext_id _ _ Hext).
Qed.

Lemma turn_extends (idxs : list nat) (otp : option string) (r : Run) :
  match turn executor idxs otp r with
  | Break r' | Continue r' => extends r r'
  end.
Proof.
  unfold turn. pose proof (filterReady_extends idxs r) as H1.
  destruct (filterReady idxs r) as [readyOps r1]. simpl in H1.
  destruct readyOps as [|i readyOps]; [done|].
  destruct (otpRequired r1 && negb (truthy otp)); [done|].
  eapply extends_trans; [exact H1 | apply runWave_extends].
Qed.

Lemma turn_shrinks (idxs : list nat) (otp : option string) (r : Run) :
  match turn executor idxs otp r with
  | Break _ => True
  | Continue r' => length (unresolved idxs r') < length (unresolved idxs r)
  end.
Proof.
  pose proof (turn_extends idxs otp r) as Hext. unfold turn in *.
  pose proof (filterReady_keep idxs r) as Hkeep.
  pose proof (filterReady_extends idxs r) as H1.
  destruct (filterReady idxs r) as [readyOps r1]. simpl in *.
  destruct readyOps as [|i readyOps]; [done|].
  destruct (otpRequired r1 && negb (truthy otp)); [done|].
  destruct (Hkeep i) as [Hin [x [Hx Hnr]]]; [by constructor|].
  apply (filter_length_lt _ _ idxs i).
  - intros y. by apply unresolvedAt_extends.
  - done.
  - apply unresolvedAt_true. by exists x.
  - apply not_true_is_false. rewrite unresolvedAt_true. intros [x' [Hx' Hnr']].
    apply Hnr'. rewrite (ext_id _ _ Hext) in Hx'.
    assert (x' = x) as -> by congruence.
    apply (runWave_resolves otp (i :: readyOps) r1 i x); [by constructor|].
    by rewrite (ext_id _ _ H1).
Qed.

Lemma waveLoop_enough (idxs : list nat) (otp : option string) (fuel : nat) (r : Run) :
  length (unresolved idxs r) < fuel ->
  exists run, forall extra, waveLoop executor (fuel + extra) idxs otp r = Some run.
Proof.
  revert r. induction fuel as [|fuel IH]; intros r Hlt; [lia|].
  simpl. pose proof (turn_shrinks idxs otp r) as Hs.
  destruct (turn executor idxs otp r) as [r'|r'].
  - by exists r'.
  - apply IH. lia.
Qed.

(** The loop of [/execute] ends within its bound, and a larger bound gives
    the same result. *)
Lemma schedule_returns (operations : list PendingOperation) (otp : option string)
    (calls0 : nat) (journal0 : list StatusWrite) :
  exists run : Run,
    schedule executor operations otp calls0 journal0 = Some run ∧
    forall extra : nat,
      waveLoop executor (S (length (approvedOps operations)) + extra)
               (approvedOps operations) otp
               (startRun operations calls0 journal0) = Some run.
Proof.
  destruct (waveLoop_enough (approvedOps operations) otp
              (S (length (approvedOps operations)))
              (startRun operations calls0 journal0)) as [run Hrun].
  { unfold unresolved.
    pose proof (filter_length (unresolvedAt (startRun operations calls0 journal0))
                  (approvedOps operations)). lia. }
  exists run. split; [|done].
  unfold schedule. specialize (Hrun 0). by rewrite Nat.add_0_r in Hrun.
Qed.

End SchedulerFacts.

(** *** The invariant of an [/execute] call *)

(** The edges of the operation state machine. *)
Definition allowedEdge (a b : OperationStatus) : bool :=
  match a, b with
  | pending, approved
  | approved, running
  | running, completed
  | running, failed
  | failed, approved => true
  | _, _ => false
  end.

(** What a dispatched operation looks like once its promise has settled, and
    what a skipped operation looks like. *)
Definition settledOp (res : NpmExecResult) (o : PendingOperation) : PendingOperation :=
  setStatus (finalStatus res) (setResult (Some res) (setStatus running o)).

Definition skippedOp (o : PendingOperation) : PendingOperation :=
  setResult (Some skippedResult) (setStatus failed o).

(** The four stages of a position of the store during a call. *)
Definition untouched (r : Run) (i : nat) (o : PendingOperation) : Prop :=
  ops r !! i = Some o ∧ (i ∉ (fst <$> invoked r)).

Definition inFlight (promises : list (nat * NpmExecResult)) (r : Run)
    (i : nat) (o : PendingOperation) : Prop :=
  status o = approved ∧ ops r !! i = Some (setStatus running o) ∧ i ∈ (fst <$> promises).

Definition settledAt (promises : list (nat * NpmExecResult)) (r : Run)
    (i : nat) (o : PendingOperation) : Prop :=
  status o = approved ∧ (i ∉ (fst <$> promises)) ∧
  exists res, (i, res) ∈ invoked r ∧ ops r !! i = Some (settledOp res o) ∧
    if (exitCode res =? 0)%Z then id o ∈ completedIds r else id o ∈ failedIds r.

Definition skippedAt (r : Run) (i : nat) (o : PendingOperation) : Prop :=
  status o = approved ∧ ops r !! i = Some (skippedOp o) ∧
  (i ∉ (fst <$> invoked r)) ∧ id o ∈ failedIds r.

Lemma skippedOp_ne (o : PendingOperation) : status o = approved -> skippedOp o ≠ o.
Proof. intros Hs Heq. apply (f_equal status) in Heq. simpl in Heq. congruence. Qed.

(** The filter callback leaves everything but the object at its position,
    the failed set, the results and the journal as they are; when it keeps
    the operation it changes nothing. *)
Lemma readyCallback_frame (i : nat) (r : Run) :
  invoked (readyCallback i r).2 = invoked r ∧
  completedIds (readyCallback i r).2 = completedIds r ∧
  otpRequired (readyCallback i r).2 = otpRequired r ∧
  calls (readyCallback i r).2 = calls r ∧
  (forall j, j ≠ i -> ops (readyCallback i r).2 !! j = ops r !! j) ∧
  ((readyCallback i r).1 = true -> (readyCallback i r).2 = r).
Proof.
  unfold readyCallback. destruct (ops r !! i) as [op|]; [|done].
  repeat case_match; simpl; repeat split; try done.
  intros j Hne. by rewrite list_lookup_insert_ne.
Qed.

Lemma filterReady_frame (idxs : list nat) (r : Run) :
  invoked (filterReady idxs r).2 = invoked r ∧
  completedIds (filterReady idxs r).2 = completedIds r ∧
  otpRequired (filterReady idxs r).2 = otpRequired r ∧
  calls (filterReady idxs r).2 = calls r ∧
  (forall j, j ∉ idxs -> ops (filterReady idxs r).2 !! j = ops r !! j).
Proof.
  revert r. induction idxs as [|i idxs IH]; intros r; simpl; [done|].
  destruct (readyCallback_frame i r) as (H1 & H2 & H3 & H4 & H5 & _).
  destruct (readyCallback i r) as [keep r1]. simpl in *.
  destruct (IH r1) as (I1 & I2 & I3 & I4 & I5).
  destruct (filterReady idxs r1) as [readyOps r2]. simpl in *.
  repeat split; try congruence.
  intros j Hj. apply not_elem_of_cons in Hj as [Hne Hj].
  rewrite I5 by done. by apply H5.
Qed.

Lemma untouched_frame (r r' : Run) (i : nat) (o : PendingOperation) :
  ops r' !! i = ops r !! i -> invoked r' = invoked r ->
  untouched r i o -> untouched r' i o.
Proof. unfold untouched. intros -> ->. done. Qed.

(** A position is not among those of a list extended by one entry when it is
    not among those of the list and is not the new one. *)
Lemma not_elem_of_positions_snoc (l : list (nat * NpmExecResult)) (i j : nat)
    (res : NpmExecResult) :
  (j ∉ (fst <$> l)) -> j ≠ i -> (j ∉ (fst <$> (l ++ [(i, res)]))).
Proof.
  intros Hj Hne. rewrite fmap_app. intros H.
  apply elem_of_app in H as [H|H]; [done|].
  by apply list_elem_of_singleton in H.
Qed.

Ltac fresh_position := apply not_elem_of_positions_snoc; [done | try done].

Lemma invoked_result_unique (l : list (nat * NpmExecResult)) (i : nat)
    (res res' : NpmExecResult) :
  NoDup (fst <$> l) -> (i, res) ∈ l -> (i, res') ∈ l -> res = res'.
Proof.
  induction l as [|[j y] l IH]; simpl; intros Hnd H1 H2.
  - by apply elem_of_nil in H1.
  - apply NoDup_cons in Hnd as [Hni Hnd].
    apply elem_of_cons in H1 as [H1|H1]; apply elem_of_cons in H2 as [H2|H2].
    + congruence.
    + injection H1 as -> ->. exfalso. apply Hni.
      apply list_elem_of_fmap. by exists (j, res').
    + injection H2 as -> ->. exfalso. apply Hni.
      apply list_elem_of_fmap. by exists (j, res).
    + by apply IH.
Qed.

(** *** The list of approved positions *)

Lemma elem_of_positionsWithStatus (s : OperationStatus) (from : nat)
    (l : list PendingOperation) (i : nat) :
  i ∈ positionsWithStatus s from l <->
  from <= i ∧ exists o, l !! (i - from) = Some o ∧ status o = s.
Proof.
  revert from. induction l as [|op l IH]; intros from; simpl.
  - split; [intros H; by apply elem_of_nil in H|].
    intros [_ [o [H _]]]. by rewrite lookup_nil in H.
  - assert (Hrest : i ∈ positionsWithStatus s (S from) l <->
              from < i ∧ exists o, (op :: l) !! (i - from) = Some o ∧ status o = s).
    { rewrite IH. split.
      - intros [Hle [o [Ho Hs]]]. split; [lia|]. exists o. split; [|done].
        replace (i - from) with (S (i - S from)) by lia. done.
      - intros [Hlt [o [Ho Hs]]]. split; [lia|]. exists o. split; [|done].
        replace (i - from) with (S (i - S from)) in Ho by lia. done. }
    destruct (decide (status op = s)) as [Hs|Hs].
    + rewrite elem_of_cons, Hrest. split.
      * intros [->|[Hlt H]]; [|split; [lia|done]].
        split; [lia|]. exists op. by rewrite Nat.sub_diag.
      * intros [Hle [o [Ho Hso]]]. destruct (decide (i = from)) as [->|Hne]; [by left|].
        right. split; [lia|]. by exists o.
    + rewrite Hrest. split.
      * intros [Hlt H]. split; [lia|done].
      * intros [Hle [o [Ho Hso]]]. split; [|by exists o].
        destruct (decide (i = from)) as [->|Hne]; [|lia].
        rewrite Nat.sub_diag in Ho. simpl in Ho. congruence.
Qed.

Lemma positionsWithStatus_sorted (s : OperationStatus) (from : nat)
    (l : list PendingOperation) :
  StronglySorted lt (positionsWithStatus s from l).
Proof.
  revert from. induction l as [|op l IH]; intros from; simpl; [constructor|].
  destruct (decide (status op = s)); [|apply IH].
  constructor; [apply IH|]. apply Forall_forall. intros j Hj.
  apply elem_of_positionsWithStatus in Hj. lia.
Qed.

Lemma positionsWithStatus_NoDup (s : OperationStatus) (from : nat)
    (l : list PendingOperation) :
  NoDup (positionsWithStatus s from l).
Proof.
  pose proof (positionsWithStatus_sorted s from l) as H.
  induction H as [|j l' Hs IH Hall]; constructor; [|done].
  intros Hj. rewrite Forall_forall in Hall. specialize (Hall j Hj). lia.
Qed.

Lemma elem_of_approvedOps (l : list PendingOperation) (i : nat) :
  i ∈ approvedOps l <-> exists o, l !! i = Some o ∧ status o = approved.
Proof.
  unfold approvedOps. rewrite elem_of_positionsWithStatus, Nat.sub_0_r.
  split; [by intros [_ H] | intros H; split; [lia | done]].
Qed.

Section Invariant.

Variable executor : nat -> PendingOperation -> option string -> NpmExecResult.

(** The store and the journal when the call starts. *)
Variable orig : list PendingOperation.

Variable journal0 : list StatusWrite.

(** The OTP of the call, and the number of earlier invocations of the
    Command Executor. *)
Variable otp : option string.

Variable calls0 : nat.

Record wave_inv (promises : list (nat * NpmExecResult)) (r : Run) : Prop := {
  inv_stage : forall i o, orig !! i = Some o ->
    untouched r i o ∨ inFlight promises r i o ∨ settledAt promises r i o ∨ skippedAt r i o;
  inv_length : length (ops r) = length orig;
  inv_nodup : NoDup (fst <$> invoked r);
  inv_invoked : forall i res, (i, res) ∈ invoked r -> i < length orig;
  inv_calls : calls r = calls0 + length (invoked r);
  inv_executor : forall k i res, invoked r !! k = Some (i, res) ->
    exists o, orig !! i = Some o ∧ res = executor (calls0 + k) (setStatus running o) otp;
  inv_promises : forall p, p ∈ promises -> p ∈ invoked r;
  inv_otp : otpRequired r = true <->
    exists i res, (i, res) ∈ invoked r ∧ (i ∉ (fst <$> promises)) ∧ flag (requiresOtp res) = true;
  inv_results : forall x res, (x, res) ∈ results r ->
    res = skippedResult ∨ exists i, (i, res) ∈ invoked r ∧ (i ∉ (fst <$> promises));
  inv_completed : forall x, x ∈ completedIds r ->
    exists i o res, orig !! i = Some o ∧ id o = x ∧ (i, res) ∈ invoked r ∧
      exitCode res = 0%Z;
  inv_failed : forall x, x ∈ failedIds r ->
    exists i o, orig !! i = Some o ∧ id o = x ∧
      (skippedAt r i o ∨ exists res, (i, res) ∈ invoked r ∧ exitCode res ≠ 0%Z);
  inv_journal : forall w, w ∈ journal r ->
    w ∈ journal0 ∨ allowedEdge (before w) (after w) = true ∨
    (before w = approved ∧ after w = failed ∧
     exists o, o ∈ orig ∧ truthy (dependsOn o) = true)
}.

Lemma startRun_inv : wave_inv [] (startRun orig calls0 journal0).
Proof.
  split; simpl.
  - intros i o Ho. left. split; [done|]. apply not_elem_of_nil.
  - done.
  - constructor.
  - intros i res H. by apply elem_of_nil in H.
  - lia.
  - intros k i res H. by rewrite lookup_nil in H.
  - done.
  - split; [done|]. intros [i [res [H _]]]. by apply elem_of_nil in H.
  - intros x res H. by apply elem_of_nil in H.
  - intros x H. by apply elem_of_empty in H.
  - intros x H. by apply elem_of_empty in H.
  - intros w H. by left.
Qed.

(** A position whose id is in neither set, between two waves, is untouched. *)
Lemma unresolved_untouched (r : Run) (i : nat) (op o : PendingOperation) :
  wave_inv [] r -> orig !! i = Some o -> ops r !! i = Some op ->
  id op ∉ completedIds r -> id op ∉ failedIds r ->
  untouched r i o ∧ op = o.
Proof.
  intros Hinv Ho Hop Hc Hf.
  destruct (inv_stage _ _ Hinv i o Ho) as [[H1 H2]|[[_ [_ H]]|[[_ [_ [res [_ [H1 H2]]]]]|[_ [H1 [_ H2]]]]]].
  - split; [by split | congruence].
  - by apply elem_of_nil in H.
  - rewrite Hop in H1. injection H1 as ->. simpl in *. by destruct (exitCode res =? 0)%Z.
  - rewrite Hop in H1. injection H1 as ->. done.
Qed.

Lemma readyCallback_inv (i : nat) (r : Run) :
  wave_inv [] r ->
  (forall o, orig !! i = Some o -> status o = approved) ->
  wave_inv [] (readyCallback i r).2.
Proof.
  intros Hinv Happ. unfold readyCallback.
  destruct (ops r !! i) as [op|] eqn:Hop; [|done].
  destruct (has (completedIds r) (id op) || has (failedIds r) (id op)) eqn:Hin; [done|].
  destruct (negb (truthy (dependsOn op))) eqn:Hdep; [done|].
  destruct (has (completedIds r) (default EmptyString (dependsOn op))); [done|].
  destruct (has (failedIds r) (default EmptyString (dependsOn op))) eqn:Hfail; [|done].
  apply orb_false_iff in Hin as [Hc Hf]. apply has_false in Hc, Hf.
  assert (Hlt : i < length orig).
  { rewrite <- (inv_length _ _ Hinv). by eapply lookup_lt_Some. }
  destruct (lookup_lt_is_Some_2 orig i Hlt) as [o Ho].
  destruct (unresolved_untouched r i op o Hinv Ho Hop Hc Hf) as [[_ Hni] ->].
  pose proof (Happ o Ho) as Hso.
  assert (Hnew : skippedAt
    {| ops := <[i:=setResult (Some skippedResult) (setStatus failed o)]> (ops r);
       results := results r ++ [(id o, skippedResult)];
       otpRequired := otpRequired r; completedIds := completedIds r;
       failedIds := {[id o]} ∪ failedIds r; calls := calls r;
       invoked := invoked r;
       journal := journal r ++ [{| writeId := id o; before := status o; after := failed |}] |}
    i o).
  { repeat split; simpl; [done| |done|set_solver].
    apply list_lookup_insert_eq. by eapply lookup_lt_Some. }
  assert (Hkeep : forall j o', orig !! j = Some o' -> skippedAt r j o' -> skippedAt
    {| ops := <[i:=setResult (Some skippedResult) (setStatus failed o)]> (ops r);
       results := results r ++ [(id o, skippedResult)];
       otpRequired := otpRequired r; completedIds := completedIds r;
       failedIds := {[id o]} ∪ failedIds r; calls := calls r;
       invoked := invoked r;
       journal := journal r ++ [{| writeId := id o; before := status o; after := failed |}] |}
    j o').
  { intros j o' Ho' [H1 [H2 [H3 H4]]]. destruct (decide (j = i)) as [->|Hne].
    - assert (o' = o) as -> by congruence. exact Hnew.
    - repeat split; simpl; [done| |done|set_solver].
      by rewrite list_lookup_insert_ne. }
  split; simpl.
  - intros j o' Ho'. destruct (decide (j = i)) as [->|Hne].
    + assert (o' = o) as -> by congruence. by right; right; right.
    + destruct (inv_stage _ _ Hinv j o' Ho') as [[H1 H2]|[H|[[H1 [H2 [res [H3 [H4 H5]]]]]|H]]].
      * left. split; simpl; [by rewrite list_lookup_insert_ne | done].
      * destruct H as [_ [_ H]]. by apply elem_of_nil in H.
      * right; right; left. split; [done|]. split; [done|]. exists res.
        split; [done|]. split; simpl; [by rewrite list_lookup_insert_ne|].
        destruct (exitCode res =? 0)%Z; [done | set_solver].
      * right; right; right. by apply Hkeep.
  - rewrite length_insert. by apply (inv_length _ _ Hinv).
  - by apply (inv_nodup _ _ Hinv).
  - by apply (inv_invoked _ _ Hinv).
  - by apply (inv_calls _ _ Hinv).
  - by apply (inv_executor _ _ Hinv).
  - by apply (inv_promises _ _ Hinv).
  - by apply (inv_otp _ _ Hinv).
  - intros x res Hx. apply elem_of_app in Hx as [Hx|Hx].
    + by apply (inv_results _ _ Hinv x).
    + apply list_elem_of_singleton in Hx. injection Hx as -> ->. by left.
  - by apply (inv_completed _ _ Hinv).
  - intros x Hx. apply elem_of_union in Hx as [Hx|Hx].
    + apply elem_of_singleton in Hx as ->. exists i, o. split; [done|]. split; [done|]. by left.
    + destruct (inv_failed _ _ Hinv x Hx) as [j [o' [Ho' [Hid [H|H]]]]];
        exists j, o'; split; [done| |done|]; split; [done| |done|].
      * left. by apply Hkeep.
      * by right.
  - intros w Hw. apply elem_of_app in Hw as [Hw|Hw].
    + by apply (inv_journal _ _ Hinv).
    + apply list_elem_of_singleton in Hw as ->. simpl. right. right.
      split; [done|]. split; [done|]. exists o. split.
      * apply list_elem_of_lookup. by exists i.
      * by apply negb_false_iff in Hdep.
Qed.

Lemma filterReady_inv (idxs : list nat) (r : Run) :
  wave_inv [] r ->
  (forall i o, i ∈ idxs -> orig !! i = Some o -> status o = approved) ->
  wave_inv [] (filterReady idxs r).2.
Proof.
  revert r. induction idxs as [|i idxs IH]; intros r Hinv Happ; simpl; [done|].
  pose proof (readyCallback_inv i r Hinv) as H1.
  destruct (readyCallback i r) as [keep r1]. simpl in H1.
  specialize (IH r1).
  destruct (filterReady idxs r1) as [readyOps r2]. simpl in *.
  apply IH.
  - apply H1. intros o. apply Happ. by left.
  - intros j o Hj. apply Happ. by right.
Qed.

(** What the filter keeps: positions of the list, each once, untouched so
    far, with no dependency or with one that completed. *)
Lemma readyCallback_ready (i : nat) (r : Run) :
  wave_inv [] r ->
  (readyCallback i r).1 = true ->
  exists o, orig !! i = Some o ∧ untouched r i o ∧
    (truthy (dependsOn o) = false ∨
     default EmptyString (dependsOn o) ∈ completedIds r).
Proof.
  intros Hinv. unfold readyCallback.
  destruct (ops r !! i) as [op|] eqn:Hop; [|done].
  destruct (has (completedIds r) (id op) || has (failedIds r) (id op)) eqn:Hin; [done|].
  apply orb_false_iff in Hin as [Hc Hf]. apply has_false in Hc, Hf.
  assert (Hlt : i < length orig).
  { rewrite <- (inv_length _ _ Hinv). by eapply lookup_lt_Some. }
  destruct (lookup_lt_is_Some_2 orig i Hlt) as [o Ho].
  destruct (unresolved_untouched r i op o Hinv Ho Hop Hc Hf) as [Hu ->].
  destruct (negb (truthy (dependsOn o))) eqn:Hdep.
  { intros _. exists o. apply negb_true_iff in Hdep. auto. }
  destruct (has (completedIds r) (default EmptyString (dependsOn o))) eqn:Hdone.
  { intros _. exists o. apply has_true in Hdone. auto. }
  by destruct (has (failedIds r) (default EmptyString (dependsOn o))).
Qed.

Lemma filterReady_ready (idxs : list nat) (r : Run) :
  wave_inv [] r ->
  (forall i o, i ∈ idxs -> orig !! i = Some o -> status o = approved) ->
  NoDup idxs ->
  NoDup (filterReady idxs r).1 ∧
  forall i, i ∈ (filterReady idxs r).1 ->
    i ∈ idxs ∧
    exists o, orig !! i = Some o ∧ untouched (filterReady idxs r).2 i o ∧
      (truthy (dependsOn o) = false ∨
       default EmptyString (dependsOn o) ∈ completedIds r).
Proof.
  revert r. induction idxs as [|i idxs IH]; intros r Hinv Happ Hnd; simpl.
  { split; [constructor|]. intros i H. by apply elem_of_nil in H. }
  apply NoDup_cons in Hnd as [Hni Hnd].
  pose proof (readyCallback_inv i r Hinv) as Hinv1.
  pose proof (readyCallback_ready i r Hinv) as Hready.
  destruct (readyCallback_frame i r) as (F1 & F2 & _ & _ & _ & F6).
  destruct (readyCallback i r) as [keep r1]. simpl in *.
  assert (Hinv1' : wave_inv [] r1).
  { apply Hinv1. intros o. apply Happ. by left. }
  destruct (IH r1 Hinv1') as [IH1 IH2]; [|done|].
  { intros j o Hj. apply Happ. by right. }
  destruct (filterReady_frame idxs r1) as (G1 & _ & _ & _ & G5).
  destruct (filterReady idxs r1) as [readyOps r2]. simpl in *.
  assert (Hrest : forall j, j ∈ readyOps -> j ∈ i :: idxs ∧
    exists o, orig !! j = Some o ∧ untouched r2 j o ∧
      (truthy (dependsOn o) = false ∨
       default EmptyString (dependsOn o) ∈ completedIds r)).
  { intros j Hj. destruct (IH2 j Hj) as [Hjin [o (Ho & Hu & Hd)]].
    split; [by right|]. exists o. rewrite <- F2. auto. }
  destruct keep; [|by split].
  split.
  - apply NoDup_cons. split; [|done]. intros Hin. apply Hni. by apply IH2.
  - intros j Hj. apply elem_of_cons in Hj as [->|Hj]; [|by apply Hrest].
    split; [by left|]. destruct (Hready eq_refl) as [o (Ho & Hu & Hd)].
    exists o. split; [done|]. split; [|done].
    rewrite (F6 eq_refl) in *.
    apply (untouched_frame r r2); [by apply G5 | done | done].
Qed.

(** Dispatching an untouched approved operation. *)
Lemma dispatch_inv (promises : list (nat * NpmExecResult))
    (r : Run) (i : nat) (o : PendingOperation) :
  wave_inv promises r ->
  orig !! i = Some o -> status o = approved -> untouched r i o ->
  exists res r',
    dispatch executor otp (promises, r) i = (promises ++ [(i, res)], r') ∧
    wave_inv (promises ++ [(i, res)]) r' ∧
    invoked r' = invoked r ++ [(i, res)] ∧
    (forall j, j ≠ i -> ops r' !! j = ops r !! j).
Proof.
  intros Hinv Ho Hso [Hop Hni].
  exists (executor (calls r) (setStatus running o) otp).
  eexists. unfold dispatch. rewrite Hop. split; [reflexivity|].
  set (res := executor (calls r) (setStatus running o) otp).
  assert (Hlt : i < length (ops r)) by (by eapply lookup_lt_Some).
  assert (Hfresh : forall j res', (j, res') ∈ invoked r -> j ≠ i).
  { intros j res' Hj ->. apply Hni. apply list_elem_of_fmap. by exists (i, res'). }
  split; [|split; [done|]]; cycle 1.
  { intros j Hne. simpl. by rewrite list_lookup_insert_ne. }
  split; simpl.
  - intros j o' Ho'. destruct (decide (j = i)) as [->|Hne].
    + assert (o' = o) as -> by congruence. right. left.
      split; [done|]. split; [by apply list_lookup_insert_eq|].
      rewrite fmap_app. apply elem_of_app. right. by apply list_elem_of_singleton.
    + destruct (inv_stage _ _ Hinv j o' Ho') as [[H1 H2]|[(H1 & H2 & H3)|[(H1 & H2 & res' & H3 & H4 & H5)|(H1 & H2 & H3 & H4)]]].
      * left. split; simpl; [by rewrite list_lookup_insert_ne|].
        by fresh_position.
      * right. left. split; [done|]. split; simpl; [by rewrite list_lookup_insert_ne|].
        rewrite fmap_app. apply elem_of_app. by left.
      * right. right. left. split; [done|]. split.
        { by fresh_position. }
        exists res'. split; simpl; [apply elem_of_app; by left|].
        split; [by rewrite list_lookup_insert_ne | done].
      * right. right. right. split; [done|]. split; simpl; [by rewrite list_lookup_insert_ne|].
        split; [|done]. by fresh_position.
  - rewrite length_insert. by apply (inv_length _ _ Hinv).
  - rewrite fmap_app. apply NoDup_app. split; [by apply (inv_nodup _ _ Hinv)|].
    split; [|apply NoDup_singleton].
    intros j Hj Hj'. apply list_elem_of_singleton in Hj' as ->. done.
  - intros j res' Hj. apply elem_of_app in Hj as [Hj|Hj].
    + by apply (inv_invoked _ _ Hinv j res').
    + apply list_elem_of_singleton in Hj. injection Hj as -> ->.
      rewrite <- (inv_length _ _ Hinv). done.
  - rewrite length_app. simpl. rewrite (inv_calls _ _ Hinv). lia.
  - intros k j res' Hk. destruct (decide (k < length (invoked r))) as [Hk'|Hk'].
    + rewrite lookup_app_l in Hk by done. by apply (inv_executor _ _ Hinv).
    + rewrite lookup_app_r in Hk by lia.
      destruct (k - length (invoked r)) as [|n] eqn:Hn; simpl in Hk; [|by rewrite lookup_nil in Hk].
      injection Hk as <- <-. exists o. split; [done|]. unfold res.
      rewrite (inv_calls _ _ Hinv). f_equal. lia.
  - intros p Hp. apply elem_of_app in Hp as [Hp|Hp]; apply elem_of_app; [left|by right].
    by apply (inv_promises _ _ Hinv).
  - rewrite (inv_otp _ _ Hinv). split.
    + intros (j & res' & H1 & H2 & H3). exists j, res'.
      split; [apply elem_of_app; by left|]. split; [|done].
      fresh_position. by apply (Hfresh j res').
    + intros (j & res' & H1 & H2 & H3). exists j, res'.
      rewrite fmap_app in H2. apply not_elem_of_app in H2 as [H2 H2'].
      apply elem_of_app in H1 as [H1|H1]; [done|].
      apply list_elem_of_singleton in H1. injection H1 as -> ->.
      exfalso. apply H2'. by apply list_elem_of_singleton.
  - intros x res' Hx. destruct (inv_results _ _ Hinv x res' Hx) as [H|[j [H1 H2]]]; [by left|].
    right. exists j. split; [apply elem_of_app; by left|].
    fresh_position. by apply (Hfresh j res').
  - intros x Hx. destruct (inv_completed _ _ Hinv x Hx) as (j & o' & res' & H1 & H2 & H3 & H4).
    exists j, o', res'. repeat split; try done. apply elem_of_app; by left.
  - intros x Hx. destruct (inv_failed _ _ Hinv x Hx) as (j & o' & H1 & H2 & H3).
    exists j, o'. split; [done|]. split; [done|].
    destruct H3 as [(S1 & S2 & S3 & S4)|[res' [H3 H4]]].
    + left. assert (j ≠ i) as Hne.
      { intros ->. assert (o' = o) as -> by congruence.
        rewrite Hop in S2. injection S2 as S2. symmetry in S2.
        by apply skippedOp_ne in S2. }
      split; [done|]. split; simpl; [by rewrite list_lookup_insert_ne|].
      split; [|done]. by fresh_position.
    + right. exists res'. split; [apply elem_of_app; by left | done].
  - intros w Hw. apply elem_of_app in Hw as [Hw|Hw].
    + by apply (inv_journal _ _ Hinv).
    + apply list_elem_of_singleton in Hw as ->. simpl. right. left. by rewrite Hso.
Qed.

(** Settling the first promise. *)
Lemma settle_inv (promises : list (nat * NpmExecResult)) (r : Run)
    (i : nat) (res : NpmExecResult) :
  wave_inv ((i, res) :: promises) r ->
  (i ∉ (fst <$> promises)) ->
  wave_inv promises (settle r (i, res)) ∧
  invoked (settle r (i, res)) = invoked r.
Proof.
  intros Hinv Hni.
  assert (Hin : (i, res) ∈ invoked r).
  { apply (inv_promises _ _ Hinv). by left. }
  assert (Hini : i ∈ (fst <$> invoked r)).
  { apply list_elem_of_fmap. by exists (i, res). }
  destruct (lookup_lt_is_Some_2 orig i (inv_invoked _ _ Hinv i res Hin)) as [o Ho].
  assert (Hso : status o = approved ∧ ops r !! i = Some (setStatus running o)).
  { destruct (inv_stage _ _ Hinv i o Ho) as [[_ H]|[(H1 & H2 & _)|[(_ & H & _)|(_ & _ & H & _)]]];
      try done.
    exfalso. apply H. simpl. by left. }
  destruct Hso as [Hso Hop].
  unfold settle. rewrite Hop. split; [|done].
  assert (Hother : forall j, j ∈ (fst <$> invoked r) -> (j ∉ (fst <$> promises)) ->
            j ≠ i -> (j ∉ (fst <$> ((i, res) :: promises)))).
  { intros j _ Hj Hne H. simpl in H. apply elem_of_cons in H as [H|H]; done. }
  split; simpl.
  - intros j o' Ho'. destruct (decide (j = i)) as [->|Hne].
    + assert (o' = o) as -> by congruence. right. right. left.
      split; [done|]. split; [done|]. exists res. split; [done|].
      split; [apply list_lookup_insert_eq; by eapply lookup_lt_Some|].
      destruct (exitCode res =? 0)%Z; apply elem_of_union; left;
        by apply elem_of_singleton.
    + destruct (inv_stage _ _ Hinv j o' Ho') as [[H1 H2]|[(H1 & H2 & H3)|[(H1 & H2 & res' & H3 & H4 & H5)|(H1 & H2 & H3 & H4)]]].
      * left. split; simpl; [by rewrite list_lookup_insert_ne | done].
      * right. left. split; [done|]. split; simpl; [by rewrite list_lookup_insert_ne|].
        simpl in H3. apply elem_of_cons in H3 as [H3|H3]; done.
      * right. right. left. split; [done|]. split.
        { intros H. apply H2. simpl. by right. }
        exists res'. split; [done|]. split; simpl; [by rewrite list_lookup_insert_ne|].
        destruct (exitCode res' =? 0)%Z, (exitCode res =? 0)%Z; set_solver + H5.
      * right. right. right. split; [done|]. split; simpl; [by rewrite list_lookup_insert_ne|].
        split; [done|]. destruct (exitCode res =? 0)%Z; set_solver + H4.
  - rewrite length_insert. by apply (inv_length _ _ Hinv).
  - by apply (inv_nodup _ _ Hinv).
  - by apply (inv_invoked _ _ Hinv).
  - by apply (inv_calls _ _ Hinv).
  - by apply (inv_executor _ _ Hinv).
  - intros p Hp. apply (inv_promises _ _ Hinv). by right.
  - rewrite orb_true_iff, (inv_otp _ _ Hinv). split.
    + intros [(j & res' & H1 & H2 & H3)|H].
      * exists j, res'. split; [done|]. split; [|done].
        intros Hj. apply H2. simpl. by right.
      * by exists i, res.
    + intros (j & res' & H1 & H2 & H3). destruct (decide (j = i)) as [->|Hne].
      * right. by rewrite (invoked_result_unique _ _ _ _ (inv_nodup _ _ Hinv) Hin H1).
      * left. exists j, res'. split; [done|]. split; [|done].
        apply Hother; [|done|done]. apply list_elem_of_fmap. by exists (j, res').
  - intros x res' Hx. apply elem_of_app in Hx as [Hx|Hx].
    + destruct (inv_results _ _ Hinv x res' Hx) as [H|[j [H1 H2]]]; [by left|].
      right. exists j. split; [done|]. intros Hj. apply H2. simpl. by right.
    + apply list_elem_of_singleton in Hx. injection Hx as -> ->. right. by exists i.
  - intros x Hx.
    assert (Hold : x ∈ completedIds r -> exists j o' res', orig !! j = Some o' ∧ id o' = x ∧
              (j, res') ∈ invoked r ∧ exitCode res' = 0%Z) by apply (inv_completed _ _ Hinv).
    destruct (exitCode res =? 0)%Z eqn:Hexit; [|by apply Hold].
    apply elem_of_union in Hx as [Hx|Hx]; [|by apply Hold].
    apply elem_of_singleton in Hx as ->. exists i, o, res.
    repeat split; try done. by apply Z.eqb_eq.
  - intros x Hx.
    assert (Hold : x ∈ failedIds r -> exists j o', orig !! j = Some o' ∧ id o' = x ∧
      (skippedAt (
        {| ops := <[i:=setStatus (finalStatus res) (setResult (Some res) (setStatus running o))]> (ops r);
           results := results r ++ [(id (setStatus running o), res)];
           otpRequired := otpRequired r || flag (requiresOtp res);
           completedIds := if (exitCode res =? 0)%Z then {[id (setStatus running o)]} ∪ completedIds r else completedIds r;
           failedIds := if (exitCode res =? 0)%Z then failedIds r else {[id (setStatus running o)]} ∪ failedIds r;
           calls := calls r; invoked := invoked r;
           journal := journal r ++ [{| writeId := id (setStatus running o);
                                       before := status (setStatus running o);
                                       after := finalStatus res |}] |}) j o'
       ∨ exists res', (j, res') ∈ invoked r ∧ exitCode res' ≠ 0%Z)).
    { intros Hx'. destruct (inv_failed _ _ Hinv x Hx') as (j & o' & H1 & H2 & H3).
      exists j, o'. split; [done|]. split; [done|].
      destruct H3 as [(S1 & S2 & S3 & S4)|H3]; [|by right].
      left. assert (j ≠ i) as Hne by (by intros ->).
      split; [done|]. split; simpl; [by rewrite list_lookup_insert_ne|].
      split; [done|]. destruct (exitCode res =? 0)%Z; set_solver + S4. }
    destruct (exitCode res =? 0)%Z eqn:Hexit; [by apply Hold|].
    apply elem_of_union in Hx as [Hx|Hx]; [|by apply Hold].
    apply elem_of_singleton in Hx as ->. exists i, o.
    split; [done|]. split; [done|]. right. exists res. split; [done|].
    by apply Z.eqb_neq.
  - intros w Hw. apply elem_of_app in Hw as [Hw|Hw].
    + by apply (inv_journal _ _ Hinv).
    + apply list_elem_of_singleton in Hw as ->. simpl. right. left.
      unfold finalStatus. by destruct (exitCode res =? 0)%Z.
Qed.

Lemma settles_inv (promises : list (nat * NpmExecResult)) (r : Run) :
  wave_inv promises r -> NoDup (fst <$> promises) ->
  wave_inv [] (foldl settle r promises) ∧
  invoked (foldl settle r promises) = invoked r.
Proof.
  revert r. induction promises as [|[i res] promises IH]; intros r Hinv Hnd.
  - done.
  - rewrite foldl_step. simpl in Hnd. apply NoDup_cons in Hnd as [Hni Hnd].
    destruct (settle_inv promises r i res Hinv Hni) as [H1 H2].
    destruct (IH _ H1 Hnd) as [H3 H4]. split; [done | congruence].
Qed.

Lemma dispatches_inv (readyOps : list nat)
    (promises : list (nat * NpmExecResult)) (r : Run) :
  wave_inv promises r -> NoDup readyOps ->
  (forall i, i ∈ readyOps ->
     exists o, orig !! i = Some o ∧ status o = approved ∧ untouched r i o) ->
  wave_inv (foldl (dispatch executor otp) (promises, r) readyOps).1
           (foldl (dispatch executor otp) (promises, r) readyOps).2 ∧
  fst <$> (foldl (dispatch executor otp) (promises, r) readyOps).1
    = (fst <$> promises) ++ readyOps ∧
  fst <$> invoked (foldl (dispatch executor otp) (promises, r) readyOps).2
    = (fst <$> invoked r) ++ readyOps.
Proof.
  revert promises r. induction readyOps as [|i readyOps IH]; intros promises r Hinv Hnd Hready.
  - simpl. by rewrite !app_nil_r.
  - rewrite foldl_step. apply NoDup_cons in Hnd as [Hni Hnd].
    destruct (Hready i) as (o & Ho & Hso & Hu); [by left|].
    destruct (dispatch_inv promises r i o Hinv Ho Hso Hu) as (res & r' & Hd & Hinv' & Hinvoked & Hframe).
    rewrite Hd. destruct (IH (promises ++ [(i, res)]) r' Hinv' Hnd) as (H1 & H2 & H3).
    { intros j Hj. destruct (Hready j) as (o' & Ho' & Hso' & [Hu1 Hu2]); [by right|].
      assert (j ≠ i) as Hne by (by intros ->).
      exists o'. split; [done|]. split; [done|]. split; [by rewrite Hframe|].
      rewrite Hinvoked, fmap_app. intros H. apply elem_of_app in H as [H|H]; [done|].
      by apply list_elem_of_singleton in H. }
    split; [done|]. rewrite H2, H3, Hinvoked, !fmap_app. simpl.
    by rewrite <- !app_assoc.
Qed.

(** A wave over untouched approved operations keeps the invariant, and
    hands exactly these operations to the Command Executor. *)
Lemma runWave_inv (readyOps : list nat) (r : Run) :
  wave_inv [] r -> NoDup readyOps ->
  (forall i, i ∈ readyOps ->
     exists o, orig !! i = Some o ∧ status o = approved ∧ untouched r i o) ->
  wave_inv [] (runWave executor otp readyOps r) ∧
  fst <$> invoked (runWave executor otp readyOps r) = (fst <$> invoked r) ++ readyOps.
Proof.
  intros Hinv Hnd Hready. unfold runWave.
  destruct (dispatches_inv readyOps [] r Hinv Hnd Hready) as (H1 & H2 & H3).
  destruct (foldl (dispatch executor otp) ([], r) readyOps) as [promises r1].
  simpl in *. destruct (settles_inv promises r1 H1) as [H4 H5].
  { by rewrite H2. }
  split; [done|]. by rewrite H5.
Qed.

(** *** The loop keeps the invariant *)

Lemma approvedOps_status (i : nat) (o : PendingOperation) :
  i ∈ approvedOps orig -> orig !! i = Some o -> status o = approved.
Proof.
  intros Hi Ho. apply elem_of_approvedOps in Hi as [o' [Ho' Hs]]. congruence.
Qed.

Lemma filterReady_runnable (r : Run) (i : nat) :
  wave_inv [] r ->
  i ∈ (filterReady (approvedOps orig) r).1 ->
  exists o, orig !! i = Some o ∧ status o = approved ∧
            untouched (filterReady (approvedOps orig) r).2 i o.
Proof.
  intros Hinv Hi.
  destruct (filterReady_ready (approvedOps orig) r Hinv approvedOps_status
              (positionsWithStatus_NoDup _ _ _)) as [_ H].
  destruct (H i Hi) as [Hin [o (Ho & Hu & _)]].
  exists o. split; [done|]. split; [|done]. by apply (approvedOps_status i).
Qed.

Lemma turn_inv (r : Run) :
  wave_inv [] r ->
  match turn executor (approvedOps orig) otp r with
  | Break r' | Continue r' => wave_inv [] r'
  end.
Proof.
  intros Hinv. unfold turn.
  pose proof (filterReady_inv (approvedOps orig) r Hinv approvedOps_status) as H1.
  pose proof (filterReady_runnable r) as H2.
  destruct (filterReady_ready (approvedOps orig) r Hinv approvedOps_status
              (positionsWithStatus_NoDup _ _ _)) as [H3 _].
  destruct (filterReady (approvedOps orig) r) as [readyOps r1]. simpl in *.
  destruct readyOps as [|i readyOps]; [done|].
  destruct (otpRequired r1 && negb (truthy otp)); [done|].
  apply runWave_inv; [done|done|]. intros j Hj. by apply H2.
Qed.

Lemma waveLoop_inv (fuel : nat) (r run : Run) :
  wave_inv [] r ->
  waveLoop executor fuel (approvedOps orig) otp r = Some run ->
  wave_inv [] run ∧ extends r run.
Proof.
  revert r. induction fuel as [|fuel IH]; intros r Hinv; simpl; [done|].
  pose proof (turn_inv r Hinv) as H1.
  pose proof (turn_extends executor (approvedOps orig) otp r) as H2.
  destruct (turn executor (approvedOps orig) otp r) as [r'|r'].
  - intros [= <-]. done.
  - intros Hrun. destruct (IH r' H1 Hrun) as [H3 H4].
    split; [done|]. by eapply extends_trans.
Qed.

Lemma schedule_inv (run : Run) :
  schedule executor orig otp calls0 journal0 = Some run -> wave_inv [] run.
Proof.
  unfold schedule. intros H.
  by destruct (waveLoop_inv _ _ _ startRun_inv H).
Qed.

End Invariant.

(** *** Termination of the wave loop (C4) *)

(** C4: whatever the collection holds (dependencies on unknown ids, on
    operations that are not approved, or in a cycle), a turn of the wave loop
    either leaves the loop or strictly shrinks the list of approved
    operations whose id is in neither set; so the loop of [/execute] ends
    within one turn more than there are approved operations, and more turns
    allowed give the same result. *)
Theorem waveLoop_terminates
    (executor : nat -> PendingOperation -> option string -> NpmExecResult)
    (operations : list PendingOperation) (otp : option string)
    (calls0 : nat) (journal0 : list StatusWrite) :
  (forall (idxs : list nat) (r : Run),
     match turn executor idxs otp r with
     | Break _ => True
     | Continue r' => length (unresolved idxs r') < length (unresolved idxs r)
     end) ∧
  exists run : Run,
    schedule executor operations otp calls0 journal0 = Some run ∧
    forall extra : nat,
      waveLoop executor (S (length (approvedOps operations)) + extra)
               (approvedOps operations) otp
               (startRun operations calls0 journal0) = Some run.
Proof.
  split.
  - intros idxs r. apply turn_shrinks.
  - apply schedule_returns.
Qed.

(** *** What a finished call looks like (C5) *)

(** C5: an operation handed to the Command Executor by [/execute] holds the
    result the executor returned, and ends [completed] exactly when that
    result's exit code is 0 (and [failed] otherwise), whatever the result's
    [requiresOtp] and [authFailure] flags are; and a result carrying
    [requiresOtp] sets the [otpRequired] flag of the call, whatever its exit
    code is. *)
Theorem dispatched_status_follows_exit_code
    (executor : nat -> PendingOperation -> option string -> NpmExecResult)
    (operations : list PendingOperation) (otp : option string)
    (calls0 : nat) (journal0 : list StatusWrite)
    (run : Run) (i : nat) (res : NpmExecResult) :
  schedule executor operations otp calls0 journal0 = Some run ->
  (i, res) ∈ invoked run ->
  (exists (k : nat) (o : PendingOperation),
     operations !! i = Some o ∧ status o = approved ∧
     res = executor (calls0 + k) (setStatus running o) otp) ∧
  (exists op : PendingOperation,
     ops run !! i = Some op ∧ result op = Some res ∧
     (status op = completed <-> exitCode res = 0%Z) ∧
     (status op = failed <-> exitCode res ≠ 0%Z)) ∧
  (flag (requiresOtp res) = true -> otpRequired run = true).
Proof.
  intros Hrun Hin.
  pose proof (schedule_inv executor operations journal0 otp calls0 run Hrun) as Hinv.
  destruct (lookup_lt_is_Some_2 operations i (inv_invoked _ _ _ _ _ _ _ Hinv i res Hin))
    as [o Ho].
  assert (Hstage : status o = approved ∧ ops run !! i = Some (settledOp res o)).
  { destruct (inv_stage _ _ _ _ _ _ _ Hinv i o Ho)
      as [[_ H]|[(_ & _ & H)|[(Hs & _ & res' & H1 & H2 & _)|(_ & _ & H & _)]]].
    - exfalso. apply H. apply list_elem_of_fmap. by exists (i, res).
    - by apply elem_of_nil in H.
    - by rewrite (invoked_result_unique _ _ _ _ (inv_nodup _ _ _ _ _ _ _ Hinv) Hin H1).
    - exfalso. apply H. apply list_elem_of_fmap. by exists (i, res). }
  destruct Hstage as [Hso Hop]. split; [|split].
  - apply list_elem_of_lookup in Hin as [k Hk].
    destruct (inv_executor _ _ _ _ _ _ _ Hinv k i res Hk) as [o' [Ho' Hres]].
    exists k, o. assert (o' = o) as -> by congruence. done.
  - exists (settledOp res o). split; [done|]. split; [done|]. simpl.
    unfold finalStatus. destruct (Z.eqb_spec (exitCode res) 0) as [->|Hne]; split; done.
  - intros Hflag. apply (inv_otp _ _ _ _ _ _ _ Hinv). exists i, res.
    split; [done|]. split; [apply not_elem_of_nil | done].
Qed.

(** *** The OTP stall (C1) *)










(** *** Cascading failure (C2) *)

Section Cascade.

Variable executor : nat -> PendingOperation -> option string -> NpmExecResult.
Variable orig : list PendingOperation.
Variable journal0 : list StatusWrite.
Variable otp : option string.
Variable calls0 : nat.

Definition Inv (r : Run) : Prop := wave_inv executor orig journal0 otp calls0 [] r.

(** Ids are unique in the store. *)
Hypothesis unique_ids : NoDup (id <$> orig).

Lemma unique_position (i j : nat) (a b : PendingOperation) :
  orig !! i = Some a -> orig !! j = Some b -> id a = id b -> i = j.
Proof using All.
  intros Ha Hb Hid. apply (NoDup_lookup (id <$> orig) i j (id a) unique_ids).
  - by rewrite list_lookup_fmap, Ha.
  - by rewrite list_lookup_fmap, Hb, Hid.
Qed.

Lemma idAt_orig (r : Run) (i : nat) :
  Inv r -> idAt r i = id <$> (orig !! i).
Proof using All.
  intros Hinv. unfold idAt. destruct (orig !! i) as [o|] eqn:Ho.
  - destruct (inv_stage _ _ _ _ _ _ _ Hinv i o Ho)
      as [[H _]|[(_ & H & _)|[(_ & _ & res & _ & H & _)|(_ & H & _)]]];
      by rewrite H.
  - apply lookup_ge_None in Ho. rewrite <- (inv_length _ _ _ _ _ _ _ Hinv) in Ho.
    apply lookup_ge_None in Ho. by rewrite Ho.
Qed.

Lemma sets_disjoint (r : Run) (x : string) :
  Inv r -> x ∈ failedIds r -> x ∉ completedIds r.
Proof using All.
  intros Hinv Hf Hc.
  destruct (inv_completed _ _ _ _ _ _ _ Hinv x Hc) as (i & o & res & Ho & Hid & Hin & Hexit).
  destruct (inv_failed _ _ _ _ _ _ _ Hinv x Hf) as (j & o' & Ho' & Hid' & H).
  assert (j = i) as -> by (apply (unique_position j i o' o); congruence).
  destruct H as [(_ & _ & Hni & _)|[res' [Hin' Hexit']]].
  - apply Hni. apply list_elem_of_fmap. by exists (i, res).
  - rewrite (invoked_result_unique _ _ _ _ (inv_nodup _ _ _ _ _ _ _ Hinv) Hin Hin') in Hexit.
    done.
Qed.

(** An approved operation found [failed] after the call has its id in the
    failed set. *)
Lemma failed_in_failedIds (r : Run) (i : nat) (o o' : PendingOperation) :
  Inv r -> orig !! i = Some o -> status o = approved ->
  ops r !! i = Some o' -> status o' = failed ->
  id o ∈ failedIds r.
Proof using All.
  intros Hinv Ho Hso Ho' Hso'.
  destruct (inv_stage _ _ _ _ _ _ _ Hinv i o Ho)
    as [[H _]|[(_ & _ & H)|[(_ & _ & res & _ & H & Hset)|(_ & _ & _ & H)]]].
  - congruence.
  - by apply elem_of_nil in H.
  - rewrite Ho' in H. injection H as ->. simpl in Hso'. unfold finalStatus in Hso'.
    by destruct (exitCode res =? 0)%Z.
  - done.
Qed.

(** A position that was never handed to the executor and whose id is in one
    of the sets was skipped. *)
Lemma resolved_not_invoked (r : Run) (i : nat) (o : PendingOperation) :
  Inv r -> orig !! i = Some o -> (i ∉ (fst <$> invoked r)) ->
  (id o ∈ completedIds r ∨ id o ∈ failedIds r) ->
  skippedAt r i o.
Proof using All.
  intros Hinv Ho Hni [Hc|Hf].
  - destruct (inv_completed _ _ _ _ _ _ _ Hinv _ Hc) as (j & o' & res & Ho' & Hid & Hin & _).
    assert (j = i) as -> by (by apply (unique_position j i o' o)).
    exfalso. apply Hni. apply list_elem_of_fmap. by exists (i, res).
  - destruct (inv_failed _ _ _ _ _ _ _ Hinv _ Hf) as (j & o' & Ho' & Hid & H).
    assert (j = i) as -> by (by apply (unique_position j i o' o)).
    assert (o' = o) as -> by congruence.
    destruct H as [H|[res [Hin _]]]; [done|].
    exfalso. apply Hni. apply list_elem_of_fmap. by exists (i, res).
Qed.

Lemma filterReady_split (l1 l2 : list nat) (i : nat) (r : Run) :
  (filterReady (l1 ++ i :: l2) r).2
  = (filterReady l2 (readyCallback i (filterReady l1 r).2).2).2.
Proof using All.
  revert r. induction l1 as [|j l1 IH]; intros r; simpl.
  - destruct (readyCallback i r) as [keep r1]. simpl.
    by destruct (filterReady l2 r1).
  - destruct (readyCallback j r) as [keep r1]. specialize (IH r1).
    destruct (filterReady (l1 ++ i :: l2) r1) as [a r2].
    destruct (filterReady l1 r1) as [b r3]. simpl in *. done.
Qed.

(** An id that a filter pass adds to the failed set is the id of a position
    of the pass. *)
Lemma filterReady_failed_origin (idxs : list nat) (r : Run) (x : string) :
  x ∈ failedIds (filterReady idxs r).2 ->
  x ∈ failedIds r ∨ exists j, j ∈ idxs ∧ idAt r j = Some x.
Proof using All.
  revert r. induction idxs as [|i idxs IH]; intros r; simpl; [by left|].
  pose proof (readyCallback_extends i r) as Hext.
  assert (Hcb : forall y, y ∈ failedIds (readyCallback i r).2 ->
            y ∈ failedIds r ∨ idAt r i = Some y).
  { intros y. unfold readyCallback, idAt.
    destruct (ops r !! i) as [op|]; [|by left].
    repeat case_match; simpl; try (by left).
    intros Hy. apply elem_of_union in Hy as [Hy|Hy]; [|by left].
    apply elem_of_singleton in Hy as ->. by right. }
  destruct (readyCallback i r) as [keep r1]. simpl in *.
  specialize (IH r1). destruct (filterReady idxs r1) as [readyOps r2]. simpl in *.
  intros Hx. destruct (IH Hx) as [H|[j [Hj Hid]]].
  - destruct (Hcb x H) as [H'|H']; [by left|]. right. exists i. split; [by left|done].
  - right. exists j. split; [by right|]. by rewrite <- (ext_id _ _ Hext).
Qed.

(** The dependent operation [B], at position [iB], of the predecessor [A],
    at position [iA], whose id is [d]. *)
Variable iA iB : nat.
Variable A B : PendingOperation.
Variable d : string.
Hypothesis A_stored : orig !! iA = Some A.
Hypothesis A_id : id A = d.
Hypothesis B_stored : orig !! iB = Some B.
Hypothesis B_approved : status B = approved.
Hypothesis B_depends : dependsOn B = Some d.
Hypothesis d_not_empty : d ≠ EmptyString.

Lemma B_truthy : truthy (dependsOn B) = true.
Proof using All. rewrite B_depends. by destruct d. Qed.

(** The filter callback on [B] while [B] is untouched and its predecessor
    has not completed. *)
Lemma readyCallback_dependent (r : Run) :
  Inv r -> untouched r iB B -> d ∉ completedIds r ->
  (readyCallback iB r).1 = false ∧
  (d ∈ failedIds r -> ops (readyCallback iB r).2 !! iB = Some (skippedOp B)) ∧
  (d ∉ failedIds r -> (readyCallback iB r).2 = r).
Proof using All.
  intros Hinv [Hop Hni] Hd. unfold readyCallback. rewrite Hop.
  assert (Hnr : has (completedIds r) (id B) || has (failedIds r) (id B) = false).
  { apply not_true_is_false. intros H. apply orb_true_iff in H.
    rewrite !has_true in H.
    destruct (resolved_not_invoked r iB B Hinv B_stored Hni H) as (_ & H' & _).
    rewrite Hop in H'. injection H' as H'. symmetry in H'.
    by apply skippedOp_ne in H'. }
  rewrite Hnr, B_truthy, B_depends. simpl.
  apply has_false in Hd. rewrite Hd.
  destruct (has (failedIds r) d) eqn:Hf.
  - split; [done|]. split; [|by apply has_true in Hf]. intros _. simpl.
    apply list_lookup_insert_eq. by eapply lookup_lt_Some.
  - split; [done|]. split; [by apply has_false in Hf | done].
Qed.

(** The last filter pass of a call: if the predecessor's id is in the failed
    set afterwards, and the predecessor was handed to the executor or is
    stored before [B], then [B] has been skipped. *)
Lemma final_pass_skips (r : Run) :
  Inv r -> (iB ∉ (fst <$> invoked r)) ->
  (iA ∈ (fst <$> invoked r)) ∨ iA < iB ->
  d ∉ completedIds (filterReady (approvedOps orig) r).2 ->
  d ∈ failedIds (filterReady (approvedOps orig) r).2 ->
  ops (filterReady (approvedOps orig) r).2 !! iB = Some (skippedOp B).
Proof using All.
  intros Hinv Hni Horder Hdc Hdf.
  assert (HiB : iB ∈ approvedOps orig).
  { apply elem_of_approvedOps. by exists B. }
  pose proof (positionsWithStatus_NoDup approved 0 orig) as Hnd.
  pose proof (positionsWithStatus_sorted approved 0 orig) as Hsorted.
  fold (approvedOps orig) in Hnd, Hsorted.
  assert (Happ : forall i o, i ∈ approvedOps orig -> orig !! i = Some o -> status o = approved).
  { intros i o Hi Ho. apply elem_of_approvedOps in Hi as [o' [Ho' Hs]]. congruence. }
  destruct (list_elem_of_split _ _ HiB) as (l1 & l2 & Hsplit).
  rewrite Hsplit in *. rewrite filterReady_split in *.
  apply NoDup_app in Hnd as (_ & Hnd1 & Hnd2).
  apply NoDup_cons in Hnd2 as [HniB2 _].
  assert (Hafter : forall j, j ∈ l2 -> iB < j).
  { intros j Hj. apply StronglySorted_app_1_r in Hsorted.
    apply StronglySorted_cons in Hsorted as [Hall _].
    rewrite Forall_forall in Hall. by apply Hall. }
  set (rpre := (filterReady l1 r).2) in *.
  assert (Hpre : Inv rpre).
  { apply filterReady_inv; [done|]. intros i o Hi. apply Happ.
    apply elem_of_app. by left. }
  destruct (filterReady_frame l1 r) as (F1 & F2 & _ & _ & _).
  fold rpre in F1, F2.
  pose proof (readyCallback_inv executor orig journal0 otp calls0 iB rpre Hpre) as Hc.
  destruct (readyCallback_frame iB rpre) as (G1 & G2 & _ & _ & _ & _).
  set (rc := (readyCallback iB rpre).2) in *.
  assert (Hrc : Inv rc).
  { apply Hc. intros o Ho. assert (o = B) as -> by congruence. done. }
  destruct (filterReady_frame l2 rc) as (K1 & K2 & _ & _ & K5).
  rewrite (K5 iB HniB2).
  assert (HniB : iB ∉ (fst <$> invoked rpre)) by (by rewrite F1).
  destruct (inv_stage _ _ _ _ _ _ _ Hpre iB B B_stored)
    as [Hu|[(_ & _ & H)|[(_ & _ & res & H & _)|Hs]]].
  - assert (Hdc' : d ∉ completedIds rpre) by (by rewrite <- G2, <- K2).
    destruct (readyCallback_dependent rpre Hpre Hu Hdc') as (_ & Hyes & Hno).
    fold rc in Hyes, Hno.
    destruct (decide (d ∈ failedIds rpre)) as [Hin|Hnin]; [by apply Hyes|].
    exfalso. specialize (Hno Hnin).
    destruct (filterReady_failed_origin l2 rc d Hdf) as [H|[j [Hj Hid]]].
    { by rewrite Hno in H. }
    rewrite (idAt_orig rc j Hrc) in Hid.
    destruct (orig !! j) as [o|] eqn:Ho; [|done]. injection Hid as Hid.
    assert (j = iA) as -> by (apply (unique_position j iA o A); congruence).
    destruct Horder as [Hin|Hlt]; [|specialize (Hafter iA Hj); lia].
    rewrite <- F1 in Hin.
    destruct (inv_stage _ _ _ _ _ _ _ Hpre iA A A_stored)
      as [[_ H]|[(_ & _ & H)|[(_ & _ & res & _ & _ & H)|(_ & _ & H & _)]]].
    + done.
    + by apply elem_of_nil in H.
    + rewrite A_id in H. by destruct (exitCode res =? 0)%Z.
    + done.
  - by apply elem_of_nil in H.
  - exfalso. apply HniB. apply list_elem_of_fmap. by exists (iB, res).
  - destruct Hs as (_ & Hop & _ & Hf). unfold rc, readyCallback. rewrite Hop.
    simpl. apply has_true in Hf. rewrite Hf, orb_true_r. done.
Qed.

(** Along the loop [B] is never handed to the executor, and when the loop
    ends with the predecessor's id in the failed set, [B] has been skipped. *)
Lemma loop_skips (fuel : nat) (r run : Run) :
  Inv r -> (iB ∉ (fst <$> invoked r)) ->
  waveLoop executor fuel (approvedOps orig) otp r = Some run ->
  (iA ∈ (fst <$> invoked run)) ∨ iA < iB ->
  d ∈ failedIds run ->
  ops run !! iB = Some (skippedOp B) ∧ (iB ∉ (fst <$> invoked run)).
Proof using All.
  revert r. induction fuel as [|fuel IH]; intros r Hinv Hni Hrun Horder Hdf; [done|].
  simpl in Hrun.
  pose proof (turn_inv executor orig journal0 otp calls0 r Hinv) as Hturn.
  unfold turn in *.
  pose proof (final_pass_skips r Hinv Hni) as Hfinal.
  pose proof (filterReady_inv executor orig journal0 otp calls0
                (approvedOps orig) r Hinv) as Hinv1.
  destruct (filterReady_ready executor orig journal0 otp calls0
              (approvedOps orig) r Hinv) as [Hnd Hready].
  { intros i o Hi Ho. apply elem_of_approvedOps in Hi as [o' [Ho' Hs]]. congruence. }
  { apply positionsWithStatus_NoDup. }
  destruct (filterReady_frame (approvedOps orig) r) as (F1 & F2 & _ & _ & _).
  destruct (filterReady (approvedOps orig) r) as [readyOps r1]. simpl in *.
  assert (Hinv1' : Inv r1).
  { apply Hinv1. intros i o Hi Ho.
    apply elem_of_approvedOps in Hi as [o' [Ho' Hs]]. congruence. }
  assert (Hstop : run = r1 ->
            ops run !! iB = Some (skippedOp B) ∧ (iB ∉ (fst <$> invoked run))).
  { intros ->. split; [|by rewrite F1]. apply Hfinal; [by rewrite <- F1| |done].
    by apply (sets_disjoint r1 d). }
  destruct readyOps as [|i readyOps]; [injection Hrun as <-; by apply Hstop|].
  destruct (otpRequired r1 && negb (truthy otp)); [injection Hrun as <-; by apply Hstop|].
  destruct (runWave_inv executor orig journal0 otp calls0 (i :: readyOps) r1 Hinv1' Hnd)
    as [Hinv2 Hinvoked].
  { intros j Hj. destruct (Hready j Hj) as [Hin [o (Ho & Hu & _)]].
    exists o. split; [done|]. split; [|done].
    apply elem_of_approvedOps in Hin as [o' [Ho' Hs]]. congruence. }
  apply (IH _ Hinv2); [|done|done|done].
  rewrite Hinvoked, F1. intros H. apply elem_of_app in H as [H|H]; [done|].
  destruct (Hready iB H) as [_ [o (Ho & _ & Hd)]].
  assert (o = B) as -> by congruence.
  rewrite B_truthy, B_depends in Hd. simpl in Hd. destruct Hd as [Hd|Hd]; [done|].
  destruct (waveLoop_inv executor orig journal0 otp calls0 _ _ _ Hinv2 Hrun) as [Hinvf Hext].
  apply (sets_disjoint run d Hinvf Hdf).
  apply (ext_completed _ _ Hext).
  pose proof (runWave_extends executor otp (i :: readyOps) r1) as Hext1.
  apply (ext_completed _ _ Hext1). by rewrite F2.
Qed.

End Cascade.

(** One step of the cascade, for a store with unique ids. *)
Lemma cascade_step
    (executor : nat -> PendingOperation -> option string -> NpmExecResult)
    (operations : list PendingOperation) (otp : option string)
    (calls0 : nat) (journal0 : list StatusWrite) (run : Run)
    (iA iB : nat) (A A' B : PendingOperation) :
  schedule executor operations otp calls0 journal0 = Some run ->
  NoDup (id <$> operations) ->
  operations !! iA = Some A -> status A = approved ->
  ops run !! iA = Some A' -> status A' = failed ->
  operations !! iB = Some B -> status B = approved ->
  dependsOn B = Some (id A) -> id A ≠ EmptyString ->
  (iA ∈ (fst <$> invoked run)) ∨ iA < iB ->
  ops run !! iB = Some (skippedOp B) ∧ (iB ∉ (fst <$> invoked run)).
Proof.
  intros Hrun Hnd HA HsA HA' HsA' HB HsB Hdep Hne Horder.
  pose proof (schedule_inv executor operations journal0 otp calls0 run Hrun) as Hinv.
  apply (loop_skips executor operations journal0 otp calls0 Hnd iA iB A B (id A)
           HA eq_refl HB HsB Hdep Hne) with (fuel := S (length (approvedOps operations)))
           (r := startRun operations calls0 journal0).
  - apply startRun_inv.
  - simpl. apply not_elem_of_nil.
  - exact Hrun.
  - exact Horder.
  - by apply (failed_in_failedIds executor operations journal0 otp calls0 Hnd run iA A A').
Qed.

(** C2, as amended: in an [/execute] call on a store with unique ids, let
    [B] be an approved operation whose [dependsOn] is the (non-empty) id of
    an operation [A] that was approved when the call started and is
    [failed] when it returns, where [A] was handed to the Command Executor
    (and failed), or was skipped and is stored before [B].  Then [B] ends
    the call [failed] with the result [{stdout: '', stderr: 'Skipped:
    dependency failed', exitCode: 1}], nothing else of [B] changes, and the
    Command Executor is never invoked for [B].  The same holds in turn for
    every approved operation [C] stored after [B] that depends on [B]. *)
Theorem dependency_failure_cascades
    (executor : nat -> PendingOperation -> option string -> NpmExecResult)
    (operations : list PendingOperation) (otp : option string)
    (calls0 : nat) (journal0 : list StatusWrite) (run : Run)
    (iA iB : nat) (A A' B : PendingOperation) :
  schedule executor operations otp calls0 journal0 = Some run ->
  NoDup (id <$> operations) ->
  operations !! iA = Some A -> status A = approved ->
  ops run !! iA = Some A' -> status A' = failed ->
  operations !! iB = Some B -> status B = approved ->
  dependsOn B = Some (id A) -> id A ≠ EmptyString ->
  (iA ∈ (fst <$> invoked run)) ∨ iA < iB ->
  (exists B' : PendingOperation,
     ops run !! iB = Some B' ∧ status B' = failed ∧
     result B' = Some skippedResult ∧ B' = skippedOp B) ∧
  (iB ∉ (fst <$> invoked run)) ∧
  (forall (iC : nat) (C : PendingOperation),
     operations !! iC = Some C -> status C = approved ->
     dependsOn C = Some (id B) -> id B ≠ EmptyString -> iB < iC ->
     (exists C' : PendingOperation,
        ops run !! iC = Some C' ∧ status C' = failed ∧
        result C' = Some skippedResult ∧ C' = skippedOp C) ∧
     (iC ∉ (fst <$> invoked run))).
Proof.
  intros Hrun Hnd HA HsA HA' HsA' HB HsB Hdep Hne Horder.
  destruct (cascade_step executor operations otp calls0 journal0 run iA iB A A' B)
    as [HB' HnB]; try done.
  split; [by exists (skippedOp B)|]. split; [done|].
  intros iC C HC HsC HdepC HneC HltC.
  destruct (cascade_step executor operations otp calls0 journal0 run iB iC B (skippedOp B) C)
    as [HC' HnC]; try done; [by right|].
  split; [by exists (skippedOp C) | done].
Qed.

(** *** Sample stores and executors *)

Definition sampleOperation (name : string) (s : OperationStatus)
    (dependency : option string) : PendingOperation :=
  {| id := name;
     type := "team:create";
     params := {[ "scopeTeam" := "@acme:" +:+ name ]};
     description := "Create team " +:+ name;
     command := "npm team create @acme:" +:+ name;
     status := s;
     createdAt := 0;
     dependsOn := dependency;
     result := None |}.

Definition failure (text : string) (otpNeeded : bool) : NpmExecResult :=
  {| stdout := EmptyString; stderr := text; exitCode := 1;
     requiresOtp := Some otpNeeded; authFailure := Some false |}.

Definition success : NpmExecResult :=
  {| stdout := "ok"; stderr := EmptyString; exitCode := 0;
     requiresOtp := None; authFailure := None |}.

(** An executor under which every command fails with a plain error. *)
Definition alwaysFails (n : nat) (op : PendingOperation) (otp : option string)
    : NpmExecResult :=
  failure "boom" false.

(** An executor that asks for an OTP for operation [a], unless one is given,
    and succeeds for the others. *)
Definition otpForA (n : nat) (op : PendingOperation) (otp : option string)
    : NpmExecResult :=
  if String.eqb (id op) "a" && negb (truthy otp)
  then failure otpMessage true else success.

(** An executor whose results carry [requiresOtp] together with exit code 0. *)
Definition flaggedSuccess (n : nat) (op : PendingOperation) (otp : option string)
    : NpmExecResult :=
  {| stdout := "ok"; stderr := EmptyString; exitCode := 0;
     requiresOtp := Some true; authFailure := Some true |}.

(** [a], then [b] that depends on [a], then [c] that depends on [b]. *)
Definition chainStore : list PendingOperation :=
  [ sampleOperation "a" approved None;
    sampleOperation "b" approved (Some "a");
    sampleOperation "c" approved (Some "b") ].

(** The same operations, with [c] stored before the operation it depends
    on. *)
Definition forwardStore : list PendingOperation :=
  [ sampleOperation "a" approved None;
    sampleOperation "c" approved (Some "b");
    sampleOperation "b" approved (Some "a") ].

(** [a] failed in an earlier call and was not retried; [b] depends on it. *)
Definition staleStore : list PendingOperation :=
  [ setResult (Some (failure "boom" false)) (sampleOperation "a" failed None);
    sampleOperation "b" approved (Some "a") ].

(** [a] and [d] have no dependency, [c] depends on [d]. *)
Definition twoWaveStore : list PendingOperation :=
  [ sampleOperation "a" approved None;
    sampleOperation "d" approved None;
    sampleOperation "c" approved (Some "d") ].

(** [b] depends on [a] and is stored before it; [c] depends on [b]. *)
Definition reverseStore : list PendingOperation :=
  [ sampleOperation "b" approved (Some "a");
    sampleOperation "a" approved None;
    sampleOperation "c" approved (Some "b") ].

Definition statuses (run : Run) : list (string * OperationStatus) :=
  (fun op => (id op, status op)) <$> ops run.

Lemma dependency_failure_cascades_witness :
  exists run : Run,
    schedule alwaysFails reverseStore None 0 [] = Some run ∧
    (exists B' : PendingOperation,
       ops run !! 0 = Some B' ∧ status B' = failed ∧
       result B' = Some skippedResult ∧
       B' = skippedOp (sampleOperation "b" approved (Some "a"))) ∧
    (0 ∉ (fst <$> invoked run)) ∧
    (forall (iC : nat) (C : PendingOperation),
       reverseStore !! iC = Some C -> status C = approved ->
       dependsOn C = Some "b" -> "b" ≠ EmptyString -> 0 < iC ->
       (exists C' : PendingOperation,
          ops run !! iC = Some C' ∧ status C' = failed ∧
          result C' = Some skippedResult ∧ C' = skippedOp C) ∧
       (iC ∉ (fst <$> invoked run))).
Proof.
  destruct (schedule alwaysFails reverseStore None 0 []) as [run|] eqn:Hrun;
    [|by vm_compute in Hrun].
  exists run. split; [done|].
  pose proof Hrun as Hnf. vm_compute in Hnf. injection Hnf as <-.
  apply (dependency_failure_cascades alwaysFails reverseStore None 0 [] _ 1 0
           (sampleOperation "a" approved None)
           (settledOp (failure "boom" false) (sampleOperation "a" approved None))
           (sampleOperation "b" approved (Some "a")) Hrun).
  - apply (bool_decide_unpack _). by vm_compute.
  - reflexivity.
  - reflexivity.
  - reflexivity.
  - reflexivity.
  - reflexivity.
  - reflexivity.
  - reflexivity.
  - discriminate.
  - left. apply (bool_decide_unpack _). by vm_compute.
Defined.

(** C2, as stated, fails.  In [forwardStore], [c] depends on [b] and [b]
    ends the call [failed], but [c], which is stored before [b], is still
    [approved] when the call returns.  In [staleStore], [b] depends on [a],
    whose status is [failed] from an earlier call, and [b] is still
    [approved] when the call returns. *)
Lemma forward_dependency_is_not_skipped :
  (exists run : Run,
     schedule alwaysFails forwardStore None 0 [] = Some run ∧
     statuses run = [("a", failed); ("c", approved); ("b", failed)] ∧
     dependsOn <$> forwardStore !! 1 = Some (Some "b")) ∧
  (exists run : Run,
     schedule alwaysFails staleStore None 0 [] = Some run ∧
     statuses run = [("a", failed); ("b", approved)] ∧
     dependsOn <$> staleStore !! 1 = Some (Some "a")).
Proof.
  split.
  - destruct (schedule alwaysFails forwardStore None 0 []) as [run|] eqn:Hrun;
      [|by vm_compute in Hrun].
    exists run. split; [done|].
    vm_compute in Hrun. injection Hrun as <-. split; by vm_compute.
  - destruct (schedule alwaysFails staleStore None 0 []) as [run|] eqn:Hrun;
      [|by vm_compute in Hrun].
    exists run. split; [done|].
    vm_compute in Hrun. injection Hrun as <-. split; by vm_compute.
Qed.

(** *** The token check (C7) *)



(** X4: The usual header, [Bearer <value>], is accepted exactly when the value
    is the token. *)
Lemma validateToken_bearer (expectedToken value : string) :
  validateToken expectedToken (Some ("Bearer " +:+ value)) = true <->
  value = expectedToken.
Proof.
  unfold validateToken.
  change (default EmptyString (Some ("Bearer " +:+ value))) with ("Bearer " +:+ value).
  rewrite removeFirst_prefix. simpl. apply String.eqb_eq.
Qed.

Section ConnectorFacts.

Variable expectedToken : string.
Variable randomHex : nat -> string.
Variable dateNow : nat -> Z.
Variable execAsync : nat -> string -> ExecOutcome.
Variable jsonParse : string -> option string.
Variable decodeURIComponent : string -> option string.


Lemma guarded_accepts (auth : option string) (w : World)
    (handler : World -> option (Response * World)) :
  validateToken expectedToken auth = true ->
  guarded expectedToken auth w handler = handler w.
Proof. unfold guarded. by intros ->. Qed.

End ConnectorFacts.


(** *** Looking an operation up by id *)

Lemma findIndex_Some (queryId : option string) (l : list PendingOperation) (i : nat) :
  findIndex queryId l = Some i ->
  exists op, l !! i = Some op ∧ queryId = Some (id op).
Proof.
  revert i. induction l as [|op l IH]; intros i; simpl; [done|].
  destruct (decide (Some (id op) = queryId)) as [Heq|Hne].
  - intros [= <-]. by exists op.
  - destruct (findIndex queryId l) as [j|]; [|done]. simpl.
    intros [= <-]. by apply IH.
Qed.

Lemma findIndex_None (queryId : option string) (l : list PendingOperation) :
  findIndex queryId l = None <->
  forall op, op ∈ l -> queryId ≠ Some (id op).
Proof.
  induction l as [|op l IH]; simpl.
  - split; [|done]. intros _ op H. by apply elem_of_nil in H.
  - destruct (decide (Some (id op) = queryId)) as [Heq|Hne].
    + split; [done|]. intros H. exfalso. apply (H op); [by left | done].
    + destruct (findIndex queryId l) as [j|]; simpl.
      * split; [done|]. intros H.
        assert (Hnone : Some j = None); [|done].
        apply IH. intros op' Hop'. apply H. by right.
      * split; [|done]. intros _ op' Hop'.
        apply elem_of_cons in Hop' as [->|Hop']; [done|].
        by apply IH.
Qed.

(** With unique ids, the operation with the id is the one found. *)
Lemma findIndex_unique (queryId : option string) (l : list PendingOperation)
    (i : nat) (op : PendingOperation) :
  NoDup (id <$> l) -> l !! i = Some op -> queryId = Some (id op) ->
  findIndex queryId l = Some i.
Proof.
  revert i. induction l as [|op0 l IH]; intros i Hnd Hop Hq; [done|].
  simpl in *. apply NoDup_cons in Hnd as [Hni Hnd].
  destruct i as [|i]; simpl in Hop.
  - injection Hop as ->. by rewrite decide_True.
  - rewrite decide_False.
    + by rewrite (IH i Hnd Hop Hq).
    + intros Heq. apply Hni. apply list_elem_of_fmap. exists op.
      split; [congruence|]. apply list_elem_of_lookup. by exists i.
Qed.

(** *** Retry (C8) *)

(** C8: for a [/retry] request that passes the token check, on a store with
    unique ids.  If the id is that of a stored operation in status [failed],
    the response carries the operation with status [approved] and no result,
    and the store differs from the old one in exactly that object, whose
    other fields are unchanged.  If the id is that of a stored operation in
    any other status, the response is the 400 error and nothing changes.  If
    no stored operation has the id, the response is the 404 error and
    nothing changes. *)
Theorem retry_resets_failed_only
    (expectedToken : string) (randomHex : nat -> string) (dateNow : nat -> Z)
    (execAsync : nat -> string -> ExecOutcome)
    (jsonParse decodeURIComponent : string -> option string)
    (auth queryId : option string) (w : World) :
  validateToken expectedToken auth = true ->
  NoDup (id <$> operations (state w)) ->
  exists (response : Response) (w' : World),
    handle expectedToken randomHex dateNow execAsync jsonParse decodeURIComponent
           (PostRetry auth queryId) w = Some (response, w') ∧
    (forall (i : nat) (op : PendingOperation),
       operations (state w) !! i = Some op -> queryId = Some (id op) ->
       status op = failed ->
       let op' := {| id := id op; type := type op; params := params op;
                     description := description op; command := command op;
                     status := approved; createdAt := createdAt op;
                     dependsOn := dependsOn op; result := None |} in
       response = Success (DataOperation op') ∧
       operations (state w') = <[i := op']> (operations (state w)) ∧
       session (state w') = session (state w)) ∧
    (forall (i : nat) (op : PendingOperation),
       operations (state w) !! i = Some op -> queryId = Some (id op) ->
       status op ≠ failed ->
       response = HttpError 400 "Only failed operations can be retried" ∧ w' = w) ∧
    ((forall op : PendingOperation,
        op ∈ operations (state w) -> queryId ≠ Some (id op)) ->
     response = HttpError 404 "Operation not found" ∧ w' = w).
Proof.
  intros Hauth Hnd. simpl. rewrite guarded_accepts by done.
  destruct (postRetry queryId w) as [response w'] eqn:Hretry.
  exists response, w'. split; [done|].
  unfold postRetry in Hretry.
  destruct (findIndex queryId (operations (state w))) as [j|] eqn:Hfind.
  - destruct (findIndex_Some _ _ _ Hfind) as [found [Hfound Hq]].
    rewrite Hfound in Hretry.
    assert (Hsame : forall i op, operations (state w) !! i = Some op ->
              queryId = Some (id op) -> i = j ∧ op = found).
    { intros i op Hop Hqo.
      pose proof (findIndex_unique queryId _ i op Hnd Hop Hqo) as H.
      rewrite Hfind in H. injection H as ->. split; [done | congruence]. }
    split; [|split].
    + intros i op Hop Hqo Hs. destruct (Hsame i op Hop Hqo) as [-> ->].
      rewrite bool_decide_eq_true_2 in Hretry by done. simpl in Hretry.
      by injection Hretry as <- <-.
    + intros i op Hop Hqo Hs. destruct (Hsame i op Hop Hqo) as [-> ->].
      rewrite bool_decide_eq_false_2 in Hretry by done. simpl in Hretry.
      by injection Hretry as <- <-.
    + intros Hnone. exfalso. apply (Hnone found); [|done].
      apply list_elem_of_lookup. by exists j.
  - injection Hretry as <- <-. split; [|split].
    + intros i op Hop Hqo. exfalso.
      apply (proj1 (findIndex_None _ _) Hfind op); [|done].
      apply list_elem_of_lookup. by exists i.
    + intros i op Hop Hqo. exfalso.
      apply (proj1 (findIndex_None _ _) Hfind op); [|done].
      apply list_elem_of_lookup. by exists i.
    + done.
Qed.

(** *** The operation state machine (C3) *)

(** What every sequence of requests keeps: no stored operation has a
    dependency, and every status assignment so far follows an edge of the
    state machine. *)
Definition orderly (w : World) : Prop :=
  (forall op, op ∈ operations (state w) -> dependsOn op = None) ∧
  (forall e, e ∈ written w -> allowedEdge (before e) (after e) = true).

Lemma approveAll_orderly (positions : list nat) (l : list PendingOperation)
    (log : list StatusWrite) :
  NoDup positions ->
  (forall i, i ∈ positions -> exists op, l !! i = Some op ∧ status op = pending) ->
  (forall op, op ∈ l -> dependsOn op = None) ->
  (forall e, e ∈ log -> allowedEdge (before e) (after e) = true) ->
  (forall op, op ∈ (foldl approveAt (l, log) positions).1 -> dependsOn op = None) ∧
  (forall e, e ∈ (foldl approveAt (l, log) positions).2 ->
     allowedEdge (before e) (after e) = true).
Proof.
  revert l log. induction positions as [|i positions IH]; intros l log Hnd Hpos Hdep Hlog.
  - done.
  - rewrite foldl_step. apply NoDup_cons in Hnd as [Hni Hnd].
    destruct (Hpos i) as [op [Hop Hs]]; [by left|].
    assert (Hstep : approveAt (l, log) i
              = (<[i := setStatus approved op]> l,
                 log ++ [{| writeId := id op; before := status op; after := approved |}])).
    { unfold approveAt. by rewrite Hop. }
    rewrite Hstep. apply IH; [done| | |].
    + intros j Hj. destruct (Hpos j) as [op' [Hop' Hs']]; [by right|].
      exists op'. split; [|done]. rewrite list_lookup_insert_ne; [done|].
      by intros ->.
    + intros op' Hin. apply list_elem_of_lookup in Hin as [j Hj].
      destruct (decide (i = j)) as [->|Hne].
      * rewrite list_lookup_insert_eq in Hj by (by eapply lookup_lt_Some).
        injection Hj as <-. simpl. apply Hdep. apply list_elem_of_lookup. by exists j.
      * rewrite list_lookup_insert_ne in Hj by done.
        apply Hdep. apply list_elem_of_lookup. by exists j.
    + intros e He. apply elem_of_app in He as [He|He]; [by apply Hlog|].
      apply list_elem_of_singleton in He as ->. simpl. by rewrite Hs.
Qed.

Lemma batch_no_dependency (randomHex : nat -> string) (dateNow : nat -> Z)
    (n : nat) (body : list OperationInput) (op : PendingOperation) :
  op ∈ batch randomHex dateNow n body -> dependsOn op = None.
Proof.
  revert n. induction body as [|input body IH]; intros n; simpl.
  - intros H. by apply elem_of_nil in H.
  - intros H. apply elem_of_cons in H as [->|H]; [done | by eapply IH].
Qed.

Lemma insert_no_dependency (l : list PendingOperation) (i : nat)
    (op op' : PendingOperation) :
  l !! i = Some op -> dependsOn op' = dependsOn op ->
  (forall o, o ∈ l -> dependsOn o = None) ->
  forall o, o ∈ <[i := op']> l -> dependsOn o = None.
Proof.
  intros Hop Hdep Hall o Hin. apply list_elem_of_lookup in Hin as [j Hj].
  destruct (decide (i = j)) as [->|Hne].
  - rewrite list_lookup_insert_eq in Hj by (by eapply lookup_lt_Some).
    injection Hj as <-. rewrite Hdep. apply Hall. apply list_elem_of_lookup. by exists j.
  - rewrite list_lookup_insert_ne in Hj by done.
    apply Hall. apply list_elem_of_lookup. by exists j.
Qed.

(** The objects of a finished call keep the dependency they had. *)
Lemma run_keeps_dependsOn
    (executor : nat -> PendingOperation -> option string -> NpmExecResult)
    (orig : list PendingOperation) (journal0 : list StatusWrite)
    (otp : option string) (calls0 : nat) (r : Run) (op : PendingOperation) :
  wave_inv executor orig journal0 otp calls0 [] r ->
  op ∈ ops r -> exists o, o ∈ orig ∧ dependsOn op = dependsOn o.
Proof.
  intros Hinv Hin. apply list_elem_of_lookup in Hin as [i Hi].
  assert (Hlt : i < length orig).
  { rewrite <- (inv_length _ _ _ _ _ _ _ Hinv). by eapply lookup_lt_Some. }
  destruct (lookup_lt_is_Some_2 orig i Hlt) as [o Ho].
  exists o. split; [apply list_elem_of_lookup; by exists i|].
  destruct (inv_stage _ _ _ _ _ _ _ Hinv i o Ho)
    as [[H _]|[(_ & H & _)|[(_ & _ & res & _ & H & _)|(_ & H & _)]]];
    rewrite Hi in H; by injection H as ->.
Qed.

Section StateMachine.

Variable expectedToken : string.
Variable randomHex : nat -> string.
Variable dateNow : nat -> Z.
Variable execAsync : nat -> string -> ExecOutcome.
Variable jsonParse : string -> option string.
Variable decodeURIComponent : string -> option string.

Lemma listing_orderly (args : list string) (failedMessage parseMessage : string)
    (w : World) :
  orderly w -> orderly (listing execAsync jsonParse args failedMessage parseMessage w).2.
Proof.
  intros Hw. unfold listing. repeat case_match; simpl; exact Hw.
Qed.

(** What [/execute] answers and leaves behind, in terms of the finished
    run of the scheduler. *)
Lemma postExecute_run (otp : option string) (w : World) (run : Run) :
  schedule (fun n => executeOperation (execAsync n))
           (operations (state w)) otp (tick w) (written w) = Some run ->
  postExecute execAsync otp w
  = Some (Success (DataExecute (results run) (otpRequired run)
                     (existsb (fun r => flag (authFailure r.2)) (results run))),
          withOperations w (ops run) (calls run) (journal run)).
Proof. unfold postExecute. by intros ->. Qed.

Lemma postExecute_orderly (otp : option string) (w : World) :
  orderly w ->
  exists (response : Response) (w' : World),
    postExecute execAsync otp w = Some (response, w') ∧ orderly w'.
Proof.
  intros [Hdep Hlog]. unfold postExecute.
  destruct (schedule_returns (fun n => executeOperation (execAsync n))
              (operations (state w)) otp (tick w) (written w)) as [run [Hrun _]].
  rewrite Hrun. eexists _, _. split; [reflexivity|].
  pose proof (schedule_inv _ _ _ _ _ _ Hrun) as Hinv.
  split; simpl.
  - intros op Hop. destruct (run_keeps_dependsOn _ _ _ _ _ _ _ Hinv Hop) as [o [Ho ->]].
    by apply Hdep.
  - intros e He. destruct (inv_journal _ _ _ _ _ _ _ Hinv e He) as [H|[H|(_ & _ & o & Ho & Ht)]].
    + by apply Hlog.
    + done.
    + rewrite (Hdep o Ho) in Ht. done.
Qed.

Lemma handle_orderly (req : Request) (w : World) :
  orderly w ->
  exists (response : Response) (w' : World),
    handle expectedToken randomHex dateNow execAsync jsonParse decodeURIComponent req w
    = Some (response, w') ∧ orderly w'.
Proof.
  intros Hw.
  assert (Hguard : forall auth (handler : World -> option (Response * World)),
            (exists response w', handler w = Some (response, w') ∧ orderly w') ->
            exists response w',
              guarded expectedToken auth w handler = Some (response, w') ∧ orderly w').
  { intros auth handler H. unfold guarded.
    destruct (validateToken expectedToken auth); simpl; [done|]. by exists unauthorized, w. }
  assert (Hpure : forall (f : World -> Response * World),
            orderly (f w).2 ->
            exists response w', Some (f w) = Some (response, w') ∧ orderly w').
  { intros f H. exists (f w).1, (f w).2. split; [by destruct (f w) | done]. }
  destruct Hw as [Hdep Hlog].
  destruct req; simpl; try (apply Hguard); try (apply Hpure).
  - (* /connect *)
    unfold connect. case_match; simpl; by split.
  - (* /state *)
    by split.
  - (* /operations *)
    split; simpl; [|done]. intros op Hop.
    apply elem_of_app in Hop as [Hop|Hop]; [by apply Hdep|].
    by apply list_elem_of_singleton in Hop as ->.
  - (* /operations/batch *)
    split; simpl; [|done]. intros op Hop.
    apply elem_of_app in Hop as [Hop|Hop]; [by apply Hdep|].
    by eapply batch_no_dependency.
  - (* /approve *)
    unfold postApprove.
    destruct (findIndex queryId (operations (state w))) as [i|]; [|by split].
    destruct (operations (state w) !! i) as [op|] eqn:Hop; [|by split].
    destruct (bool_decide (status op = pending)) eqn:Hs; simpl; [|by split].
    apply bool_decide_eq_true in Hs. split; simpl.
    + by apply (insert_no_dependency _ i op).
    + intros e He. apply elem_of_app in He as [He|He]; [by apply Hlog|].
      apply list_elem_of_singleton in He as ->. simpl. by rewrite Hs.
  - (* /approve-all *)
    unfold postApproveAll.
    destruct (approveAll_orderly (positionsWithStatus pending 0 (operations (state w)))
                (operations (state w)) (written w)) as [H1 H2]; try done.
    { apply positionsWithStatus_NoDup. }
    { intros i Hi. apply elem_of_positionsWithStatus in Hi as [_ H].
      by rewrite Nat.sub_0_r in H. }
    destruct (foldl approveAt (operations (state w), written w)
                (positionsWithStatus pending 0 (operations (state w)))) as [l log].
    by split.
  - (* /retry *)
    unfold postRetry.
    destruct (findIndex queryId (operations (state w))) as [i|]; [|by split].
    destruct (operations (state w) !! i) as [op|] eqn:Hop; [|by split].
    destruct (bool_decide (status op = failed)) eqn:Hs; simpl; [|by split].
    apply bool_decide_eq_true in Hs. split; simpl.
    + by apply (insert_no_dependency _ i op).
    + intros e He. apply elem_of_app in He as [He|He]; [by apply Hlog|].
      apply list_elem_of_singleton in He as ->. simpl. by rewrite Hs.
  - (* /execute *)
    by apply postExecute_orderly.
  - (* DELETE /operations *)
    unfold deleteOperations.
    destruct (findIndex queryId (operations (state w))) as [i|]; [|by split].
    destruct (operations (state w) !! i) as [op|] eqn:Hop; [|by split].
    destruct (bool_decide (status op = running)); simpl; [by split|].
    split; simpl; [|done]. intros o Ho. apply Hdep.
    by eapply list_elem_of_delete_inv.
  - (* DELETE /operations/all *)
    split; simpl; [|done]. intros o Ho. apply Hdep.
    apply list_elem_of_In, List.filter_In in Ho as [Ho _]. by apply list_elem_of_In.
  - (* /org/:org/users *)
    unfold getOrgUsers. case_match; [by split|]. by apply listing_orderly.
  - (* /org/:org/teams *)
    unfold getOrgTeams. case_match; [by split|]. by apply listing_orderly.
  - (* /team/:scopeTeam/users *)
    unfold getTeamUsers. repeat case_match; try (by split). by apply listing_orderly.
  - (* /package/:pkg/collaborators *)
    unfold getPackageCollaborators. repeat case_match; try (by split).
    by apply listing_orderly.
Qed.

Lemma serve_orderly (reqs : list Request) (w : World) :
  orderly w ->
  exists (responses : list Response) (w' : World),
    serve expectedToken randomHex dateNow execAsync jsonParse decodeURIComponent reqs w
    = Some (responses, w') ∧ orderly w'.
Proof.
  revert w. induction reqs as [|req reqs IH]; intros w Hw; simpl.
  - by exists [], w.
  - destruct (handle_orderly req w Hw) as (response & w1 & -> & Hw1).
    destruct (IH w1 Hw1) as (responses & w2 & -> & Hw2).
    by exists (response :: responses), w2.
Qed.

End StateMachine.

(** C3: whatever requests the connector handles after it starts (create,
    approve, approve-all, retry, execute, delete, and the others), every
    request is answered, and every assignment to the status of an operation
    follows one of the edges [pending -> approved], [approved -> running],
    [running -> completed], [running -> failed], [failed -> approved]. *)
Theorem status_changes_follow_the_state_machine
    (expectedToken : string) (randomHex : nat -> string) (dateNow : nat -> Z)
    (execAsync : nat -> string -> ExecOutcome)
    (jsonParse decodeURIComponent : string -> option string)
    (reqs : list Request) :
  exists (responses : list Response) (w : World),
    serve expectedToken randomHex dateNow execAsync jsonParse decodeURIComponent
          reqs (createConnectorApp expectedToken)
    = Some (responses, w) ∧
    forall e : StatusWrite, e ∈ written w ->
      (before e = pending ∧ after e = approved) ∨
      (before e = approved ∧ after e = running) ∨
      (before e = running ∧ after e = completed) ∨
      (before e = running ∧ after e = failed) ∨
      (before e = failed ∧ after e = approved).
Proof.
  destruct (serve_orderly expectedToken randomHex dateNow execAsync jsonParse
              decodeURIComponent reqs (createConnectorApp expectedToken))
    as (responses & w & Hserve & [_ Hlog]).
  { split; simpl; intros x H; by apply elem_of_nil in H. }
  exists responses, w. split; [done|].
  intros e He. specialize (Hlog e He).
  destruct (before e), (after e); simpl in Hlog; try discriminate; tauto.
Qed.

(** *** Sample runs *)

Definition sampleRandomHex (n : nat) : string :=
  "op" +:+ String (ascii_of_nat (48 + n)) EmptyString.

Definition sampleDateNow (n : nat) : Z := 1700000000000 + Z.of_nat n.

(** An [npm] that asks for an OTP when the command line has none. *)
Definition otpGuardedNpm (n : nat) (commandLine : string) : ExecOutcome :=
  if includes commandLine "--otp" then Resolved "ok" EmptyString
  else Rejected {| errStdout := Some EmptyString;
                   errStderr := Some ("npm error code EOTP" +:+ nl);
                   errCode := Some 1%Z;
                   errText := "Error: Command failed" |}.

Definition sampleHandle : Request -> World -> option (Response * World) :=
  handle "secret" sampleRandomHex sampleDateNow otpGuardedNpm Some Some.

Definition sampleServe : list Request -> World -> option (list Response * World) :=
  serve "secret" sampleRandomHex sampleDateNow otpGuardedNpm Some Some.

Definition bearer : option string := Some "Bearer secret".

Definition createTeam (name : string) : OperationInput :=
  {| inputType := "team:create";
     inputParams := {[ "scopeTeam" := name ]};
     inputDescription := "Create team " +:+ name;
     inputCommand := "npm team create " +:+ name |}.

(** A store with a failed and a pending operation. *)
Definition retryWorld : World :=
  {| state := {| session := {| token := "secret"; connectedAt := 0; npmUser := Some "alice" |};
                 operations :=
                   [ setResult (Some (failure "boom" false)) (sampleOperation "a" failed None);
                     sampleOperation "b" pending None ] |};
     tick := 4;
     written := [] |}.




(** On a store that holds dependencies (which no request creates), the skip
    of a dependent assigns [failed] to an [approved] operation directly. *)
Lemma skip_assigns_failed_to_approved :
  exists run : Run,
    schedule alwaysFails chainStore None 0 [] = Some run ∧
    journal run =
      [ {| writeId := "a"; before := approved; after := running |};
        {| writeId := "a"; before := running; after := failed |};
        {| writeId := "b"; before := approved; after := failed |};
        {| writeId := "c"; before := approved; after := failed |} ].
Proof.
  eexists. split; by vm_compute.
Qed.

Lemma cyclic_dependencies_stay_approved :
  exists run : Run,
    schedule alwaysFails
      [ sampleOperation "a" approved (Some "b");
        sampleOperation "b" approved (Some "a");
        sampleOperation "c" approved (Some "unknown") ] None 0 [] = Some run ∧
    statuses run = [("a", approved); ("b", approved); ("c", approved)] ∧
    invoked run = [].
Proof.
  eexists. split; [by vm_compute|]. by vm_compute.
Qed.

Lemma dispatched_status_follows_exit_code_witness :
  exists run : Run,
    schedule flaggedSuccess [sampleOperation "a" approved None] None 0 [] = Some run ∧
    (exists op : PendingOperation,
       ops run !! 0 = Some op ∧ result op = Some (flaggedSuccess 0 op None) ∧
       (status op = completed <-> exitCode (flaggedSuccess 0 op None) = 0%Z) ∧
       (status op = failed <-> exitCode (flaggedSuccess 0 op None) ≠ 0%Z)) ∧
    otpRequired run = true.
Proof.
  destruct (schedule flaggedSuccess [sampleOperation "a" approved None] None 0 [])
    as [run|] eqn:Hrun; [|by vm_compute in Hrun].
  exists run. split; [done|].
  pose proof Hrun as Hnf. vm_compute in Hnf. injection Hnf as <-.
  destruct (dispatched_status_follows_exit_code flaggedSuccess
              [sampleOperation "a" approved None] None 0 [] _ 0
              (flaggedSuccess 0 (sampleOperation "a" approved None) None) Hrun)
    as (_ & Hop & Hotp).
  - by left.
  - split; [exact Hop | by apply Hotp].
Defined.






Lemma retry_resets_failed_only_witness :
  exists (response : Response) (w' : World),
    sampleHandle (PostRetry bearer (Some "a")) retryWorld = Some (response, w') ∧
    response = Success (DataOperation (sampleOperation "a" approved None)) ∧
    operations (state w') =
      [sampleOperation "a" approved None; sampleOperation "b" pending None] ∧
    session (state w') = session (state retryWorld).
Proof.
  destruct (retry_resets_failed_only "secret" sampleRandomHex sampleDateNow
              otpGuardedNpm Some Some bearer (Some "a") retryWorld)
    as (response & w' & Hhandle & Hfailed & _ & _).
  - reflexivity.
  - apply (bool_decide_unpack _). by vm_compute.
  - exists response, w'. split; [exact Hhandle|].
    apply (Hfailed 0 (setResult (Some (failure "boom" false))
                        (sampleOperation "a" failed None))); reflexivity.
Defined.

(** The scenario of the specification: an operation that needs an OTP fails
    in a call without OTP, is retried, and completes in a call with one. *)
Lemma otp_retry_scenario :
  exists (responses : list Response) (w : World),
    sampleServe
      [ PostOperations bearer (createTeam "@acme:core");
        PostApproveAll bearer;
        PostExecute bearer None;
        PostRetry bearer (Some "op0");
        PostExecute bearer (Some "123456") ]
      (createConnectorApp "secret") = Some (responses, w) ∧
    (fun op => (id op, status op)) <$> operations (state w) = [("op0", completed)] ∧
    (fun e => (before e, after e)) <$> written w =
      [ (pending, approved); (approved, running); (running, failed);
        (failed, approved); (approved, running); (running, completed) ] ∧
    responses !! 2 =
      Some (Success (DataExecute
              [("op0", {| stdout := EmptyString; stderr := otpMessage; exitCode := 1;
                          requiresOtp := Some true; authFailure := Some false |})]
              true false)).
Proof.
  eexists _, _. split; [by vm_compute|]. split; [by vm_compute|]. split; by vm_compute.
Qed.

(** ** Further properties of the connector *)

(** *** The identity query and the executor *)

Lemma truthy_Some (s : string) : truthy (Some s) = true <-> s ≠ EmptyString.
Proof. destruct s; simpl; split; congruence. Qed.

(** X5: [getNpmUser] gives a user exactly when [npm whoami] ends with exit code
    0 (resolved, or rejected with code 0) and prints something else than
    white space; the user is the trimmed output, and is never empty. *)
Theorem getNpmUser_spec (execAsync : nat -> string -> ExecOutcome) (n : nat)
    (user : string) :
  getNpmUser execAsync n = Some user <->
  user ≠ EmptyString ∧
  ((exists out err : string,
      execAsync n "npm whoami" = Resolved out err ∧ trim out = user) ∨
   (exists (e : ExecError) (out : string),
      execAsync n "npm whoami" = Rejected e ∧ errCode e = Some 0%Z ∧
      errStdout e = Some out ∧ trim out = user)).
Proof.
  unfold getNpmUser, execNpm.
  change (commandLine ["whoami"] None) with "npm whoami".
  destruct (execAsync n "npm whoami") as [out err|e]; simpl.
  - destruct (trim out) as [|c t] eqn:Ht; simpl.
    + split; [done|].
      intros [Hu [(o & e' & [= <- <-] & <-)|(e' & o & H & _)]]; [|done].
      by rewrite Ht in Hu.
    + split.
      * intros [= <-]. split; [done|]. left. by exists out, err.
      * intros [_ [(o & e' & [= <- <-] & <-)|(e' & o & H & _)]]; [|done].
        by rewrite Ht.
  - destruct (errCode e) as [code|] eqn:Hcode; simpl.
    + destruct (Z.eqb_spec code 0) as [->|Hne]; simpl.
      * destruct (errStdout e) as [o|] eqn:Hout; simpl.
        -- destruct (trim o) as [|c t] eqn:Ht; simpl.
           ++ split; [done|].
              intros [Hu [(o' & e' & H & _)|(e' & o' & [= <-] & _ & Ho & <-)]]; [done|].
              assert (o' = o) as -> by congruence. by rewrite Ht in Hu.
           ++ split.
              ** intros [= <-]. split; [done|]. right. by exists e, o.
              ** intros [_ [(o' & e' & H & _)|(e' & o' & [= <-] & _ & Ho & <-)]]; [done|].
                 assert (o' = o) as -> by congruence. by rewrite Ht.
        -- split; [done|].
           intros [Hu [(o' & e' & H & _)|(e' & o' & [= <-] & _ & Ho & _)]]; congruence.
      * split; [done|].
        intros [Hu [(o' & e' & H & _)|(e' & o' & [= <-] & Hc & _)]]; congruence.
    + split; [done|].
      intros [Hu [(o' & e' & H & _)|(e' & o' & [= <-] & Hc & _)]]; congruence.
Qed.

(** The verbs that [executeOperation] knows. *)
Definition knownTypes : list string :=
  [ "org:add-user"; "org:rm-user"; "team:create"; "team:destroy";
    "team:add-user"; "team:rm-user"; "access:grant"; "access:revoke";
    "owner:add"; "owner:rm" ].

(** X6: For an operation of an unknown type no command is run: whatever [npm]
    would answer, the result is the failure [Unknown operation type: ...]
    with exit code 1 and no flag, so that [/execute] marks the operation
    [failed]. *)
Theorem executeOperation_unknown_type (execAsync : string -> ExecOutcome)
    (op : PendingOperation) (otp : option string) :
  type op ∉ knownTypes ->
  executeOperation execAsync op otp =
    {| stdout := EmptyString;
       stderr := "Unknown operation type: " +:+ type op;
       exitCode := 1;
       requiresOtp := None;
       authFailure := None |} ∧
  finalStatus (executeOperation execAsync op otp) = failed.
Proof.
  intros Hnot.
  assert (Heq : executeOperation execAsync op otp = unknownType op).
  { unfold executeOperation.
    repeat match goal with
    | |- context [String.eqb (type op) ?v] =>
        destruct (String.eqb_spec (type op) v) as [Hv|_];
        [exfalso; apply Hnot; rewrite Hv; unfold knownTypes;
         repeat (first [apply list_elem_of_here | apply list_elem_of_further]) |]
    end. reflexivity. }
  rewrite Heq. done.
Qed.

Lemma executeOperation_unknown_type_witness :
  stderr (executeOperation (fun _ => Resolved "ok" EmptyString)
            (setStatus running
               {| id := "x"; type := "team:rename"; params := ∅;
                  description := EmptyString; command := EmptyString;
                  status := approved; createdAt := 0; dependsOn := None;
                  result := None |}) None)
  = "Unknown operation type: team:rename".
Proof.
  refine (f_equal stderr (proj1 (executeOperation_unknown_type _ _ _ _))).
  apply (bool_decide_unpack _). by vm_compute.
Defined.


(** *** The token check, once more *)

Lemma removeFirst_absent (pattern s : string) :
  includes s pattern = false -> removeFirst pattern s = s.
Proof.
  induction s as [|c s IH]; simpl.
  - rewrite orb_false_r. by intros ->.
  - intros H. apply orb_false_iff in H as [-> H]. by rewrite IH.
Qed.

(** X7: The bare token, without [Bearer ] in front, passes the check too (when
    it is not empty and does not itself contain [Bearer ]); an absent or
    empty header never passes, whatever the token is. *)
Theorem validateToken_bare_token (expectedToken : string) :
  (expectedToken ≠ EmptyString -> includes expectedToken "Bearer " = false ->
   validateToken expectedToken (Some expectedToken) = true) ∧
  validateToken expectedToken None = false ∧
  validateToken expectedToken (Some EmptyString) = false.
Proof.
  split; [|done]. intros Hne Hnot. unfold validateToken.
  rewrite (proj2 (truthy_Some expectedToken) Hne). simpl.
  rewrite removeFirst_absent by done. apply String.eqb_refl.
Qed.

(** *** What the handlers keep *)

Section Handlers.

Variable expectedToken : string.
Variable randomHex : nat -> string.
Variable dateNow : nat -> Z.
Variable execAsync : nat -> string -> ExecOutcome.
Variable jsonParse : string -> option string.
Variable decodeURIComponent : string -> option string.

Lemma withOperations_same (w : World) :
  withOperations w (operations (state w)) (tick w) (written w) = w.
Proof. by destruct w as [[ses0 ops0] tick0 log0]. Qed.

Lemma listing_state (args : list string) (failedMessage parseMessage : string)
    (w : World) :
  state (listing execAsync jsonParse args failedMessage parseMessage w).2 = state w ∧
  written (listing execAsync jsonParse args failedMessage parseMessage w).2 = written w.
Proof.
  unfold listing. repeat case_match; simpl; by destruct w as [[ses0 ops0] tick0 log0].
Qed.

(** X8: Every request is answered, and no request but the handshake changes the
    session; the handshake itself never changes the token, and with a wrong
    token in its body it answers 401 and changes nothing at all. *)
Theorem session_changes_only_on_connect (req : Request) (w : World) :
  exists (response : Response) (w' : World),
    handle expectedToken randomHex dateNow execAsync jsonParse decodeURIComponent req w
    = Some (response, w') ∧
    token (session (state w')) = token (session (state w)) ∧
    (authorization req ≠ None -> session (state w') = session (state w)) ∧
    (forall bodyToken : option string,
       req = PostConnect bodyToken -> bodyToken ≠ Some expectedToken ->
       response = HttpError 401 "Invalid token" ∧ w' = w).
Proof.
  assert (Hguard : forall auth (handler : World -> option (Response * World)),
            (exists response w', handler w = Some (response, w') ∧
               session (state w') = session (state w)) ->
            exists response w',
              guarded expectedToken auth w handler = Some (response, w') ∧
              token (session (state w')) = token (session (state w)) ∧
              (Some auth ≠ None -> session (state w') = session (state w)) ∧
              (forall bodyToken : option string,
                 False -> bodyToken ≠ Some expectedToken ->
                 response = HttpError 401 "Invalid token" ∧ w' = w)).
  { intros auth handler (response & w' & Hh & Hs). unfold guarded.
    destruct (validateToken expectedToken auth); simpl.
    - exists response, w'. rewrite Hs. by repeat split.
    - exists unauthorized, w. by repeat split. }
  assert (Hpure : forall (f : World -> Response * World),
            session (state (f w).2) = session (state w) ->
            exists response w', Some (f w) = Some (response, w') ∧
              session (state w') = session (state w)).
  { intros f H. exists (f w).1, (f w).2. split; [by destruct (f w) | done]. }
  destruct req; simpl.
  - (* /connect *)
    unfold connect. destruct (decide (bodyToken = Some expectedToken)) as [Heq|Hne].
    + eexists _, _. split; [reflexivity|]. simpl. split; [done|]. split; [done|].
      intros b [= <-] Hb. done.
    + exists (HttpError 401 "Invalid token"), w. by repeat split.
  - destruct (Hguard auth (fun w => Some (getState w))) as (r & w' & H1 & H2 & H3 & _);
      [by apply Hpure|].
    exists r, w'. repeat split; try done.
  - destruct (Hguard auth (fun w => Some (postOperations randomHex dateNow body w)))
      as (r & w' & H1 & H2 & H3 & _); [by apply Hpure|].
    exists r, w'. repeat split; try done.
  - destruct (Hguard auth (fun w => Some (postOperationsBatch randomHex dateNow body w)))
      as (r & w' & H1 & H2 & H3 & _); [by apply Hpure|].
    exists r, w'. repeat split; try done.
  - destruct (Hguard auth (fun w => Some (postApprove queryId w)))
      as (r & w' & H1 & H2 & H3 & _).
    { apply Hpure. unfold postApprove. by repeat case_match. }
    exists r, w'. repeat split; try done.
  - destruct (Hguard auth (fun w => Some (postApproveAll w)))
      as (r & w' & H1 & H2 & H3 & _).
    { apply Hpure. unfold postApproveAll. by case_match. }
    exists r, w'. repeat split; try done.
  - destruct (Hguard auth (fun w => Some (postRetry queryId w)))
      as (r & w' & H1 & H2 & H3 & _).
    { apply Hpure. unfold postRetry. by repeat case_match. }
    exists r, w'. repeat split; try done.
  - destruct (Hguard auth (postExecute execAsync otp))
      as (r & w' & H1 & H2 & H3 & _).
    { destruct (schedule_returns (fun n => executeOperation (execAsync n))
                  (operations (state w)) otp (tick w) (written w)) as [run [Hrun _]].
      rewrite (postExecute_run execAsync otp w run Hrun). by eexists _, _. }
    exists r, w'. repeat split; try done.
  - destruct (Hguard auth (fun w => Some (deleteOperations queryId w)))
      as (r & w' & H1 & H2 & H3 & _).
    { apply Hpure. unfold deleteOperations. by repeat case_match. }
    exists r, w'. repeat split; try done.
  - destruct (Hguard auth (fun w => Some (deleteOperationsAll w)))
      as (r & w' & H1 & H2 & H3 & _); [by apply Hpure|].
    exists r, w'. repeat split; try done.
  - destruct (Hguard auth (fun w => Some (getOrgUsers execAsync jsonParse org w)))
      as (r & w' & H1 & H2 & H3 & _).
    { apply Hpure. unfold getOrgUsers. case_match; [done|].
      by rewrite (proj1 (listing_state _ _ _ _)). }
    exists r, w'. repeat split; try done.
  - destruct (Hguard auth (fun w => Some (getOrgTeams execAsync jsonParse org w)))
      as (r & w' & H1 & H2 & H3 & _).
    { apply Hpure. unfold getOrgTeams. case_match; [done|].
      by rewrite (proj1 (listing_state _ _ _ _)). }
    exists r, w'. repeat split; try done.
  - destruct (Hguard auth (fun w => Some (getTeamUsers execAsync jsonParse decodeURIComponent scopeTeam w)))
      as (r & w' & H1 & H2 & H3 & _).
    { apply Hpure. unfold getTeamUsers. repeat case_match; try done.
      by rewrite (proj1 (listing_state _ _ _ _)). }
    exists r, w'. repeat split; try done.
  - destruct (Hguard auth (fun w => Some (getPackageCollaborators execAsync jsonParse decodeURIComponent pkg w)))
      as (r & w' & H1 & H2 & H3 & _).
    { apply Hpure. unfold getPackageCollaborators. repeat case_match; try done.
      by rewrite (proj1 (listing_state _ _ _ _)). }
    exists r, w'. repeat split; try done.
Qed.

(** The endpoints that only read. *)
Definition readOnly (req : Request) : bool :=
  match req with
  | GetState _ | GetOrgUsers _ _ | GetOrgTeams _ _ | GetTeamUsers _ _
  | GetPackageCollaborators _ _ => true
  | _ => false
  end.

(** X9: [GET /state] and the four listing endpoints never change the session,
    the operations or the journal of status assignments, whatever [npm]
    answers and whether or not the request is authorised. *)
Theorem read_only_endpoints_keep_state (req : Request) (w : World) :
  readOnly req = true ->
  exists (response : Response) (w' : World),
    handle expectedToken randomHex dateNow execAsync jsonParse decodeURIComponent req w
    = Some (response, w') ∧
    state w' = state w ∧ written w' = written w.
Proof.
  assert (Hguard : forall auth (f : World -> Response * World),
            state (f w).2 = state w ∧ written (f w).2 = written w ->
            exists response w',
              guarded expectedToken auth w (fun w => Some (f w)) = Some (response, w') ∧
              state w' = state w ∧ written w' = written w).
  { intros auth f H. unfold guarded.
    destruct (validateToken expectedToken auth); simpl.
    - exists (f w).1, (f w).2. split; [by destruct (f w) | done].
    - by exists unauthorized, w. }
  destruct req; simpl; try discriminate; intros _; apply Hguard.
  - done.
  - unfold getOrgUsers. case_match; [done|]. apply listing_state.
  - unfold getOrgTeams. case_match; [done|]. apply listing_state.
  - unfold getTeamUsers. repeat case_match; try done. apply listing_state.
  - unfold getPackageCollaborators. repeat case_match; try done. apply listing_state.
Qed.

End Handlers.

(** *** Creating operations *)

Section Creating.

Variable randomHex : nat -> string.
Variable dateNow : nat -> Z.

Lemma batch_app (n : nat) (a b : list OperationInput) :
  batch randomHex dateNow n (a ++ b)
  = batch randomHex dateNow n a ++ batch randomHex dateNow (n + 2 * length a) b.
Proof.
  revert n. induction a as [|x a IH]; intros n; simpl.
  - by rewrite Nat.add_0_r.
  - rewrite IH. do 3 f_equal. lia.
Qed.

Lemma batch_length (n : nat) (body : list OperationInput) :
  length (batch randomHex dateNow n body) = length body.
Proof. revert n. induction body as [|x body IH]; intros n; simpl; [done | by rewrite IH]. Qed.

Lemma batch_pending (n : nat) (body : list OperationInput) (op : PendingOperation) :
  op ∈ batch randomHex dateNow n body ->
  status op = pending ∧ result op = None ∧ dependsOn op = None.
Proof.
  revert n. induction body as [|x body IH]; intros n; simpl.
  - intros H. by apply elem_of_nil in H.
  - intros H. apply elem_of_cons in H as [->|H]; [done | by eapply IH].
Qed.

(** X10: [/operations/batch] appends one operation per element of the body, in
    order and after the stored ones, which it leaves as they are; each new
    operation is [pending], without result or dependency, and carries the
    type, parameters, description and command of its element. *)
Theorem postOperationsBatch_appends (body : list OperationInput) (w : World) :
  exists created : list PendingOperation,
    (postOperationsBatch randomHex dateNow body w).1 = Success (DataCreated created) ∧
    operations (state (postOperationsBatch randomHex dateNow body w).2)
    = operations (state w) ++ created ∧
    length created = length body ∧
    forall (k : nat) (input : OperationInput),
      body !! k = Some input ->
      exists op : PendingOperation,
        created !! k = Some op ∧
        type op = inputType input ∧ params op = inputParams input ∧
        description op = inputDescription input ∧ command op = inputCommand input ∧
        status op = pending ∧ result op = None ∧ dependsOn op = None.
Proof.
  exists (batch randomHex dateNow (tick w) body). split; [done|]. split; [done|].
  split; [apply batch_length|].
  generalize (tick w). induction body as [|x body IH]; intros n k input Hk.
  - by rewrite lookup_nil in Hk.
  - destruct k as [|k]; simpl in *.
    + injection Hk as ->. by eexists.
    + by apply IH.
Qed.

(** X11: A batch can be sent in pieces: creating [a ++ b] at once leaves the
    connector as creating [a] and then [b] does; a batch of one is
    [/operations]; and an empty batch changes nothing. *)
Theorem postOperationsBatch_composes (a b : list OperationInput)
    (x : OperationInput) (w : World) :
  (postOperationsBatch randomHex dateNow (a ++ b) w).2
  = (postOperationsBatch randomHex dateNow b
       (postOperationsBatch randomHex dateNow a w).2).2 ∧
  (postOperationsBatch randomHex dateNow [x] w).2
  = (postOperations randomHex dateNow x w).2 ∧
  (postOperationsBatch randomHex dateNow [x] w).1
  = Success (DataCreated [newOperation randomHex dateNow (tick w) x]) ∧
  (postOperations randomHex dateNow x w).1
  = Success (DataOperation (newOperation randomHex dateNow (tick w) x)) ∧
  (postOperationsBatch randomHex dateNow [] w).2 = w.
Proof.
  unfold postOperationsBatch, postOperations, withOperations. simpl.
  split; [|split; [|split; [done|split; [done|]]]].
  - rewrite batch_app, length_app, app_assoc. f_equal. lia.
  - f_equal. lia.
  - destruct w as [[ses0 ops0] tick0 log0]. simpl.
    by rewrite app_nil_r, Nat.add_0_r.
Qed.

End Creating.

(** *** Approving and deleting *)

(** What approve-all does to one operation. *)
Definition approveIfPending (op : PendingOperation) : PendingOperation :=
  if decide (status op = pending) then setStatus approved op else op.

Lemma positionsWithStatus_none (s : OperationStatus) (from : nat)
    (l : list PendingOperation) :
  (forall op, op ∈ l -> status op ≠ s) -> positionsWithStatus s from l = [].
Proof.
  revert from. induction l as [|op l IH]; intros from H; simpl; [done|].
  rewrite decide_False by (apply H; by left). apply IH. intros o Ho. apply H. by right.
Qed.

Lemma positionsWithStatus_length (s : OperationStatus) (from : nat)
    (l : list PendingOperation) :
  length (positionsWithStatus s from l)
  = length (List.filter (fun op => bool_decide (status op = s)) l).
Proof.
  revert from. induction l as [|op l IH]; intros from; simpl; [done|].
  destruct (decide (status op = s)) as [Hs|Hs].
  - rewrite bool_decide_eq_true_2 by done. simpl. by rewrite IH.
  - rewrite bool_decide_eq_false_2 by done. apply IH.
Qed.

(** The loop of approve-all, started anywhere in the store. *)
Lemma approveAt_fold (before l : list PendingOperation) (log : list StatusWrite) :
  (foldl approveAt (before ++ l, log)
     (positionsWithStatus pending (length before) l)).1
  = before ++ (approveIfPending <$> l).
Proof.
  revert before log. induction l as [|op l IH]; intros before log; [done|].
  simpl. unfold approveIfPending at 1.
  destruct (decide (status op = pending)) as [Hs|Hs].
  - rewrite foldl_step. unfold approveAt at 2.
    rewrite lookup_app_r, Nat.sub_diag by lia. simpl.
    rewrite insert_app_r_alt, Nat.sub_diag by lia. simpl.
    replace (S (length before)) with (length (before ++ [setStatus approved op]))
      by (rewrite length_app; simpl; lia).
    rewrite (cons_middle (setStatus approved op) before l), app_assoc.
    rewrite IH. by rewrite <- app_assoc.
  - replace (S (length before)) with (length (before ++ [op]))
      by (rewrite length_app; simpl; lia).
    rewrite (cons_middle op before l), app_assoc.
    rewrite IH. by rewrite <- app_assoc.
Qed.

Lemma postApproveAll_operations (w : World) :
  operations (state (postApproveAll w).2) = approveIfPending <$> operations (state w).
Proof.
  unfold postApproveAll.
  pose proof (approveAt_fold [] (operations (state w)) (written w)) as H.
  simpl in H.
  destruct (foldl approveAt (operations (state w), written w)
              (positionsWithStatus pending 0 (operations (state w)))) as [l log].
  done.
Qed.

(** X12: [/approve-all] turns every [pending] operation into an [approved] one
    and leaves every other operation, and every other field, as it is; it
    answers with the number of operations that were pending; afterwards no
    operation is pending, and a second [/approve-all] approves 0 operations
    and changes nothing. *)
Theorem postApproveAll_spec (w : World) :
  let w' := (postApproveAll w).2 in
  operations (state w') = approveIfPending <$> operations (state w) ∧
  (postApproveAll w).1
  = Success (DataApproved
      (length (List.filter (fun op => bool_decide (status op = pending))
                           (operations (state w))))) ∧
  (forall op, op ∈ operations (state w') -> status op ≠ pending) ∧
  session (state w') = session (state w) ∧
  postApproveAll w' = (Success (DataApproved 0), w').
Proof.
  pose proof (postApproveAll_operations w) as Hops.
  assert (Hnone : forall op, op ∈ operations (state (postApproveAll w).2) ->
                    status op ≠ pending).
  { rewrite Hops. intros op Hop. apply list_elem_of_fmap in Hop as [o [-> Ho]].
    unfold approveIfPending. by destruct (decide (status o = pending)). }
  simpl. split; [done|]. split; [|split; [done|split]].
  - unfold postApproveAll.
    destruct (foldl approveAt (operations (state w), written w)
                (positionsWithStatus pending 0 (operations (state w)))) as [l log].
    simpl. by rewrite positionsWithStatus_length.
  - unfold postApproveAll.
    by destruct (foldl approveAt (operations (state w), written w)
                (positionsWithStatus pending 0 (operations (state w)))) as [l log].
  - unfold postApproveAll at 1.
    rewrite (positionsWithStatus_none pending 0 _ Hnone). simpl.
    by rewrite withOperations_same.
Qed.

Lemma filter_length_split (f : PendingOperation -> bool) (l : list PendingOperation) :
  length (List.filter (fun op => negb (f op)) l) + length (List.filter f l) = length l.
Proof.
  induction l as [|op l IH]; simpl; [done|].
  destruct (f op); simpl; lia.
Qed.

Lemma filter_fixed (f : PendingOperation -> bool) (l : list PendingOperation) :
  (forall op, op ∈ l -> f op = true) -> List.filter f l = l.
Proof.
  induction l as [|op l IH]; simpl; intros H; [done|].
  rewrite (H op) by (by left). f_equal. apply IH. intros o Ho. apply H. by right.
Qed.

(** X13: [DELETE /operations/all] keeps exactly the [running] operations, in
    their order, and answers with the number of the others; a second call
    removes 0 operations and changes nothing. *)
Theorem deleteOperationsAll_spec (w : World) :
  let w' := (deleteOperationsAll w).2 in
  (forall op, op ∈ operations (state w') <->
              op ∈ operations (state w) ∧ status op = running) ∧
  (exists removed : nat,
     (deleteOperationsAll w).1 = Success (DataRemoved removed) ∧
     removed + length (operations (state w')) = length (operations (state w))) ∧
  session (state w') = session (state w) ∧
  deleteOperationsAll w' = (Success (DataRemoved 0), w').
Proof.
  simpl. split; [|split; [|split; [done|]]].
  - intros op. by rewrite !list_elem_of_In, List.filter_In, bool_decide_eq_true.
  - eexists. split; [reflexivity|]. apply filter_length_split.
  - unfold deleteOperationsAll. simpl.
    set (kept := List.filter (fun op => bool_decide (status op = running))
                             (operations (state w))).
    assert (Hall : forall op, op ∈ kept -> bool_decide (status op = running) = true).
    { intros op Hop. apply list_elem_of_In, List.filter_In in Hop as [_ H]. done. }
    assert (Hnone : List.filter (fun op => negb (bool_decide (status op = running))) kept = []).
    { clear -Hall. induction kept as [|op l IH]; simpl; [done|].
      rewrite (Hall op) by (by left). simpl. apply IH. intros o Ho. apply Hall. by right. }
    rewrite Hnone, (filter_fixed _ kept Hall). done.
Qed.

Section Deleting.

Variable expectedToken : string.
Variable randomHex : nat -> string.
Variable dateNow : nat -> Z.
Variable execAsync : nat -> string -> ExecOutcome.
Variable jsonParse : string -> option string.
Variable decodeURIComponent : string -> option string.

(** X14: [/approve] on a store with unique ids: a [pending] operation becomes
    [approved] and nothing else changes; an operation in any other status
    gives the 400 error, an unknown id the 404 error, and then nothing
    changes. *)
Theorem postApprove_spec (auth queryId : option string) (w : World) :
  validateToken expectedToken auth = true ->
  NoDup (id <$> operations (state w)) ->
  exists (response : Response) (w' : World),
    handle expectedToken randomHex dateNow execAsync jsonParse decodeURIComponent
           (PostApprove auth queryId) w = Some (response, w') ∧
    (forall (i : nat) (op : PendingOperation),
       operations (state w) !! i = Some op -> queryId = Some (id op) ->
       status op = pending ->
       response = Success (DataOperation (setStatus approved op)) ∧
       operations (state w') = <[i := setStatus approved op]> (operations (state w)) ∧
       session (state w') = session (state w)) ∧
    (forall (i : nat) (op : PendingOperation),
       operations (state w) !! i = Some op -> queryId = Some (id op) ->
       status op ≠ pending ->
       response = HttpError 400 "Operation is not pending" ∧ w' = w) ∧
    ((forall op : PendingOperation,
        op ∈ operations (state w) -> queryId ≠ Some (id op)) ->
     response = HttpError 404 "Operation not found" ∧ w' = w).
Proof.
  intros Hauth Hnd. simpl. rewrite guarded_accepts by done.
  destruct (postApprove queryId w) as [response w'] eqn:Happrove.
  exists response, w'. split; [done|].
  unfold postApprove in Happrove.
  destruct (findIndex queryId (operations (state w))) as [j|] eqn:Hfind.
  - destruct (findIndex_Some _ _ _ Hfind) as [found [Hfound Hq]].
    rewrite Hfound in Happrove.
    assert (Hsame : forall i op, operations (state w) !! i = Some op ->
              queryId = Some (id op) -> i = j ∧ op = found).
    { intros i op Hop Hqo.
      pose proof (findIndex_unique queryId _ i op Hnd Hop Hqo) as H.
      rewrite Hfind in H. injection H as ->. split; [done | congruence]. }
    split; [|split].
    + intros i op Hop Hqo Hs. destruct (Hsame i op Hop Hqo) as [-> ->].
      rewrite bool_decide_eq_true_2 in Happrove by done. simpl in Happrove.
      by injection Happrove as <- <-.
    + intros i op Hop Hqo Hs. destruct (Hsame i op Hop Hqo) as [-> ->].
      rewrite bool_decide_eq_false_2 in Happrove by done. simpl in Happrove.
      by injection Happrove as <- <-.
    + intros Hnone. exfalso. apply (Hnone found); [|done].
      apply list_elem_of_lookup. by exists j.
  - injection Happrove as <- <-. split; [|split].
    + intros i op Hop Hqo. exfalso.
      apply (proj1 (findIndex_None _ _) Hfind op); [|done].
      apply list_elem_of_lookup. by exists i.
    + intros i op Hop Hqo. exfalso.
      apply (proj1 (findIndex_None _ _) Hfind op); [|done].
      apply list_elem_of_lookup. by exists i.
    + done.
Qed.

Lemma delete_drops_id (l : list PendingOperation) (i : nat) (op o : PendingOperation) :
  NoDup (id <$> l) -> l !! i = Some op -> o ∈ delete i l -> id o ≠ id op.
Proof.
  intros Hnd Hop Ho Hid. apply list_elem_of_lookup in Ho as [j Hj].
  assert (Hk : exists k, k ≠ i ∧ l !! k = Some o).
  { destruct (decide (j < i)) as [Hlt|Hge].
    - exists j. split; [lia|]. by rewrite list_lookup_delete_lt in Hj.
    - exists (S j). split; [lia|]. by rewrite list_lookup_delete_ge in Hj by lia. }
  destruct Hk as [k [Hne Hk]]. apply Hne.
  apply (NoDup_lookup (id <$> l) k i (id o) Hnd).
  - by rewrite list_lookup_fmap, Hk.
  - by rewrite list_lookup_fmap, Hop, Hid.
Qed.

(** X15: [DELETE /operations] on a store with unique ids: an operation that is
    not [running] is removed, the others stay in their order, and no stored
    operation has its id any more; a [running] operation gives the 400
    error, an unknown id the 404 error, and then nothing changes. *)
Theorem deleteOperations_spec (auth queryId : option string) (w : World) :
  validateToken expectedToken auth = true ->
  NoDup (id <$> operations (state w)) ->
  exists (response : Response) (w' : World),
    handle expectedToken randomHex dateNow execAsync jsonParse decodeURIComponent
           (DeleteOperations auth queryId) w = Some (response, w') ∧
    (forall (i : nat) (op : PendingOperation),
       operations (state w) !! i = Some op -> queryId = Some (id op) ->
       status op ≠ running ->
       response = Success DataNone ∧
       operations (state w') = delete i (operations (state w)) ∧
       (forall o, o ∈ operations (state w') -> id o ≠ id op) ∧
       session (state w') = session (state w)) ∧
    (forall (i : nat) (op : PendingOperation),
       operations (state w) !! i = Some op -> queryId = Some (id op) ->
       status op = running ->
       response = HttpError 400 "Cannot cancel running operation" ∧ w' = w) ∧
    ((forall op : PendingOperation,
        op ∈ operations (state w) -> queryId ≠ Some (id op)) ->
     response = HttpError 404 "Operation not found" ∧ w' = w).
Proof.
  intros Hauth Hnd. simpl. rewrite guarded_accepts by done.
  destruct (deleteOperations queryId w) as [response w'] eqn:Hdelete.
  exists response, w'. split; [done|].
  unfold deleteOperations in Hdelete.
  destruct (findIndex queryId (operations (state w))) as [j|] eqn:Hfind.
  - destruct (findIndex_Some _ _ _ Hfind) as [found [Hfound Hq]].
    rewrite Hfound in Hdelete.
    assert (Hsame : forall i op, operations (state w) !! i = Some op ->
              queryId = Some (id op) -> i = j ∧ op = found).
    { intros i op Hop Hqo.
      pose proof (findIndex_unique queryId _ i op Hnd Hop Hqo) as H.
      rewrite Hfind in H. injection H as ->. split; [done | congruence]. }
    split; [|split].
    + intros i op Hop Hqo Hs. destruct (Hsame i op Hop Hqo) as [-> ->].
      rewrite bool_decide_eq_false_2 in Hdelete by done.
      injection Hdelete as <- <-. simpl. repeat split; try done.
      intros o Ho. by apply (delete_drops_id _ j found o Hnd).
    + intros i op Hop Hqo Hs. destruct (Hsame i op Hop Hqo) as [-> ->].
      rewrite bool_decide_eq_true_2 in Hdelete by done.
      by injection Hdelete as <- <-.
    + intros Hnone. exfalso. apply (Hnone found); [|done].
      apply list_elem_of_lookup. by exists j.
  - injection Hdelete as <- <-. split; [|split].
    + intros i op Hop Hqo. exfalso.
      apply (proj1 (findIndex_None _ _) Hfind op); [|done].
      apply list_elem_of_lookup. by exists i.
    + intros i op Hop Hqo. exfalso.
      apply (proj1 (findIndex_None _ _) Hfind op); [|done].
      apply list_elem_of_lookup. by exists i.
    + done.
Qed.

(** X16: When no stored operation is [approved], [/execute] runs nothing: it
    answers with no result and both flags false, and changes nothing. *)
Theorem postExecute_nothing_approved (otp : option string) (w : World) :
  (forall op, op ∈ operations (state w) -> status op ≠ approved) ->
  postExecute execAsync otp w = Some (Success (DataExecute [] false false), w).
Proof.
  intros Hnone. unfold postExecute, schedule, approvedOps.
  rewrite (positionsWithStatus_none approved 0 _ Hnone). simpl.
  by rewrite withOperations_same.
Qed.

End Deleting.

(** *** What a call of the scheduler changes *)

(** X17: [/execute] neither adds nor removes operations; of every stored
    operation it changes at most the status and the result, and an operation
    that was not [approved] when the call started is left exactly as it
    was. *)
Theorem execute_changes_status_and_result_only
    (executor : nat -> PendingOperation -> option string -> NpmExecResult)
    (operations : list PendingOperation) (otp : option string)
    (calls0 : nat) (journal0 : list StatusWrite) (run : Run) :
  schedule executor operations otp calls0 journal0 = Some run ->
  length (ops run) = length operations ∧
  forall (i : nat) (o : PendingOperation),
    operations !! i = Some o ->
    exists op : PendingOperation,
      ops run !! i = Some op ∧
      id op = id o ∧ type op = type o ∧ params op = params o ∧
      description op = description o ∧ command op = command o ∧
      createdAt op = createdAt o ∧ dependsOn op = dependsOn o ∧
      (status o ≠ approved -> op = o).
Proof.
  intros Hrun.
  pose proof (schedule_inv executor operations journal0 otp calls0 run Hrun) as Hinv.
  split; [by apply (inv_length _ _ _ _ _ _ _ Hinv)|].
  intros i o Ho.
  destruct (inv_stage _ _ _ _ _ _ _ Hinv i o Ho)
    as [[H _]|[(Hs & H & _)|[(Hs & _ & res & _ & H & _)|(Hs & H & _)]]];
    eexists; (split; [exact H|]); by repeat split.
Qed.

(** *** The first wave *)

Lemma readyCallback_first (i : nat) (r : Run) :
  completedIds r = ∅ -> failedIds r = ∅ ->
  (readyCallback i r).2 = r ∧
  ((readyCallback i r).1 = true <->
   exists op, ops r !! i = Some op ∧ truthy (dependsOn op) = false).
Proof.
  intros Hc Hf. unfold readyCallback, has. rewrite Hc, Hf.
  destruct (ops r !! i) as [op|]; simpl.
  - rewrite !bool_decide_eq_false_2 by apply not_elem_of_empty. simpl.
    destruct (truthy (dependsOn op)) eqn:Ht; simpl.
    + split; [done|]. split; [done|]. intros [op' [[= <-] H]]. congruence.
    + split; [done|]. split; [|done]. intros _. by exists op.
  - split; [done|]. split; [done|]. by intros [op [H _]].
Qed.

Lemma filterReady_first (idxs : list nat) (r : Run) :
  completedIds r = ∅ -> failedIds r = ∅ ->
  (filterReady idxs r).2 = r ∧
  forall i, i ∈ (filterReady idxs r).1 <->
    i ∈ idxs ∧ exists op, ops r !! i = Some op ∧ truthy (dependsOn op) = false.
Proof.
  intros Hc Hf. induction idxs as [|j idxs [IH1 IH2]]; simpl.
  - split; [done|]. intros i. split; [intros H; by apply elem_of_nil in H|].
    intros [H _]. by apply elem_of_nil in H.
  - destruct (readyCallback_first j r Hc Hf) as [H1 H2].
    destruct (readyCallback j r) as [keep r1]. simpl in *. subst r1.
    destruct (filterReady idxs r) as [readyOps r2]. simpl in *. subst r2.
    split; [done|]. intros i. destruct keep.
    + rewrite !elem_of_cons, IH2. split.
      * intros [->|[Hi H]]; [|by split; [right|]].
        split; [by left | by apply H2].
      * intros [[->|Hi] H]; [by left | right; by split].
    + rewrite elem_of_cons, IH2. split.
      * intros [Hi H]. split; [by right | done].
      * intros [[->|Hi] H]; [|by split].
        apply H2 in H. done.
Qed.

Section Waves.

Variable executor : nat -> PendingOperation -> option string -> NpmExecResult.
Variable orig : list PendingOperation.
Variable journal0 : list StatusWrite.
Variable otp : option string.
Variable calls0 : nat.

(** What has been handed to the executor stays so, in the same order, until
    the loop ends. *)
Lemma waveLoop_invoked_prefix (fuel : nat) (r run : Run) :
  wave_inv executor orig journal0 otp calls0 [] r ->
  waveLoop executor fuel (approvedOps orig) otp r = Some run ->
  exists more : list nat, fst <$> invoked run = (fst <$> invoked r) ++ more.
Proof.
  revert r. induction fuel as [|fuel IH]; intros r Hinv Hrun; [done|].
  simpl in Hrun.
  pose proof (turn_inv executor orig journal0 otp calls0 r Hinv) as Hturn.
  unfold turn in *.
  pose proof (filterReady_inv executor orig journal0 otp calls0
                (approvedOps orig) r Hinv (approvedOps_status orig)) as Hinv1.
  destruct (filterReady_ready executor orig journal0 otp calls0
              (approvedOps orig) r Hinv (approvedOps_status orig)
              (positionsWithStatus_NoDup _ _ _)) as [Hnd Hready].
  destruct (filterReady_frame (approvedOps orig) r) as (F1 & _).
  destruct (filterReady (approvedOps orig) r) as [readyOps r1]. simpl in *.
  destruct readyOps as [|j readyOps].
  { injection Hrun as <-. exists []. by rewrite F1, app_nil_r. }
  destruct (otpRequired r1 && negb (truthy otp)).
  { injection Hrun as <-. exists []. by rewrite F1, app_nil_r. }
  destruct (runWave_inv executor orig journal0 otp calls0 (j :: readyOps) r1 Hinv1 Hnd)
    as [Hinv2 Hinvoked].
  { intros k Hk. destruct (Hready k Hk) as [Hin [o (Ho & Hu & _)]].
    exists o. split; [done|]. split; [|done]. by apply (approvedOps_status orig k). }
  destruct (IH _ Hinv2 Hrun) as [more Hmore].
  exists ((j :: readyOps) ++ more). by rewrite Hmore, Hinvoked, F1, app_assoc.
Qed.

(** The first turn of the loop, which always runs its wave. *)
Lemma schedule_first_wave (run : Run) :
  schedule executor orig otp calls0 journal0 = Some run ->
  exists more : list nat,
    fst <$> invoked run
    = (filterReady (approvedOps orig) (startRun orig calls0 journal0)).1 ++ more.
Proof.
  intros Hrun. unfold schedule in Hrun. simpl in Hrun.
  pose proof (startRun_inv executor orig journal0 otp calls0) as Hinv.
  unfold turn in Hrun.
  destruct (filterReady_first (approvedOps orig)
              (startRun orig calls0 journal0) eq_refl eq_refl) as [H1 _].
  destruct (filterReady_ready executor orig journal0 otp calls0
              (approvedOps orig) _ Hinv (approvedOps_status orig)
              (positionsWithStatus_NoDup _ _ _)) as [Hnd Hready].
  destruct (filterReady (approvedOps orig) (startRun orig calls0 journal0))
    as [readyOps r1]. simpl in *. subst r1.
  destruct readyOps as [|j readyOps].
  { injection Hrun as <-. by exists []. }
  simpl in Hrun.
  destruct (runWave_inv executor orig journal0 otp calls0 (j :: readyOps)
              _ Hinv Hnd) as [Hinv2 Hinvoked].
  { intros k Hk. destruct (Hready k Hk) as [Hin [o' (Ho' & Hu & _)]].
    exists o'. split; [done|]. split; [|done].
    by apply (approvedOps_status orig k). }
  destruct (waveLoop_invoked_prefix _ _ _ Hinv2 Hrun) as [more Hmore].
  exists more. by rewrite Hmore, Hinvoked.
Qed.

End Waves.

(** X19: Every approved operation without dependency is handed to the Command
    Executor in the call, whether or not an OTP was supplied: the first wave
    holds them all and always runs. *)
Theorem independent_operations_are_dispatched
    (executor : nat -> PendingOperation -> option string -> NpmExecResult)
    (operations : list PendingOperation) (otp : option string)
    (calls0 : nat) (journal0 : list StatusWrite) (run : Run)
    (i : nat) (o : PendingOperation) :
  schedule executor operations otp calls0 journal0 = Some run ->
  operations !! i = Some o -> status o = approved ->
  truthy (dependsOn o) = false ->
  exists res : NpmExecResult,
    (i, res) ∈ invoked run ∧ exists k : nat,
      res = executor (calls0 + k) (setStatus running o) otp.
Proof.
  intros Hrun Ho Hso Hdep.
  pose proof (schedule_inv executor operations journal0 otp calls0 run Hrun) as Hinvf.
  assert (Hin : i ∈ (fst <$> invoked run)).
  { destruct (schedule_first_wave executor operations journal0 otp calls0 run Hrun)
      as [more ->].
    apply elem_of_app. left.
    apply (filterReady_first (approvedOps operations)
             (startRun operations calls0 journal0) eq_refl eq_refl).
    split; [apply elem_of_approvedOps; by exists o | by exists o]. }
  apply list_elem_of_fmap in Hin as [[i' res] [Hi Hin]]. simpl in Hi. subst i'.
  exists res. split; [done|].
  apply list_elem_of_lookup in Hin as [k Hk].
  destruct (inv_executor _ _ _ _ _ _ _ Hinvf k i res Hk) as [o' [Ho' ->]].
  exists k. congruence.
Qed.

(** *** Every resolved operation is reported *)






Section Reporting.

Variable executor : nat -> PendingOperation -> option string -> NpmExecResult.
Variable orig : list PendingOperation.





(** A wave changes the objects of its own positions only. *)
Lemma dispatches_frame (otp : option string) (readyOps : list nat)
    (promises : list (nat * NpmExecResult)) (r : Run) (j : nat) :
  (j ∉ readyOps) ->
  ops (foldl (dispatch executor otp) (promises, r) readyOps).2 !! j = ops r !! j ∧
  ((j ∉ (fst <$> promises)) ->
   j ∉ (fst <$> (foldl (dispatch executor otp) (promises, r) readyOps).1)).
Proof.
  revert promises r. induction readyOps as [|i readyOps IH]; intros promises r Hj.
  - done.
  - rewrite foldl_step. apply not_elem_of_cons in Hj as [Hji Hj].
    assert (Hd : ops (dispatch executor otp (promises, r) i).2 !! j = ops r !! j ∧
                 ((j ∉ (fst <$> promises)) ->
                  j ∉ (fst <$> (dispatch executor otp (promises, r) i).1))).
    { unfold dispatch. destruct (ops r !! i) as [op|]; [|done]. simpl.
      split; [by rewrite list_lookup_insert_ne|].
      intros Hnp. rewrite fmap_app. apply not_elem_of_app. split; [done|].
      simpl. by rewrite list_elem_of_singleton. }
    destruct (dispatch executor otp (promises, r) i) as [promises1 r1].
    simpl in Hd. destruct Hd as [Hd1 Hd2].
    destruct (IH promises1 r1 Hj) as [H1 H2].
    split; [congruence|]. intros Hnp. apply H2. by apply Hd2.
Qed.

Lemma settles_frame (promises : list (nat * NpmExecResult)) (r : Run) (j : nat) :
  (j ∉ (fst <$> promises)) -> ops (foldl settle r promises) !! j = ops r !! j.
Proof.
  revert r. induction promises as [|[i res] promises IH]; intros r Hj; [done|].
  rewrite foldl_step. simpl in Hj. apply not_elem_of_cons in Hj as [Hji Hj].
  rewrite IH by done. unfold settle.
  destruct (ops r !! i) as [op|]; [|done]. simpl.
  by rewrite list_lookup_insert_ne.
Qed.

Lemma runWave_frame (otp : option string) (readyOps : list nat) (r : Run) (j : nat) :
  (j ∉ readyOps) -> ops (runWave executor otp readyOps r) !! j = ops r !! j.
Proof.
  intros Hj. unfold runWave.
  destruct (dispatches_frame otp readyOps [] r j Hj) as [H1 H2].
  destruct (foldl (dispatch executor otp) ([], r) readyOps) as [promises r1].
  simpl in *. rewrite settles_frame; [done|]. apply H2. apply not_elem_of_nil.
Qed.

End Reporting.



(** *** Why an operation is left over, and why one is skipped *)

Definition skip_reason (orig : list PendingOperation) (r : Run) : Prop :=
  forall i o, orig !! i = Some o -> skippedAt r i o ->
    truthy (dependsOn o) = true ∧
    default EmptyString (dependsOn o) ∈ failedIds r.

Section Passes.

Variable executor : nat -> PendingOperation -> option string -> NpmExecResult.
Variable orig : list PendingOperation.
Variable journal0 : list StatusWrite.
Variable otp : option string.
Variable calls0 : nat.

(** The loop ends with a filter pass: one that finds nothing ready, or one
    that is cut short by the OTP check. *)
Lemma waveLoop_last_pass (fuel : nat) (r run : Run) :
  wave_inv executor orig journal0 otp calls0 [] r ->
  waveLoop executor fuel (approvedOps orig) otp r = Some run ->
  exists r0, wave_inv executor orig journal0 otp calls0 [] r0 ∧
    run = (filterReady (approvedOps orig) r0).2 ∧
    ((filterReady (approvedOps orig) r0).1 = [] ∨
     (otpRequired run = true ∧ truthy otp = false)).
Proof.
  revert r. induction fuel as [|fuel IH]; intros r Hinv Hrun; [done|].
  simpl in Hrun.
  pose proof (turn_inv executor orig journal0 otp calls0 r Hinv) as Hturn.
  unfold turn in *.
  destruct (filterReady (approvedOps orig) r) as [readyOps r1] eqn:Hf.
  destruct readyOps as [|j readyOps].
  { injection Hrun as <-. exists r. rewrite Hf. split; [done|]. split; [done|]. by left. }
  destruct (otpRequired r1 && negb (truthy otp)) eqn:Hstall.
  { injection Hrun as <-. exists r. rewrite Hf. split; [done|]. split; [done|]. right.
    apply andb_true_iff in Hstall as [H1 H2]. split; [done|].
    by apply negb_true_iff in H2. }
  by apply (IH _ Hturn Hrun).
Qed.

(** After a pass that finds nothing ready, every position of the pass whose
    id is in neither set waits for a dependency that has not completed. *)
Lemma filterReady_blocked (idxs : list nat) (r : Run) (i : nat) (o : PendingOperation) :
  wave_inv executor orig journal0 otp calls0 [] r ->
  (forall i o, i ∈ idxs -> orig !! i = Some o -> status o = approved) ->
  (filterReady idxs r).1 = [] ->
  i ∈ idxs -> orig !! i = Some o ->
  id o ∉ completedIds (filterReady idxs r).2 ->
  id o ∉ failedIds (filterReady idxs r).2 ->
  truthy (dependsOn o) = true ∧
  default EmptyString (dependsOn o) ∉ completedIds (filterReady idxs r).2.
Proof.
  revert r. induction idxs as [|j idxs IH]; intros r Hinv Happ Hempty Hi Ho Hc Hf.
  { by apply elem_of_nil in Hi. }
  simpl in *.
  pose proof (readyCallback_inv executor orig journal0 otp calls0 j r Hinv) as Hinv1.
  pose proof (readyCallback_extends j r) as Hext1.
  destruct (readyCallback_frame j r) as (_ & Hc1 & _).
  assert (Hkeep : ops r !! j = Some o -> id o ∉ completedIds r -> id o ∉ failedIds r ->
            (readyCallback j r).1 = false ->
            truthy (dependsOn o) = true ∧
            default EmptyString (dependsOn o) ∉ completedIds r).
  { intros Hop H1 H2. unfold readyCallback. rewrite Hop.
    apply has_false in H1, H2. rewrite H1, H2. simpl.
    destruct (truthy (dependsOn o)); simpl; [|done].
    destruct (has (completedIds r) (default EmptyString (dependsOn o))) eqn:Hd; [done|].
    intros _. split; [done|]. by apply has_false. }
  destruct (readyCallback j r) as [keep r1]. simpl in *.
  pose proof (filterReady_extends idxs r1) as Hext2.
  destruct (filterReady_frame idxs r1) as (_ & Hc2 & _).
  specialize (IH r1).
  destruct (filterReady idxs r1) as [readyOps r2]. simpl in *.
  assert (Hk : keep = false ∧ readyOps = []) by (by destruct keep).
  destruct Hk as [-> ->].
  apply elem_of_cons in Hi as [->|Hi].
  - assert (H1 : id o ∉ completedIds r) by congruence.
    assert (H2 : id o ∉ failedIds r).
    { intros H. apply Hf. apply (ext_failed _ _ Hext2). by apply (ext_failed _ _ Hext1). }
    destruct (inv_stage _ _ _ _ _ _ _ Hinv j o Ho)
      as [[H _]|[(_ & _ & H)|[(_ & _ & res & _ & _ & H)|(_ & _ & _ & H)]]].
    + rewrite Hc2, Hc1. by apply Hkeep.
    + by apply elem_of_nil in H.
    + by destruct (exitCode res =? 0)%Z.
    + done.
  - apply IH; try done.
    + apply Hinv1. intros o' Ho'. apply (Happ j o'); [by left | done].
    + intros k o' Hk Ho'. apply (Happ k o'); [by right | done].
Qed.

(** The filter callback skips an operation only when its dependency is in
    the failed set. *)
Lemma readyCallback_skip_reason (i : nat) (r : Run) :
  wave_inv executor orig journal0 otp calls0 [] r ->
  skip_reason orig r -> skip_reason orig (readyCallback i r).2.
Proof.
  intros Hinv Hk j o Ho Hs.
  pose proof (readyCallback_extends i r) as Hext.
  destruct (readyCallback_frame i r) as (Hinvk & _ & _ & _ & Hops & _).
  assert (Hcase : (readyCallback i r).2 = r ∨
            exists op, ops r !! i = Some op ∧
              ops (readyCallback i r).2 !! i = Some (skippedOp op) ∧
              truthy (dependsOn op) = true ∧
              default EmptyString (dependsOn op) ∈ failedIds r).
  { unfold readyCallback. destruct (ops r !! i) as [op|] eqn:Hop; [|by left].
    destruct (has (completedIds r) (id op) || has (failedIds r) (id op)); [by left|].
    destruct (truthy (dependsOn op)) eqn:Ht; simpl; [|by left].
    destruct (has (completedIds r) (default EmptyString (dependsOn op))); [by left|].
    destruct (has (failedIds r) (default EmptyString (dependsOn op))) eqn:Hd; [|by left].
    right. exists op. split; [done|]. simpl.
    rewrite list_lookup_insert_eq by (by eapply lookup_lt_Some).
    split; [done|]. split; [done|]. by apply has_true. }
  destruct Hcase as [Heq|(op & Hop & Hop' & Ht & Hd)].
  { rewrite Heq in *. by apply (Hk j o). }
  destruct Hs as (Hso & Hj & Hni & Hfj).
  destruct (decide (j = i)) as [->|Hji].
  - assert (Hdep : dependsOn op = dependsOn o).
    { assert (Heq : skippedOp op = skippedOp o) by congruence.
      by apply (f_equal dependsOn) in Heq. }
    rewrite <- Hdep. split; [done|]. by apply (ext_failed _ _ Hext).
  - rewrite Hops in Hj by done. rewrite Hinvk in Hni.
    destruct (inv_stage _ _ _ _ _ _ _ Hinv j o Ho)
      as [[H _]|[(_ & _ & H)|[(_ & _ & res & H & _)|H]]].
    + assert (Heq : skippedOp o = o) by congruence. by apply skippedOp_ne in Heq.
    + by apply elem_of_nil in H.
    + exfalso. apply Hni. apply list_elem_of_fmap. by exists (j, res).
    + destruct (Hk j o Ho H) as [H1 H2]. split; [done|].
      by apply (ext_failed _ _ Hext).
Qed.

Lemma filterReady_skip_reason (idxs : list nat) (r : Run) :
  wave_inv executor orig journal0 otp calls0 [] r ->
  (forall i o, i ∈ idxs -> orig !! i = Some o -> status o = approved) ->
  skip_reason orig r -> skip_reason orig (filterReady idxs r).2.
Proof.
  revert r. induction idxs as [|i idxs IH]; intros r Hinv Happ Hk; simpl; [done|].
  pose proof (readyCallback_inv executor orig journal0 otp calls0 i r Hinv) as Hinv1.
  pose proof (readyCallback_skip_reason i r Hinv Hk) as Hk1.
  destruct (readyCallback i r) as [keep r1]. simpl in *.
  specialize (IH r1). destruct (filterReady idxs r1) as [readyOps r2]. simpl in *.
  apply IH; [|by intros k o Hin; apply Happ; right|done].
  apply Hinv1. intros o. apply Happ. by left.
Qed.

Lemma runWave_skip_reason (readyOps : list nat) (r : Run) :
  wave_inv executor orig journal0 otp calls0 [] r -> NoDup readyOps ->
  (forall i, i ∈ readyOps ->
     exists o, orig !! i = Some o ∧ status o = approved ∧ untouched r i o) ->
  skip_reason orig r -> skip_reason orig (runWave executor otp readyOps r).
Proof.
  intros Hinv Hnd Hready Hk j o Ho (Hso & Hj & Hni & Hfj).
  destruct (runWave_inv executor orig journal0 otp calls0 readyOps r Hinv Hnd Hready)
    as [Hinv' Hinvoked].
  pose proof (runWave_extends executor otp readyOps r) as Hext.
  rewrite Hinvoked in Hni. apply not_elem_of_app in Hni as [Hni Hnr].
  rewrite (runWave_frame executor otp readyOps r j Hnr) in Hj.
  destruct (inv_stage _ _ _ _ _ _ _ Hinv j o Ho)
    as [[H _]|[(_ & _ & H)|[(_ & _ & res & H & _)|H]]].
  - assert (Heq : skippedOp o = o) by congruence. by apply skippedOp_ne in Heq.
  - by apply elem_of_nil in H.
  - exfalso. apply Hni. apply list_elem_of_fmap. by exists (j, res).
  - destruct (Hk j o Ho H) as [H1 H2]. split; [done|].
    by apply (ext_failed _ _ Hext).
Qed.

Lemma waveLoop_skip_reason (fuel : nat) (r run : Run) :
  wave_inv executor orig journal0 otp calls0 [] r -> skip_reason orig r ->
  waveLoop executor fuel (approvedOps orig) otp r = Some run ->
  skip_reason orig run.
Proof.
  revert r. induction fuel as [|fuel IH]; intros r Hinv Hk Hrun; [done|].
  simpl in Hrun.
  pose proof (turn_inv executor orig journal0 otp calls0 r Hinv) as Hturn.
  unfold turn in *.
  pose proof (filterReady_inv executor orig journal0 otp calls0
                (approvedOps orig) r Hinv (approvedOps_status orig)) as Hinv1.
  pose proof (filterReady_skip_reason (approvedOps orig) r Hinv
                (approvedOps_status orig) Hk) as Hk1.
  destruct (filterReady_ready executor orig journal0 otp calls0
              (approvedOps orig) r Hinv (approvedOps_status orig)
              (positionsWithStatus_NoDup _ _ _)) as [Hnd Hready].
  destruct (filterReady (approvedOps orig) r) as [readyOps r1]. simpl in *.
  destruct readyOps as [|j readyOps]; [by injection Hrun as <-|].
  destruct (otpRequired r1 && negb (truthy otp)); [by injection Hrun as <-|].
  apply (IH _ Hturn); [|done].
  apply runWave_skip_reason; try done.
  intros k Hkin. destruct (Hready k Hkin) as [Hin [o (Ho & Hu & _)]].
  exists o. split; [done|]. split; [|done]. by apply (approvedOps_status orig k).
Qed.

Lemma schedule_skip_reason (run : Run) :
  schedule executor orig otp calls0 journal0 = Some run -> skip_reason orig run.
Proof.
  unfold schedule. apply waveLoop_skip_reason.
  - apply startRun_inv.
  - intros i o Ho (Hso & Hj & _). simpl in Hj.
    assert (H : skippedOp o = o) by congruence. by apply skippedOp_ne in H.
Qed.

End Passes.

Lemma schedule_leftover
    (executor : nat -> PendingOperation -> option string -> NpmExecResult)
    (operations : list PendingOperation) (otp : option string)
    (calls0 : nat) (journal0 : list StatusWrite) (run : Run)
    (i : nat) (o : PendingOperation) :
  schedule executor operations otp calls0 journal0 = Some run ->
  truthy otp = true ∨ otpRequired run = false ->
  operations !! i = Some o -> status o = approved ->
  id o ∉ completedIds run -> id o ∉ failedIds run ->
  truthy (dependsOn o) = true ∧
  default EmptyString (dependsOn o) ∉ completedIds run.
Proof.
  intros Hrun Hnostall Ho Hso Hc Hf. unfold schedule in Hrun.
  destruct (waveLoop_last_pass executor operations journal0 otp calls0 _ _ _
              (startRun_inv executor operations journal0 otp calls0) Hrun)
    as (r0 & Hinv0 & -> & Hlast).
  destruct Hlast as [Hempty|[H1 H2]]; [|destruct Hnostall; congruence].
  apply (filterReady_blocked executor operations journal0 otp calls0
           (approvedOps operations) r0 i o Hinv0 (approvedOps_status operations)
           Hempty); try done.
  apply elem_of_approvedOps. by exists o.
Qed.

(** X21: When [/execute] returns without having stopped for an OTP, an approved
    operation whose id is in neither the completed nor the failed set has a
    dependency, and the id it depends on is not in the completed set: the
    loop does not give up on an operation that could run. *)
Theorem leftover_operations_wait_for_a_dependency
    (executor : nat -> PendingOperation -> option string -> NpmExecResult)
    (operations : list PendingOperation) (otp : option string)
    (calls0 : nat) (journal0 : list StatusWrite) (run : Run)
    (i : nat) (o : PendingOperation) :
  schedule executor operations otp calls0 journal0 = Some run ->
  truthy otp = true ∨ otpRequired run = false ->
  operations !! i = Some o -> status o = approved ->
  id o ∉ completedIds run -> id o ∉ failedIds run ->
  exists d : string,
    dependsOn o = Some d ∧ d ≠ EmptyString ∧ d ∉ completedIds run.
Proof.
  intros Hrun Hnostall Ho Hso Hc Hf.
  destruct (schedule_leftover executor operations otp calls0 journal0 run i o
              Hrun Hnostall Ho Hso Hc Hf) as [Ht Hd].
  destruct (dependsOn o) as [d|]; [|done]. exists d. split; [done|].
  split; [|done]. intros ->. done.
Qed.

(** X22: An operation is skipped only for a failed dependency: an approved
    operation that ends [failed] without having been handed to the Command
    Executor depends on an id that is in the failed set, that is, on an
    approved operation that failed or was skipped in this call. *)
Theorem skipped_only_after_failed_dependency
    (executor : nat -> PendingOperation -> option string -> NpmExecResult)
    (operations : list PendingOperation) (otp : option string)
    (calls0 : nat) (journal0 : list StatusWrite) (run : Run)
    (i : nat) (o op : PendingOperation) :
  schedule executor operations otp calls0 journal0 = Some run ->
  operations !! i = Some o -> status o = approved ->
  ops run !! i = Some op -> status op = failed ->
  (i ∉ (fst <$> invoked run)) ->
  op = skippedOp o ∧
  exists (d : string) (j : nat) (a a' : PendingOperation),
    dependsOn o = Some d ∧ d ≠ EmptyString ∧ d ∈ failedIds run ∧
    operations !! j = Some a ∧ id a = d ∧ status a = approved ∧
    ops run !! j = Some a' ∧ status a' = failed.
Proof.
  intros Hrun Ho Hso Hop Hsop Hni.
  pose proof (schedule_inv executor operations journal0 otp calls0 run Hrun) as Hinv.
  pose proof (schedule_skip_reason executor operations journal0 otp calls0 run Hrun) as Hk.
  destruct (inv_stage _ _ _ _ _ _ _ Hinv i o Ho)
    as [[H _]|[(_ & _ & H)|[(_ & _ & res & H & _)|H]]].
  - congruence.
  - by apply elem_of_nil in H.
  - exfalso. apply Hni. apply list_elem_of_fmap. by exists (i, res).
  - destruct (Hk i o Ho H) as [Ht Hd]. destruct H as (_ & H & _).
    split; [congruence|].
    destruct (dependsOn o) as [d|]; [|done]. simpl in Hd.
    destruct (inv_failed _ _ _ _ _ _ _ Hinv d Hd) as (j & a & Ha & Hid & Hwhy).
    assert (Hsa : status a = approved ∧ exists a', ops run !! j = Some a' ∧ status a' = failed).
    { destruct Hwhy as [(Hsa & Hja & _)|[res [Hin Hexit]]].
      - split; [done|]. by exists (skippedOp a).
      - destruct (inv_stage _ _ _ _ _ _ _ Hinv j a Ha)
          as [[_ H']|[(_ & _ & H')|[(Hsa & _ & res' & Hin' & Hja & _)|(_ & _ & H' & _)]]].
        + exfalso. apply H'. apply list_elem_of_fmap. by exists (j, res).
        + by apply elem_of_nil in H'.
        + split; [done|]. exists (settledOp res' a). split; [done|].
          rewrite (invoked_result_unique _ _ _ _ (inv_nodup _ _ _ _ _ _ _ Hinv) Hin' Hin).
          simpl. unfold finalStatus. destruct (exitCode res =? 0)%Z eqn:He; [|done].
          apply Z.eqb_eq in He. done.
        + exfalso. apply H'. apply list_elem_of_fmap. by exists (j, res). }
    destruct Hsa as [Hsa [a' [Ha' Hsa']]].
    exists d, j, a, a'. repeat split; try done. intros ->. done.
Qed.

(** X23: With unique ids: when [/execute] returns without having stopped for an
    OTP, an approved operation that depends on an approved operation which
    the call completed has been handed to the Command Executor (and so is
    [completed] or [failed] by its own exit code). *)
Theorem completed_dependency_releases_dependent
    (executor : nat -> PendingOperation -> option string -> NpmExecResult)
    (operations : list PendingOperation) (otp : option string)
    (calls0 : nat) (journal0 : list StatusWrite) (run : Run)
    (iA iB : nat) (A A' B : PendingOperation) :
  NoDup (id <$> operations) ->
  schedule executor operations otp calls0 journal0 = Some run ->
  truthy otp = true ∨ otpRequired run = false ->
  operations !! iA = Some A -> status A = approved ->
  ops run !! iA = Some A' -> status A' = completed ->
  operations !! iB = Some B -> status B = approved ->
  dependsOn B = Some (id A) -> id A ≠ EmptyString ->
  exists res : NpmExecResult,
    (iB, res) ∈ invoked run ∧
    ops run !! iB = Some (settledOp res B).
Proof.
  intros Hnd Hrun Hnostall HA HsA HA' HsA' HB HsB Hdep Hne.
  pose proof (schedule_inv executor operations journal0 otp calls0 run Hrun) as Hinv.
  pose proof (schedule_skip_reason executor operations journal0 otp calls0 run Hrun) as Hk.
  assert (HcA : id A ∈ completedIds run).
  { destruct (inv_stage _ _ _ _ _ _ _ Hinv iA A HA)
      as [[H _]|[(_ & _ & H)|[(_ & _ & res & _ & H & Hset)|(_ & H & _)]]].
    - congruence.
    - by apply elem_of_nil in H.
    - rewrite HA' in H. injection H as ->. simpl in HsA'. unfold finalStatus in HsA'.
      by destruct (exitCode res =? 0)%Z.
    - rewrite HA' in H. injection H as ->. done. }
  destruct (inv_stage _ _ _ _ _ _ _ Hinv iB B HB)
    as [[H Hni]|[(_ & _ & H)|[(_ & _ & res & Hin & H & _)|H]]].
  - destruct (decide (id B ∈ completedIds run ∨ id B ∈ failedIds run)) as [Hres|Hres].
    + pose proof (resolved_not_invoked executor operations journal0 otp calls0 Hnd
                    run iB B Hinv HB Hni Hres) as (_ & Hs & _).
      assert (Heq : skippedOp B = B) by congruence. by apply skippedOp_ne in Heq.
    + destruct (schedule_leftover executor operations otp calls0 journal0 run iB B Hrun
                  Hnostall HB HsB) as [_ Hdc].
      * intros Hc. apply Hres. by left.
      * intros Hf. apply Hres. by right.
      * rewrite Hdep in Hdc. done.
  - by apply elem_of_nil in H.
  - by exists res.
  - destruct (Hk iB B HB H) as [_ Hd]. rewrite Hdep in Hd. simpl in Hd.
    exfalso. by apply (sets_disjoint executor operations journal0 otp calls0 Hnd run (id A) Hinv).
Qed.

(** *** Ids stay unique *)

(** The ids of the store are values that [randomHex] has given so far, in
    the order in which it gave them, each drawn value used at most once. *)
Definition idsDrawn (randomHex : nat -> string) (w : World) : Prop :=
  (id <$> operations (state w)) `sublist_of` (randomHex <$> seq 0 (tick w)).

Lemma drawn_later (randomHex : nat -> string) (ids : list string) (n m : nat) :
  n <= m -> ids `sublist_of` (randomHex <$> seq 0 n) ->
  ids `sublist_of` (randomHex <$> seq 0 m).
Proof.
  intros Hle H. replace m with (n + (m - n)) by lia.
  rewrite seq_app, fmap_app. by apply sublist_inserts_r.
Qed.

Lemma drawn_keep (randomHex : nat -> string) (w w' : World) :
  (id <$> operations (state w')) `sublist_of` (id <$> operations (state w)) ->
  tick w <= tick w' ->
  idsDrawn randomHex w -> idsDrawn randomHex w'.
Proof.
  unfold idsDrawn. intros Hsub Hle Hw.
  apply (drawn_later _ _ (tick w)); [done|]. by etrans.
Qed.

Lemma batch_drawn (randomHex : nat -> string) (dateNow : nat -> Z) (n : nat)
    (body : list OperationInput) :
  (id <$> batch randomHex dateNow n body)
    `sublist_of` (randomHex <$> seq n (2 * length body)).
Proof.
  revert n. induction body as [|x body IH]; intros n; [done|].
  replace (2 * length (x :: body)) with (S (S (2 * length body))) by (simpl; lia).
  simpl. apply sublist_skip, sublist_cons, IH.
Qed.

Lemma filter_sublist (f : PendingOperation -> bool) (l : list PendingOperation) :
  (id <$> List.filter f l) `sublist_of` (id <$> l).
Proof.
  induction l as [|op l IH]; simpl; [done|].
  destruct (f op); simpl; [by apply sublist_skip | by apply sublist_cons].
Qed.

Lemma approveIfPending_ids (l : list PendingOperation) :
  id <$> (approveIfPending <$> l) = id <$> l.
Proof.
  rewrite <- list_fmap_compose. apply list_fmap_ext. intros i op _. simpl.
  unfold approveIfPending. by destruct (decide (status op = pending)).
Qed.

Lemma schedule_ids
    (executor : nat -> PendingOperation -> option string -> NpmExecResult)
    (operations : list PendingOperation) (otp : option string)
    (calls0 : nat) (journal0 : list StatusWrite) (run : Run) :
  schedule executor operations otp calls0 journal0 = Some run ->
  id <$> ops run = id <$> operations ∧ calls0 <= calls run.
Proof.
  intros Hrun.
  pose proof (schedule_inv executor operations journal0 otp calls0 run Hrun) as Hinv.
  unfold schedule in Hrun.
  destruct (waveLoop_inv executor operations journal0 otp calls0 _ _ _
              (startRun_inv executor operations journal0 otp calls0) Hrun) as [_ Hext].
  split.
  - apply list_eq. intros i. rewrite !list_lookup_fmap.
    apply (ext_id _ _ Hext i).
  - rewrite (inv_calls _ _ _ _ _ _ _ Hinv). lia.
Qed.

Section UniqueIds.

Variable expectedToken : string.
Variable randomHex : nat -> string.
Variable dateNow : nat -> Z.
Variable execAsync : nat -> string -> ExecOutcome.
Variable jsonParse : string -> option string.
Variable decodeURIComponent : string -> option string.

Lemma listing_drawn (args : list string) (failedMessage parseMessage : string)
    (w : World) :
  idsDrawn randomHex w ->
  idsDrawn randomHex (listing execAsync jsonParse args failedMessage parseMessage w).2.
Proof.
  intros Hw.
  assert (H : idsDrawn randomHex
                (withOperations w (operations (state w)) (S (tick w)) (written w))).
  { apply (drawn_keep _ w); [done | simpl; lia | done]. }
  unfold listing. by repeat case_match.
Qed.

Lemma handle_drawn (req : Request) (w : World) (response : Response) (w' : World) :
  idsDrawn randomHex w ->
  handle expectedToken randomHex dateNow execAsync jsonParse decodeURIComponent req w
  = Some (response, w') ->
  idsDrawn randomHex w'.
Proof.
  intros Hw.
  assert (Hguard : forall auth (handler : World -> option (Response * World)),
            (forall r w1, handler w = Some (r, w1) -> idsDrawn randomHex w1) ->
            guarded expectedToken auth w handler = Some (response, w') ->
            idsDrawn randomHex w').
  { intros auth handler Hh. unfold guarded.
    destruct (validateToken expectedToken auth); simpl.
    - apply Hh.
    - by intros [= <- <-]. }
  assert (Hpure : forall (f : World -> Response * World),
            idsDrawn randomHex (f w).2 ->
            forall r w1, Some (f w) = Some (r, w1) -> idsDrawn randomHex w1).
  { intros f H r w1 Heq. injection Heq as Heq. by rewrite Heq in H. }
  destruct req; simpl.
  - (* /connect *)
    unfold connect. destruct (decide (bodyToken = Some expectedToken)).
    + intros [= <- <-]. apply (drawn_keep _ w); [done | simpl; lia | done].
    + by intros [= <- <-].
  - apply Hguard, Hpure. done.
  - (* /operations *)
    apply Hguard, Hpure. unfold idsDrawn in *.
    unfold postOperations, withOperations.
    cbn [snd state operations tick].
    rewrite fmap_app. replace (S (S (tick w))) with (tick w + 2) by lia.
    rewrite seq_app, fmap_app. apply sublist_app; [done|].
    simpl. apply sublist_skip, sublist_cons, sublist_nil.
  - (* /operations/batch *)
    apply Hguard, Hpure. unfold idsDrawn in *.
    unfold postOperationsBatch, withOperations.
    cbn [snd state operations tick].
    rewrite fmap_app, seq_app, fmap_app. apply sublist_app; [done|].
    apply batch_drawn.
  - (* /approve *)
    apply Hguard, Hpure. unfold postApprove. repeat case_match; try done.
    apply (drawn_keep _ w); [|done|done]. simpl. rewrite list_fmap_insert. simpl.
    rewrite list_insert_id; [done|]. rewrite list_lookup_fmap.
    by match goal with H : _ !! _ = Some _ |- _ => rewrite H end.
  - (* /approve-all *)
    apply Hguard, Hpure.
    pose proof (postApproveAll_operations w) as Hops.
    assert (Ht : tick (postApproveAll w).2 = tick w).
    { unfold postApproveAll. by case_match. }
    apply (drawn_keep _ w); [|lia|done]. by rewrite Hops, approveIfPending_ids.
  - (* /retry *)
    apply Hguard, Hpure. unfold postRetry. repeat case_match; try done.
    apply (drawn_keep _ w); [|done|done]. simpl. rewrite list_fmap_insert. simpl.
    rewrite list_insert_id; [done|]. rewrite list_lookup_fmap.
    by match goal with H : _ !! _ = Some _ |- _ => rewrite H end.
  - (* /execute *)
    apply Hguard. intros r w1. unfold postExecute.
    destruct (schedule _ _ _ _ _) as [run|] eqn:Hrun; [|done].
    intros [= <- <-]. destruct (schedule_ids _ _ _ _ _ _ Hrun) as [Hids Hcalls].
    apply (drawn_keep _ w); [|done|done]. simpl. by rewrite Hids.
  - (* DELETE /operations *)
    apply Hguard, Hpure. unfold deleteOperations. repeat case_match; try done.
    apply (drawn_keep _ w); [|done|done]. simpl. rewrite list_fmap_delete.
    apply sublist_delete.
  - (* DELETE /operations/all *)
    apply Hguard, Hpure. apply (drawn_keep _ w); [|done|done]. simpl.
    apply filter_sublist.
  - apply Hguard, Hpure. unfold getOrgUsers. case_match; [done|]. by apply listing_drawn.
  - apply Hguard, Hpure. unfold getOrgTeams. case_match; [done|]. by apply listing_drawn.
  - apply Hguard, Hpure. unfold getTeamUsers. repeat case_match; try done.
    by apply listing_drawn.
  - apply Hguard, Hpure. unfold getPackageCollaborators. repeat case_match; try done.
    by apply listing_drawn.
Qed.

Lemma serve_drawn (reqs : list Request) (w : World)
    (responses : list Response) (w' : World) :
  idsDrawn randomHex w ->
  serve expectedToken randomHex dateNow execAsync jsonParse decodeURIComponent reqs w
  = Some (responses, w') ->
  idsDrawn randomHex w'.
Proof.
  revert w responses. induction reqs as [|req reqs IH]; intros w responses Hw; simpl.
  - by intros [= <- <-].
  - destruct (handle _ _ _ _ _ _ req w) as [[r w1]|] eqn:Hh; [|done].
    pose proof (handle_drawn req w r w1 Hw Hh) as Hw1.
    destruct (serve _ _ _ _ _ _ reqs w1) as [[rs w2]|] eqn:Hs; [|done].
    intros [= <- <-]. by apply (IH w1 rs).
Qed.

End UniqueIds.

(** X24: Ids are unique in every store that requests can build: whatever has
    been asked of the connector since it was created, if the values drawn
    from the random source so far are pairwise different, then no two
    stored operations share an id. *)
Theorem reachable_store_has_unique_ids
    (expectedToken : string) (randomHex : nat -> string) (dateNow : nat -> Z)
    (execAsync : nat -> string -> ExecOutcome)
    (jsonParse decodeURIComponent : string -> option string)
    (reqs : list Request) (responses : list Response) (w : World) :
  serve expectedToken randomHex dateNow execAsync jsonParse decodeURIComponent
        reqs (createConnectorApp expectedToken) = Some (responses, w) ->
  NoDup (randomHex <$> seq 0 (tick w)) ->
  NoDup (id <$> operations (state w)).
Proof.
  intros Hserve Hnd. apply (sublist_NoDup _ _ Hnd).
  eapply serve_drawn; [|exact Hserve].
  unfold idsDrawn. simpl. constructor.
Qed.

(** *** Stores without dependencies *)




(** *** Sample runs of the further properties *)

Lemma read_only_endpoints_keep_state_witness :
  exists (response : Response) (w' : World),
    sampleHandle (GetOrgUsers bearer (Some "acme")) retryWorld = Some (response, w') ∧
    state w' = state retryWorld ∧ written w' = written retryWorld.
Proof.
  apply (read_only_endpoints_keep_state "secret" sampleRandomHex sampleDateNow
           otpGuardedNpm Some Some (GetOrgUsers bearer (Some "acme")) retryWorld).
  reflexivity.
Defined.

Lemma postApprove_spec_witness :
  exists (response : Response) (w' : World),
    sampleHandle (PostApprove bearer (Some "b")) retryWorld = Some (response, w') ∧
    response = Success (DataOperation (sampleOperation "b" approved None)) ∧
    operations (state w') =
      [ setResult (Some (failure "boom" false)) (sampleOperation "a" failed None);
        sampleOperation "b" approved None ] ∧
    session (state w') = session (state retryWorld).
Proof.
  destruct (postApprove_spec "secret" sampleRandomHex sampleDateNow
              otpGuardedNpm Some Some bearer (Some "b") retryWorld)
    as (response & w' & Hhandle & Hpending & _ & _).
  - reflexivity.
  - apply (bool_decide_unpack _). by vm_compute.
  - exists response, w'. split; [exact Hhandle|].
    apply (Hpending 1 (sampleOperation "b" pending None)); reflexivity.
Defined.

Lemma deleteOperations_spec_witness :
  exists (response : Response) (w' : World),
    sampleHandle (DeleteOperations bearer (Some "a")) retryWorld = Some (response, w') ∧
    response = Success DataNone ∧
    operations (state w') = [sampleOperation "b" pending None] ∧
    (forall o, o ∈ operations (state w') -> id o ≠ "a") ∧
    session (state w') = session (state retryWorld).
Proof.
  destruct (deleteOperations_spec "secret" sampleRandomHex sampleDateNow
              otpGuardedNpm Some Some bearer (Some "a") retryWorld)
    as (response & w' & Hhandle & Hremoved & _ & _).
  - reflexivity.
  - apply (bool_decide_unpack _). by vm_compute.
  - exists response, w'. split; [exact Hhandle|].
    apply (Hremoved 0 (setResult (Some (failure "boom" false))
                         (sampleOperation "a" failed None)));
      [reflexivity | reflexivity | discriminate].
Defined.

Lemma postExecute_nothing_approved_witness :
  postExecute otpGuardedNpm None retryWorld
  = Some (Success (DataExecute [] false false), retryWorld).
Proof.
  apply postExecute_nothing_approved.
  intros op Hop. simpl in Hop.
  repeat (apply elem_of_cons in Hop as [->|Hop]; [discriminate|]).
  by apply elem_of_nil in Hop.
Defined.

Lemma execute_changes_status_and_result_only_witness :
  exists run : Run,
    schedule otpForA twoWaveStore None 0 [] = Some run ∧
    length (ops run) = 3 ∧
    forall (i : nat) (o : PendingOperation),
      twoWaveStore !! i = Some o ->
      exists op : PendingOperation,
        ops run !! i = Some op ∧
        id op = id o ∧ type op = type o ∧ params op = params o ∧
        description op = description o ∧ command op = command o ∧
        createdAt op = createdAt o ∧ dependsOn op = dependsOn o ∧
        (status o ≠ approved -> op = o).
Proof.
  destruct (schedule otpForA twoWaveStore None 0 []) as [run|] eqn:Hrun;
    [|by vm_compute in Hrun].
  exists run. split; [done|].
  apply (execute_changes_status_and_result_only otpForA twoWaveStore None 0 [] run Hrun).
Defined.


Lemma independent_operations_are_dispatched_witness :
  exists run : Run,
    schedule otpForA twoWaveStore None 0 [] = Some run ∧
    exists res : NpmExecResult,
      (1, res) ∈ invoked run ∧ exists k : nat,
        res = otpForA (0 + k) (setStatus running (sampleOperation "d" approved None)) None.
Proof.
  destruct (schedule otpForA twoWaveStore None 0 []) as [run|] eqn:Hrun;
    [|by vm_compute in Hrun].
  exists run. split; [done|].
  apply (independent_operations_are_dispatched otpForA twoWaveStore None 0 [] run 1
           (sampleOperation "d" approved None) Hrun); reflexivity.
Defined.


Lemma leftover_operations_wait_for_a_dependency_witness :
  exists run : Run,
    schedule alwaysFails forwardStore None 0 [] = Some run ∧
    exists d : string,
      dependsOn (sampleOperation "c" approved (Some "b")) = Some d ∧
      d ≠ EmptyString ∧ d ∉ completedIds run.
Proof.
  destruct (schedule alwaysFails forwardStore None 0 []) as [run|] eqn:Hrun;
    [|by vm_compute in Hrun].
  exists run. split; [done|].
  pose proof Hrun as Hnf. vm_compute in Hnf. injection Hnf as <-.
  apply (leftover_operations_wait_for_a_dependency alwaysFails forwardStore None 0 [] _ 1
           (sampleOperation "c" approved (Some "b")) Hrun).
  - by right.
  - reflexivity.
  - reflexivity.
  - apply (bool_decide_unpack _). by vm_compute.
  - apply (bool_decide_unpack _). by vm_compute.
Defined.

Lemma skipped_only_after_failed_dependency_witness :
  exists run : Run,
    schedule alwaysFails chainStore None 0 [] = Some run ∧
    exists (d : string) (j : nat) (a a' : PendingOperation),
      dependsOn (sampleOperation "c" approved (Some "b")) = Some d ∧
      d ≠ EmptyString ∧ d ∈ failedIds run ∧
      chainStore !! j = Some a ∧ id a = d ∧ status a = approved ∧
      ops run !! j = Some a' ∧ status a' = failed.
Proof.
  destruct (schedule alwaysFails chainStore None 0 []) as [run|] eqn:Hrun;
    [|by vm_compute in Hrun].
  exists run. split; [done|].
  pose proof Hrun as Hnf. vm_compute in Hnf. injection Hnf as <-.
  apply (skipped_only_after_failed_dependency alwaysFails chainStore None 0 [] _ 2
           (sampleOperation "c" approved (Some "b"))
           (skippedOp (sampleOperation "c" approved (Some "b"))) Hrun).
  - reflexivity.
  - reflexivity.
  - reflexivity.
  - reflexivity.
  - apply (bool_decide_unpack _). by vm_compute.
Defined.

Lemma completed_dependency_releases_dependent_witness :
  exists run : Run,
    schedule otpForA twoWaveStore (Some "123456") 0 [] = Some run ∧
    exists res : NpmExecResult,
      (2, res) ∈ invoked run ∧
      ops run !! 2 = Some (settledOp res (sampleOperation "c" approved (Some "d"))).
Proof.
  destruct (schedule otpForA twoWaveStore (Some "123456") 0 []) as [run|] eqn:Hrun;
    [|by vm_compute in Hrun].
  exists run. split; [done|].
  pose proof Hrun as Hnf. vm_compute in Hnf. injection Hnf as <-.
  apply (completed_dependency_releases_dependent otpForA twoWaveStore (Some "123456")
           0 [] _ 1 2 (sampleOperation "d" approved None)
           (settledOp success (sampleOperation "d" approved None))
           (sampleOperation "c" approved (Some "d"))).
  - apply (bool_decide_unpack _). by vm_compute.
  - exact Hrun.
  - by left.
  - reflexivity.
  - reflexivity.
  - reflexivity.
  - reflexivity.
  - reflexivity.
  - reflexivity.
  - reflexivity.
  - discriminate.
Defined.

Lemma reachable_store_has_unique_ids_witness :
  exists (responses : list Response) (w : World),
    sampleServe
      [ PostOperationsBatch bearer [createTeam "@acme:core"; createTeam "@acme:docs"];
        PostOperations bearer (createTeam "@acme:ops");
        DeleteOperations bearer (Some "op2") ]
      (createConnectorApp "secret") = Some (responses, w) ∧
    NoDup (id <$> operations (state w)).
Proof.
  destruct (sampleServe
      [ PostOperationsBatch bearer [createTeam "@acme:core"; createTeam "@acme:docs"];
        PostOperations bearer (createTeam "@acme:ops");
        DeleteOperations bearer (Some "op2") ]
      (createConnectorApp "secret")) as [[responses w]|] eqn:Hserve;
    [|by vm_compute in Hserve].
  exists responses, w. split; [done|].
  pose proof Hserve as Hnf. vm_compute in Hnf. injection Hnf as <- <-.
  apply (reachable_store_has_unique_ids "secret" sampleRandomHex sampleDateNow
           otpGuardedNpm Some Some _ _ _ Hserve).
  apply (bool_decide_unpack _). by vm_compute.
Defined.


End Server.

(** ** The packages of an organisation
    ([server/api/registry/org/[org]/packages.get.ts]) *)

Module OrgPackages.

Import JsString.

(** Regular expressions, as far as [NPM_ORG_NAME_RE] needs them: character
    classes, concatenation, alternation, [*] and [?]. *)
Inductive Regex :=
| Never
| Epsilon
| Chars (class : ascii -> bool)
| Seq (r1 r2 : Regex)
| Alt (r1 r2 : Regex)
| Star (r : Regex).

(** [r?] *)
Definition Optional (r : Regex) : Regex := Alt r Epsilon.

Fixpoint nullable (r : Regex) : bool :=
  match r with
  | Never => false
  | Epsilon => true
  | Chars _ => false
  | Seq r1 r2 => nullable r1 && nullable r2
  | Alt r1 r2 => nullable r1 || nullable r2
  | Star _ => true
  end.

(** What is left of [r] to match once [c] has been read. *)
Fixpoint deriv (c : ascii) (r : Regex) : Regex :=
  match r with
  | Never => Never
  | Epsilon => Never
  | Chars class => if class c then Epsilon else Never
  | Seq r1 r2 =>
      if nullable r1 then Alt (Seq (deriv c r1) r2) (deriv c r2)
      else Seq (deriv c r1) r2
  | Alt r1 r2 => Alt (deriv c r1) (deriv c r2)
  | Star r1 => Seq (deriv c r1) (Star r1)
  end.

Fixpoint matches (r : Regex) (s : list ascii) : bool :=
  match s with
  | [] => nullable r
  | c :: s' => matches (deriv c r) s'
  end.

(** [/^r$/.test(name)]: the pattern is anchored at both ends and has no [m]
    flag, so the whole string has to match. *)
Definition test (r : Regex) (name : string) : bool :=
  matches r (list_ascii_of_string name).

Definition between (lo hi c : ascii) : bool :=
  (nat_of_ascii lo <=? nat_of_ascii c)%nat && (nat_of_ascii c <=? nat_of_ascii hi)%nat.

(** [[a-z0-9]] under the [i] flag *)
Definition alphanumeric (c : ascii) : bool :=
  between "a" "z" (lowerChar c) || between "0" "9" c.

(** [[a-z0-9-]] under the [i] flag *)
Definition alphanumericOrHyphen (c : ascii) : bool :=
  alphanumeric c || Ascii.eqb c "-".

(** [/^[a-z0-9]([a-z0-9-]*[a-z0-9])?$/i] *)
Definition NPM_ORG_NAME_RE : Regex :=
  Seq (Chars alphanumeric)
      (Optional (Seq (Star (Chars alphanumericOrHyphen)) (Chars alphanumeric))).

Inductive Answer :=
| NotFound (message : string)                        (* createError, status 404 *)
| Packages (packages : list string) (count : nat).

(** [validateOrgName]: [None] when it returns, the error when it throws. *)
Definition validateOrgName (name : string) : option Answer :=
  if negb (truthy (Some name)) || (50 <? String.length name)%nat
     || negb (test NPM_ORG_NAME_RE name)
  then Some (NotFound ("Invalid org name: " +:+ name))
  else None.

Definition NPM_REGISTRY : string := "https://registry.npmjs.org".

Section Handler.

(** [encodeURIComponent] *)
Variable encodeURIComponent : string -> string.
(** [$fetch(url)] followed by [Object.keys]: the keys of the answer, or
    [None] when the request fails. *)
Variable fetch : string -> option (list string).

(** The event handler, given [getRouterParam(event, 'org')].  Besides the
    answer it gives the requests that were sent to the registry. *)
Definition handler (org : option string) : Answer * list string :=
  if negb (truthy org) then (NotFound "Org name is required", [])
  else
    let name := default EmptyString org in
    match validateOrgName name with
    | Some error => (error, [])
    | None =>
        let url := NPM_REGISTRY +:+ "/-/org/" +:+ encodeURIComponent name +:+ "/package" in
        match fetch url with
        | Some keys => (Packages keys (length keys), [url])
        | None => (Packages [] 0, [url])       (* Org doesn't exist or has no packages *)
        end
    end.

End Handler.

(** *** What the pattern accepts *)

(** The language of a pattern. *)
Inductive Matches : Regex -> list ascii -> Prop :=
| MEpsilon : Matches Epsilon []
| MChars class c : class c = true -> Matches (Chars class) [c]
| MSeq r1 r2 s1 s2 : Matches r1 s1 -> Matches r2 s2 -> Matches (Seq r1 r2) (s1 ++ s2)
| MAltL r1 r2 s : Matches r1 s -> Matches (Alt r1 r2) s
| MAltR r1 r2 s : Matches r2 s -> Matches (Alt r1 r2) s
| MStarNil r : Matches (Star r) []
| MStarApp r s1 s2 : Matches r s1 -> Matches (Star r) s2 -> Matches (Star r) (s1 ++ s2).

Lemma nullable_spec (r : Regex) : nullable r = true <-> Matches r [].
Proof.
  induction r as [| |class|r1 IH1 r2 IH2|r1 IH1 r2 IH2|r IH]; simpl.
  - split; [done | intros H; inversion H].
  - split; [constructor | done].
  - split; [done | intros H; inversion H].
  - rewrite andb_true_iff, IH1, IH2. split.
    + intros [H1 H2]. by apply (MSeq r1 r2 [] []).
    + intros H. inversion H as [| |? ? s1 s2 H1 H2| | | |]; subst.
      match goal with E : _ ++ _ = [] |- _ => apply app_eq_nil in E as [-> ->] end.
      done.
  - rewrite orb_true_iff, IH1, IH2. split.
    + intros [H|H]; [by apply MAltL | by apply MAltR].
    + intros H. inversion H; subst; [by left | by right].
  - split; [constructor | done].
Qed.

(** A non-empty match of [r*] starts with a non-empty match of [r]. *)
Lemma star_cons (r : Regex) (c : ascii) (s : list ascii) :
  Matches (Star r) (c :: s) ->
  exists s1 s2, s = s1 ++ s2 ∧ Matches r (c :: s1) ∧ Matches (Star r) s2.
Proof.
  intros H. remember (Star r) as r' eqn:Hr. remember (c :: s) as t eqn:Ht.
  induction H as [| | | | | |r0 s1 s2 H1 _ H2 IH2]; try discriminate.
  injection Hr as ->. destruct s1 as [|a s1].
  - simpl in Ht. by apply IH2.
  - simpl in Ht. injection Ht as -> <-. by exists s1, s2.
Qed.

Lemma deriv_spec (c : ascii) (r : Regex) (s : list ascii) :
  Matches (deriv c r) s <-> Matches r (c :: s).
Proof.
  revert s. induction r as [| |class|r1 IH1 r2 IH2|r1 IH1 r2 IH2|r IH]; intros s; simpl.
  - split; intros H; inversion H.
  - split; intros H; inversion H.
  - destruct (class c) eqn:Hc.
    + split; intros H; inversion H; subst; [by constructor|constructor].
    + split; intros H; inversion H; subst. congruence.
  - assert (Hseq : Matches (Seq (deriv c r1) r2) s ->  Matches (Seq r1 r2) (c :: s)).
    { intros H. inversion H as [| |? ? s1 s2 H1 H2| | | |]; subst.
      apply IH1 in H1. by apply (MSeq r1 r2 (c :: s1) s2). }
    assert (Hinv : Matches (Seq r1 r2) (c :: s) ->
              Matches (Seq (deriv c r1) r2) s ∨ (Matches r1 [] ∧ Matches r2 (c :: s))).
    { intros H. inversion H as [| |? ? s1 s2 H1 H2 [Hr1 Hr2] Heq| | | |].
      destruct s1 as [|a s1]; simpl in *.
      - right. by subst.
      - injection Heq as -> <-. left. apply MSeq; [by apply IH1 | done]. }
    destruct (nullable r1) eqn:Hn.
    + split.
      * intros H. inversion H; subst; [by apply Hseq|].
        apply (MSeq r1 r2 [] (c :: s)); [by apply nullable_spec | by apply IH2].
      * intros H. destruct (Hinv H) as [H'|[_ H']]; [by apply MAltL|].
        apply MAltR. by apply IH2.
    + split; [done|]. intros H. destruct (Hinv H) as [H'|[H' _]]; [done|].
      apply nullable_spec in H'. congruence.
  - split.
    + intros H. inversion H; subst; [apply MAltL; by apply IH1 | apply MAltR; by apply IH2].
    + intros H. inversion H; subst; [apply MAltL; by apply IH1 | apply MAltR; by apply IH2].
  - split.
    + intros H. inversion H as [| |? ? s1 s2 H1 H2| | | |]; subst.
      apply IH in H1. by apply (MStarApp r (c :: s1) s2).
    + intros H. destruct (star_cons r c s H) as (s1 & s2 & -> & H1 & H2).
      apply MSeq; [by apply IH | done].
Qed.

Lemma matches_spec (r : Regex) (s : list ascii) :
  matches r s = true <-> Matches r s.
Proof.
  revert r. induction s as [|c s IH]; intros r; simpl.
  - apply nullable_spec.
  - by rewrite IH, deriv_spec.
Qed.

Lemma Matches_star_class (class : ascii -> bool) (s : list ascii) :
  Matches (Star (Chars class)) s <-> Forall (fun c => class c = true) s.
Proof.
  split.
  - intros H. remember (Star (Chars class)) as r eqn:Hr.
    induction H as [| | | | | |r0 s1 s2 H1 _ H2 IH2]; try discriminate; [done|].
    injection Hr as ->. inversion H1; subst. simpl. constructor; [done | by apply IH2].
  - induction 1 as [|c s Hc _ IH]; [constructor|].
    apply (MStarApp _ [c] s); [by constructor | done].
Qed.

(** A well-formed organisation name: letters, digits and hyphens, with a
    letter or digit at both ends. *)
Definition letterOrDigit (c : ascii) : Prop :=
  let n := nat_of_ascii c in
  (97 <= n <= 122) ∨ (65 <= n <= 90) ∨ (48 <= n <= 57).

Definition wellFormed (name : string) : Prop :=
  let chars := list_ascii_of_string name in
  1 <= length chars <= 50 ∧
  Forall (fun c => letterOrDigit c ∨ c = "-"%char) chars ∧
  (exists c, head chars = Some c ∧ letterOrDigit c) ∧
  (exists c, last chars = Some c ∧ letterOrDigit c).

Lemma alphanumeric_spec (c : ascii) : alphanumeric c = true <-> letterOrDigit c.
Proof.
  unfold alphanumeric, letterOrDigit, between, lowerChar.
  change (nat_of_ascii "a") with 97. change (nat_of_ascii "z") with 122.
  change (nat_of_ascii "0") with 48. change (nat_of_ascii "9") with 57.
  pose proof (nat_ascii_bounded c) as Hb.
  destruct ((65 <=? nat_of_ascii c)%nat && (nat_of_ascii c <=? 90)%nat) eqn:Hup.
  - apply andb_true_iff in Hup as [H1 H2].
    apply Nat.leb_le in H1, H2.
    rewrite nat_ascii_embedding by lia.
    rewrite orb_true_iff, !andb_true_iff, !Nat.leb_le. lia.
  - apply andb_false_iff in Hup.
    rewrite !Nat.leb_nle in Hup.
    rewrite orb_true_iff, !andb_true_iff, !Nat.leb_le. lia.
Qed.

Lemma alphanumericOrHyphen_spec (c : ascii) :
  alphanumericOrHyphen c = true <-> letterOrDigit c ∨ c = "-"%char.
Proof.
  unfold alphanumericOrHyphen.
  by rewrite orb_true_iff, alphanumeric_spec, Ascii.eqb_eq.
Qed.

Lemma Matches_name (s : list ascii) :
  Matches NPM_ORG_NAME_RE s <->
  Forall (fun c => letterOrDigit c ∨ c = "-"%char) s ∧
  (exists c, head s = Some c ∧ letterOrDigit c) ∧
  (exists c, last s = Some c ∧ letterOrDigit c).
Proof.
  unfold NPM_ORG_NAME_RE, Optional. split.
  - intros H. inversion H as [| |? ? s1 s2 H1 H2| | | |]; subst.
    inversion H1 as [|? c Hc| | | | |]; subst. apply alphanumeric_spec in Hc.
    inversion H2 as [| | |? ? ? H3|? ? ? H3| |]; subst.
    + inversion H3 as [| |? ? t1 t2 H4 H5| | | |]; subst.
      inversion H5 as [|? d Hd| | | | |]; subst. apply alphanumeric_spec in Hd.
      apply Matches_star_class in H4. simpl. split; [|split].
      * constructor; [by left|]. apply Forall_app. split.
        -- eapply Forall_impl; [exact H4|]. intros x Hx. by apply alphanumericOrHyphen_spec.
        -- constructor; [by left | constructor].
      * by exists c.
      * exists d. split; [|done].
        change (c :: t1 ++ [d]) with ((c :: t1) ++ [d]). by rewrite last_snoc.
    + inversion H3; subst. simpl. split; [|split].
      * constructor; [by left | constructor].
      * by exists c.
      * by exists c.
  - intros (Hall & (c & Hhead & Hc) & (d & Hlast & Hd)).
    destruct s as [|c' s]; [done|]. simpl in Hhead. injection Hhead as ->.
    apply (MSeq _ _ [c] s); [constructor; by apply alphanumeric_spec|].
    destruct (decide (s = [])) as [->|Hne]; [apply MAltR; constructor|].
    apply MAltL.
    destruct (exists_last Hne) as (t & e & ->).
    change (c :: t ++ [e]) with ((c :: t) ++ [e]) in Hlast, Hall.
    rewrite last_snoc in Hlast. injection Hlast as ->.
    apply MSeq.
    + apply Matches_star_class. apply Forall_app in Hall as [Hall _].
      apply Forall_cons in Hall as [_ Hall].
      eapply Forall_impl; [exact Hall|]. intros x Hx. by apply alphanumericOrHyphen_spec.
    + constructor. by apply alphanumeric_spec.
Qed.

Lemma length_list_ascii (s : string) :
  length (list_ascii_of_string s) = String.length s.
Proof. induction s as [|c s IH]; simpl; [done | by rewrite IH]. Qed.

Lemma validateOrgName_None (name : string) :
  validateOrgName name = None <-> wellFormed name.
Proof.
  unfold validateOrgName, wellFormed, test.
  rewrite length_list_ascii.
  destruct (matches NPM_ORG_NAME_RE (list_ascii_of_string name)) eqn:Hm.
  - apply matches_spec, Matches_name in Hm.
    destruct (Nat.ltb_spec 50 (String.length name)) as [Hlen|Hlen].
    + rewrite orb_true_r. simpl. split; [done|]. lia.
    + destruct name as [|c name]; simpl.
      * split; [done|]. simpl. lia.
      * split; [|done]. intros _. split; [simpl in *; lia | done].
  - rewrite orb_true_r. split; [done|].
    intros (_ & H). apply Matches_name, matches_spec in H. congruence.
Qed.

(** X26: [validateOrgName] returns exactly for the well-formed names of at most
    50 characters; for every other name it throws the 404 error that quotes
    the name. *)
Theorem validateOrgName_spec (name : string) :
  (validateOrgName name = None <-> wellFormed name) ∧
  (validateOrgName name ≠ None ->
   validateOrgName name = Some (NotFound ("Invalid org name: " +:+ name))).
Proof.
  split; [apply validateOrgName_None|].
  unfold validateOrgName. by case_match.
Qed.

Lemma validateOrgName_samples :
  validateOrgName "npm" = None ∧
  validateOrgName "Acme-1" = None ∧
  validateOrgName "a--b" = None ∧
  validateOrgName "-a" = Some (NotFound "Invalid org name: -a") ∧
  validateOrgName "a-" = Some (NotFound "Invalid org name: a-") ∧
  validateOrgName "a_b" = Some (NotFound "Invalid org name: a_b") ∧
  validateOrgName EmptyString = Some (NotFound "Invalid org name: ").
Proof. repeat split; by vm_compute. Qed.

(** X27: The handler asks the registry only about well-formed names, at most
    once, and the count it answers with is the number of packages it
    lists. *)
Theorem handler_asks_for_well_formed_names_only
    (encodeURIComponent : string -> string) (fetch : string -> option (list string))
    (org : option string) :
  match handler encodeURIComponent fetch org with
  | (NotFound _, requests) => requests = [] ∧ forall name, org = Some name -> ¬ wellFormed name
  | (Packages packages count, requests) =>
      count = length packages ∧
      exists name : string,
        org = Some name ∧ wellFormed name ∧
        requests = [NPM_REGISTRY +:+ "/-/org/" +:+ encodeURIComponent name +:+ "/package"] ∧
        packages = default [] (fetch (NPM_REGISTRY +:+ "/-/org/" +:+
                                      encodeURIComponent name +:+ "/package"))
  end.
Proof.
  unfold handler. destruct org as [name|]; simpl; [|done].
  destruct name as [|c name]; simpl.
  { split; [done|]. intros n [= <-] (H & _). simpl in H. lia. }
  set (n := String c name).
  pose proof (validateOrgName_None n) as Hok.
  destruct (validateOrgName n) as [error|] eqn:Hv.
  - assert (Herr : error = NotFound ("Invalid org name: " +:+ n)).
    { unfold validateOrgName in Hv. case_match; congruence. }
    rewrite Herr.
    split; [done|]. intros n' [= <-] Hwf. apply Hok in Hwf. done.
  - assert (Hwf : wellFormed n) by (by apply Hok).
    destruct (fetch _) as [keys|] eqn:Hf; (split; [done|]); exists n; by rewrite Hf.
Qed.

End OrgPackages.
